(** * Probabilistic streaming toolkit of the nus-cs5228 lecture notebooks

    A shallow embedding of the three notebooks that implement their
    algorithms from primitives:

    - the Bloom filter notebook ([h], [init_B], [add_key], [fill_B],
      [check_key], [init_counting_B], [update_counter], [update_key],
      [insert_key], [delete_key], the loop that inserts a list of keys,
      [check_key_counting]);
    - the Flajolet-Martin notebook ([h], [get_r], the loop of the basic
      algorithm, the [Rs] update loop, [estimates], [medians],
      [final_estimate]);
    - the stream sampling notebook (the loop of sampling by position, [h],
      the keyed sampling loop, [generate_stream], [RESERVOIR],
      [handle_new_item] and its driver loop).

    Python integers are [Z]; a float64 is the rational it stands for, and
    its operations round as IEEE 754 does; a [bitarray] is a [list bool]; a
    Python [str] is the [string] of its UTF-8 bytes (so [.encode("utf-8")]
    is the identity and [s*nr] is repetition); an exception is a value of
    [exn] and a mutated global comes back together with the exception that
    interrupted the loop. *)

From Stdlib Require Import ZArith QArith Qround Qpower SpecFloat Lia List Permutation.
From Stdlib Require Import String Ascii.
From stdpp Require Import base list strings sorting.

Local Open Scope Z_scope.

(** ** Exceptions and in-place updates *)

Inductive exn : Type :=
  | IndexError
  | ValueError
  | TypeError
  | OverflowError
  | ZeroDivisionError
  | Exception (msg : string).

(** A pure computation that may raise. *)
Inductive result (A : Type) : Type :=
  | Ok (a : A)
  | Raise (e : exn).
Arguments Ok {A} a.
Arguments Raise {A} e.

(** A statement run on a mutable object [S]: either it finishes and leaves
    the object in state [s], or it raises and the object keeps whatever was
    written before the exception. *)
Inductive outcome (S : Type) : Type :=
  | Done (s : S)
  | Raised (e : exn) (s : S).
Arguments Done {S} s.
Arguments Raised {S} e s.

Definition state_of {S : Type} (o : outcome S) : S :=
  match o with Done s => s | Raised _ s => s end.

Definition bind_result {A B : Type} (r : result A) (k : A -> result B) : result B :=
  match r with Ok a => k a | Raise e => Raise e end.

Definition bind_outcome {S : Type} (o : outcome S) (k : S -> outcome S) : outcome S :=
  match o with Done s => k s | Raised e s => Raised e s end.

Notation "'let*' x ':=' r 'in' k" := (bind_result r (fun x => k))
  (at level 10, x name, r at level 100, k at level 200).
Notation "o >>> k" := (bind_outcome o k) (at level 50, left associativity).

(** [for x in xs: body], the body working on the mutable object. *)
Fixpoint for_each {A S : Type} (xs : list A) (body : A -> S -> outcome S) (s : S)
  : outcome S :=
  match xs with
  | [] => Done s
  | x :: xs' => body x s >>> for_each xs' body
  end.

(** [range(lo, lo+n)] as integers. *)
Definition range (lo : Z) (n : nat) : list Z := map (fun i => lo + Z.of_nat i) (seq 0 n).

(** [l[i]] and [l[i] = v] for an integer index: negative indexes count from
    the end, anything outside raises [IndexError]. *)
Definition norm_index {A : Type} (l : list A) (i : Z) : option nat :=
  let n := Z.of_nat (length l) in
  if (0 <=? i) && (i <? n) then Some (Z.to_nat i)
  else if (- n <=? i) && (i <? 0) then Some (Z.to_nat (n + i))
  else None.

Definition getitem {A : Type} (l : list A) (i : Z) : result A :=
  match norm_index l i with
  | Some k => match l !! k with Some a => Ok a | None => Raise IndexError end
  | None => Raise IndexError
  end.

Definition setitem {A : Type} (i : Z) (v : A) (l : list A) : outcome (list A) :=
  match norm_index l i with
  | Some k => Done (<[k:=v]> l)
  | None => Raised IndexError l
  end.

(** ** hashlib.sha1 (FIPS 180-4), on 32-bit words kept in [Z] *)

Module SHA1.

Definition wrap32 (x : Z) : Z := Z.land x 0xFFFFFFFF.

Definition rotl (n x : Z) : Z :=
  wrap32 (Z.lor (Z.shiftl x n) (Z.shiftr x (32 - n))).

Definition add32 (x y : Z) : Z := wrap32 (x + y).

Definition bytes_of (s : string) : list Z :=
  map (fun c => Z.of_N (Ascii.N_of_ascii c)) (String.list_ascii_of_string s).

(** Big-endian bytes of [x], [n] of them. *)
Fixpoint be_bytes (n : nat) (x : Z) : list Z :=
  match n with
  | O => []
  | S n' => Z.land (Z.shiftr x (8 * Z.of_nat n')) 0xFF :: be_bytes n' x
  end.

Definition pad (msg : list Z) : list Z :=
  let len := Z.of_nat (length msg) in
  msg ++ [0x80] ++ replicate (Z.to_nat ((55 - len) mod 64)) 0 ++ be_bytes 8 (8 * len).

Fixpoint words (bs : list Z) : list Z :=
  match bs with
  | a :: b :: c :: d :: rest =>
      Z.lor (Z.shiftl a 24) (Z.lor (Z.shiftl b 16) (Z.lor (Z.shiftl c 8) d))
      :: words rest
  | _ => []
  end.

Fixpoint blocks (fuel : nat) (ws : list Z) : list (list Z) :=
  match fuel, ws with
  | S fuel', _ :: _ => take 16 ws :: blocks fuel' (drop 16 ws)
  | _, _ => []
  end.

Definition f_k (i : nat) (b c d : Z) : Z * Z :=
  if (i <? 20)%nat then
    (Z.lor (Z.land b c) (Z.land (Z.lxor b 0xFFFFFFFF) d), 0x5A827999)
  else if (i <? 40)%nat then (Z.lxor b (Z.lxor c d), 0x6ED9EBA1)
  else if (i <? 60)%nat then
    (Z.lor (Z.land b c) (Z.lor (Z.land b d) (Z.land c d)), 0x8F1BBCDC)
  else (Z.lxor b (Z.lxor c d), 0xCA62C1D6).

Definition word_at (w : list Z) (i : nat) : Z := default 0 (w !! i).

(** The message schedule as a sliding window of 16 words: round [i] uses
    the head, and the window moves on by [w(i+16)]. *)
Definition slide (w : list Z) : list Z :=
  drop 1 w ++
  [rotl 1 (Z.lxor (word_at w 13) (Z.lxor (word_at w 8)
                                    (Z.lxor (word_at w 2) (word_at w 0))))].

Definition round (i : nat) (st : Z * Z * Z * Z * Z * list Z)
  : Z * Z * Z * Z * Z * list Z :=
  let '(a, b, c, d, e, w) := st in
  let '(f, k) := f_k i b c d in
  let temp := add32 (add32 (add32 (add32 (rotl 5 a) f) e) k) (word_at w 0) in
  (temp, a, rotl 30 b, c, d, slide w).

Definition compress (hs : Z * Z * Z * Z * Z) (block : list Z) : Z * Z * Z * Z * Z :=
  let '(h0, h1, h2, h3, h4) := hs in
  let '(a, b, c, d, e, _) :=
    fold_left (fun st i => round i st) (seq 0 80) (h0, h1, h2, h3, h4, block) in
  (add32 h0 a, add32 h1 b, add32 h2 c, add32 h3 d, add32 h4 e).

Definition init : Z * Z * Z * Z * Z :=
  (0x67452301, 0xEFCDAB89, 0x98BADCFE, 0x10325476, 0xC3D2E1F0).

(** [int(hashlib.sha1(bytes).hexdigest(), 16)] *)
Definition digest_int (msg : list Z) : Z :=
  let ws := words (pad msg) in
  let '(h0, h1, h2, h3, h4) := fold_left compress (blocks (length ws) ws) init in
  Z.lor (Z.shiftl h0 128)
    (Z.lor (Z.shiftl h1 96) (Z.lor (Z.shiftl h2 64) (Z.lor (Z.shiftl h3 32) h4))).

Definition sha1_int (s : string) : Z := digest_int (bytes_of s).

End SHA1.

(** [s * nr]: no copy at all for [nr <= 0]. *)
Definition str_mul (s : string) (nr : Z) : string :=
  fold_right String.append EmptyString (replicate (Z.to_nat nr) s).

(** ** Data Stream Mining: Bloom Filter *)

Module BloomFilter.

Abbreviation bitarray := (list bool).

(** [def h(s, num_digits=1, nr=1)]; [num_digits] is a non-negative int. *)
Definition h (s : string) (num_digits : nat) (nr : Z) : Z :=
  SHA1.sha1_int (str_mul s nr) mod 10 ^ Z.of_nat num_digits.

Definition init_B (num_buckets : nat) : bitarray := replicate num_buckets false.

Definition add_key (s : string) (B : bitarray) (num_digits : nat)
    (num_hash_functions : Z) : outcome bitarray :=
  for_each (range 1 (Z.to_nat num_hash_functions))
    (fun nr B =>
       let pos := h s num_digits nr in
       setitem pos true B)
    B.

Definition fill_B (S : list string) (B : bitarray) (num_digits : nat)
    (num_hash_functions : Z) : outcome bitarray :=
  for_each S (fun s B => add_key s B num_digits num_hash_functions) B.

(** The loop of [check_key] only reads [B]; the mutable object is [cnt]. *)
Definition check_key (s : string) (B : bitarray) (num_digits : nat)
    (num_hash_functions : Z) : result bool :=
  match
    for_each (range 1 (Z.to_nat num_hash_functions))
      (fun nr cnt =>
         let pos := h s num_digits nr in
         match getitem B pos with
         | Ok bit => Done (cnt + Z.b2z bit)
         | Raise e => Raised e cnt
         end)
      0
  with
  | Done cnt => Ok (cnt =? num_hash_functions)
  | Raised e _ => Raise e
  end.

(** *** Counting Bloom filter *)

Definition init_counting_B (num_buckets bits_per_counter : nat) : bitarray :=
  replicate (num_buckets * bits_per_counter) false.

(** [B[a:b]] and [B[a:b] = v] for [0 <= a <= b]: the bounds are clamped to
    the length, and the assignment may change the length. *)
Definition getslice (B : bitarray) (a b : nat) : bitarray := take (b - a) (drop a B).

Definition setslice (a b : nat) (v : bitarray) (B : bitarray) : bitarray :=
  take a B ++ v ++ drop (Nat.max a b) B.

(** [bitarray.util.ba2int], big-endian; the empty bitarray is refused. *)
Definition ba2int (counter : bitarray) : result Z :=
  match counter with
  | [] => Raise ValueError
  | _ => Ok (fold_left (fun acc bit => 2 * acc + Z.b2z bit) counter 0)
  end.

(** Number of binary digits Python prints for [n >= 0]. *)
Definition bit_length (n : Z) : nat :=
  if n =? 0 then 1%nat else S (Z.to_nat (Z.log2 n)).

(** [bitarray(format(n, '0{}b'.format(width)))] for [n >= 0]: the binary
    digits of [n], most significant first, padded with zeros on the left
    up to [width] digits. *)
Definition format_bin (width : nat) (n : Z) : bitarray :=
  let len := Nat.max width (bit_length n) in
  map (fun i => Z.testbit n (Z.of_nat (len - 1 - i))) (seq 0 len).

Definition msg_underflow : string := "Error: bit counter < 0".
Definition msg_overflow : string := "Error: counter larger than max size".

Definition update_counter (counter : bitarray) (bits_per_counter : nat)
    (update : string) : result bitarray :=
  let* int_val := ba2int counter in
  let int_val := if String.eqb update "inc" then int_val + 1 else int_val - 1 in
  if int_val <? 0 then Raise (Exception msg_underflow)
  else if int_val >=? 2 ^ Z.of_nat bits_per_counter then Raise (Exception msg_overflow)
  else Ok (format_bin bits_per_counter int_val).

(** One turn of the loop of [update_key], for the hash function [nr]. *)
Definition update_pos (s : string) (num_digits : nat) (bits_per_counter : nat)
    (update : string) (nr : Z) (B : bitarray) : outcome bitarray :=
  let pos := Z.to_nat (h s num_digits nr) in
  let counter :=
    getslice B (pos * bits_per_counter) (pos * bits_per_counter + bits_per_counter) in
  let r :=
    if String.eqb update "insert"
    then update_counter counter bits_per_counter "inc"
    else update_counter counter bits_per_counter "dec" in
  match r with
  | Ok counter =>
      Done (setslice (pos * bits_per_counter)
              (pos * bits_per_counter + bits_per_counter) counter B)
  | Raise e => Raised e B
  end.

Definition update_key (s : string) (B : bitarray) (num_digits : nat)
    (num_hash_functions : Z) (bits_per_counter : nat) (update : string)
  : outcome bitarray :=
  for_each (range 1 (Z.to_nat num_hash_functions))
    (update_pos s num_digits bits_per_counter update) B.

Definition insert_key (s : string) (B : bitarray) (num_digits : nat)
    (num_hash_functions : Z) (bits_per_counter : nat) : outcome bitarray :=
  update_key s B num_digits num_hash_functions bits_per_counter "insert".

Definition delete_key (s : string) (B : bitarray) (num_digits : nat)
    (num_hash_functions : Z) (bits_per_counter : nat) : outcome bitarray :=
  update_key s B num_digits num_hash_functions bits_per_counter "delete".

(** [check_key_counting] reads the global [bits_per_counter]. *)
Definition check_key_counting (bits_per_counter : nat) (s : string) (B : bitarray)
    (num_digits : nat) (num_hash_functions : Z) : result bool :=
  match
    for_each (range 1 (Z.to_nat num_hash_functions))
      (fun nr cnt =>
         let pos := Z.to_nat (h s num_digits nr) in
         let counter :=
           getslice B (pos * bits_per_counter)
             (pos * bits_per_counter + bits_per_counter) in
         match ba2int counter with
         | Ok v => Done (if v >? 0 then cnt + 1 else cnt)
         | Raise e => Raised e cnt
         end)
      0
  with
  | Done cnt => Ok (cnt =? num_hash_functions)
  | Raised e _ => Raise e
  end.

(** The cell that creates [B] from the example set:
    [for s in S: insert_key(s, B, ...)]. *)
Definition insert_all (S : list string) (B : bitarray) (num_digits : nat)
    (num_hash_functions : Z) (bits_per_counter : nat) : outcome bitarray :=
  for_each S (fun s B => insert_key s B num_digits num_hash_functions bits_per_counter) B.

End BloomFilter.

(** ** numpy's legacy global random generator

    The generator is a tape of raw words and a cursor; a bounded draw reduces
    the next raw word, so every value below the bound can come out. *)

Record rng : Type := { tape : nat -> Z; cursor : nat }.

Definition draw_below (bound : Z) (g : rng) : Z * rng :=
  (tape g (cursor g) mod bound, {| tape := tape g; cursor := S (cursor g) |}).

(** [np.random.randint(low, high)]: an integer of [[low, high)], for bounds
    within int64, as the indexes of a list are. *)
Definition randint (low high : Z) (g : rng) : result Z * rng :=
  if low <? high then
    let '(v, g') := draw_below (high - low) g in (Ok (low + v), g')
  else (Raise ValueError, g).

Definition swap {A : Type} (i j : nat) (l : list A) : list A :=
  match l !! i, l !! j with
  | Some a, Some b => <[i:=b]> (<[j:=a]> l)
  | _, _ => l
  end.

(** [np.random.shuffle(x)]: for [i = n-1 .. 1], swap [x[i]] with [x[j]] for a
    [j] drawn from [[0, i]]. *)
Definition shuffle {A : Type} (l : list A) (g : rng) : list A * rng :=
  fold_left
    (fun '(l, g) i =>
       let '(j, g') := draw_below (Z.of_nat i + 1) g in
       (swap i (Z.to_nat j) l, g'))
    (rev (seq 1 (length l - 1))) (l, g).

(** ** float64 (IEEE 754 binary64)

    A finite float64 is kept as the rational it stands for, in lowest terms.
    The result of an operation is the exact result rounded to the nearest
    float64, a tie going to the even significand; a result that rounds to
    [2^1024] or beyond is an infinity. Zero has one sign here: the two zeros
    of float64 compare equal, and a negative zero is not the result of any
    sum or quotient of the values below. *)

Module Float64.

Inductive float : Type :=
  | Finite (q : Q)
  | Infinity (negative : bool)
  | NaN.

(** [floor(log2 x)] for [x > 0]: the difference of the bit lengths of the
    numerator and the denominator, or one less. *)
Definition ilog2 (x : Q) : Z :=
  let k := Z.log2 (Qnum x) - Z.log2 (Z.pos (Qden x)) in
  if Qle_bool (2 ^ k) x then k else k - 1.

(** The nearest integer, a tie going to the even one. *)
Definition rne (x : Q) : Z :=
  let f := Qfloor x in
  match (x - inject_Z f ?= 1 # 2)%Q with
  | Lt => f
  | Gt => f + 1
  | Eq => if Z.even f then f else f + 1
  end.

(** Rounding of [x > 0]: 53 significant bits, the last one worth [2^e] with
    [e] no less than [-1074], the exponent of the subnormal numbers. *)
Definition round_pos (x : Q) : float :=
  let e := Z.max (ilog2 x - 52) (- 1074) in
  let y := (inject_Z (rne (x / 2 ^ e)) * 2 ^ e)%Q in
  if Qle_bool (2 ^ 1024) y then Infinity false else Finite (Qred y).

Definition fneg (x : float) : float :=
  match x with
  | Finite q => Finite (- q)
  | Infinity negative => Infinity (negb negative)
  | NaN => NaN
  end.

Definition round64 (x : Q) : float :=
  match (x ?= 0)%Q with
  | Eq => Finite 0
  | Gt => round_pos x
  | Lt => fneg (round_pos (- x))
  end.

(** The cast of an integer to float64. *)
Definition of_int (z : Z) : float := round64 (inject_Z z).

Definition is_negative (q : Q) : bool := Qnum q <? 0.

Definition fadd (x y : float) : float :=
  match x, y with
  | Finite a, Finite b => round64 (a + b)
  | Finite _, Infinity s | Infinity s, Finite _ => Infinity s
  | Infinity s, Infinity s' => if Bool.eqb s s' then Infinity s else NaN
  | _, _ => NaN
  end.

(** numpy's division: a division by zero gives an infinity, or [nan] for
    [0/0], with a warning. *)
Definition fdiv (x y : float) : float :=
  match x, y with
  | Finite a, Finite b =>
      if Qeq_bool b 0
      then if Qeq_bool a 0 then NaN else Infinity (is_negative a)
      else round64 (a / b)
  | Finite _, Infinity _ => Finite 0
  | Infinity s, Finite b => Infinity (xorb s (is_negative b))
  | _, _ => NaN
  end.

End Float64.

(** ** Data Stream Mining: Distinct Counting (Flajolet-Martin) *)

Module FlajoletMartin.
Import Float64.

Definition h (s : string) (num_digits : nat) (nr : Z) : Z :=
  SHA1.sha1_int (str_mul s nr) mod 10 ^ Z.of_nat num_digits.

(** [int(np.log2(x & -x))]. [x & -x] is [0] or the lowest set bit of [x], a
    power of two: [np.log2] of it is exact below [2^64], [np.log2(0)] is
    [-inf], which [int] refuses with [OverflowError], and numpy has no
    [log2] loop for a Python int of [2^64] or more. *)
Definition get_r (x : Z) : result Z :=
  let y := Z.land x (- x) in
  if y =? 0 then Raise OverflowError
  else if 2 ^ 64 <=? y then Raise TypeError
  else Ok (Z.log2 y).

(** Basic algorithm, one hash function: the body of the loop over the
    lines, [ip] being the stripped line. *)
Definition update_R (ip : string) (R : Z) : outcome Z :=
  match get_r (h ip 8 1) with
  | Ok r => Done (if r >? R then r else R)
  | Raise e => Raised e R
  end.

(** Extended algorithm: the inner loop over the hash functions. *)
Definition update_Rs (ip : string) (num_hashes : nat) (Rs : list Z)
  : outcome (list Z) :=
  for_each (range 0 num_hashes)
    (fun i Rs =>
       match get_r (h ip 8 (i + 1)) with
       | Raise e => Raised e Rs
       | Ok r =>
           match getitem Rs i with
           | Raise e => Raised e Rs
           | Ok cur => if r >? cur then setitem i r Rs else Done Rs
           end
       end)
    Rs.

(** [Rs = np.array([0] * num_hashes)] and the loop over the stream. *)
Definition run (stream : list string) (num_hashes : nat) : outcome (list Z) :=
  for_each stream (fun ip Rs => update_Rs ip num_hashes Rs) (replicate num_hashes 0).

(** *** Estimates *)

Definition wrap_int64 (x : Z) : Z := (x + 2 ^ 63) mod 2 ^ 64 - 2 ^ 63.

(** [np.power(2, Rs)] on an int64 array, element by element. *)
Definition np_power2 (r : Z) : result Z :=
  if r <? 0 then Raise ValueError else Ok (wrap_int64 (2 ^ r)).

Fixpoint traverse {A B : Type} (f : A -> result B) (l : list A) : result (list B) :=
  match l with
  | [] => Ok []
  | a :: l' => let* b := f a in let* bs := traverse f l' in Ok (b :: bs)
  end.

Fixpoint chunks {A : Type} (count size : nat) (l : list A) : list (list A) :=
  match count with
  | O => []
  | S count' => take size l :: chunks count' size (drop size l)
  end.

(** [np.split(ary, sections)] for an integer [sections]. *)
Definition np_split {A : Type} (ary : list A) (sections : nat) : result (list (list A)) :=
  if (sections =? 0)%nat then Raise ZeroDivisionError
  else if (length ary mod sections =? 0)%nat
       then Ok (chunks sections (length ary / sections) ary)
       else Raise ValueError.

(** *** Sums, means and medians in float64 *)

(** The loop [r[j] += a[i + j]] of numpy's pairwise summation, over whole
    blocks of 8 items: 8 partial sums. *)
Fixpoint accumulate8 (blocks : nat) (r a : list float) : list float * list float :=
  match blocks with
  | O => (r, a)
  | S blocks' => accumulate8 blocks' (zip_with fadd r (take 8 a)) (drop 8 a)
  end.

(** The branch of numpy's pairwise summation for 8 to 128 items: the 8
    partial sums are added as a tree, the items after the last whole block
    one after the other. *)
Definition sum_unrolled (a : list float) : float :=
  let '(r, rest) := accumulate8 (length a / 8 - 1) (take 8 a) (drop 8 a) in
  match r with
  | [r0; r1; r2; r3; r4; r5; r6; r7] =>
      fold_left fadd rest
        (fadd (fadd (fadd r0 r1) (fadd r2 r3)) (fadd (fadd r4 r5) (fadd r6 r7)))
  | _ => NaN
  end.

(** numpy's pairwise summation of a float64 array: fewer than 8 items are
    added one after the other, up to 128 items with 8 partial sums, and a
    longer array is cut in two near its middle, at a multiple of 8. The
    recursion is on the length, which [fuel] bounds. *)
Fixpoint pairwise_sum (fuel : nat) (a : list float) : float :=
  let n := length a in
  if (n <? 8)%nat then fold_left fadd a (Finite 0)
  else if (n <=? 128)%nat then sum_unrolled a
  else match fuel with
       | O => NaN
       | S fuel' =>
           let n2 := (n / 2 - (n / 2) mod 8)%nat in
           fadd (pairwise_sum fuel' (take n2 a)) (pairwise_sum fuel' (drop n2 a))
       end.

(** [np.mean(a)] of a float64 array: the pairwise sum, divided by the
    number of items; [nan] for an empty array. *)
Definition np_mean (a : list float) : float :=
  fdiv (pairwise_sum (length a) a) (of_int (Z.of_nat (length a))).

(** [np.median(a)] of an int64 array: [np.partition] puts the middle item,
    or the two middle items, in their sorted place, and the result is
    [np.mean] of them, which casts them to float64. *)
Definition np_median (l : list Z) : float :=
  let s := merge_sort Z.le l in
  let index := (length s / 2)%nat in
  let middle := if Nat.even (length s) then take 2 (drop (index - 1) s)
                else take 1 (drop index s) in
  np_mean (map of_int middle).

(** The cells from [estimates = np.power(2, Rs)] to [final_estimate]. *)
Definition final_estimate (Rs : list Z) (num_groups : nat) (g : rng) : result float :=
  let* estimates := traverse np_power2 Rs in
  let '(estimates, _) := shuffle estimates g in
  let* splits := np_split estimates num_groups in
  let medians := map np_median splits in
  Ok (np_mean medians).

(** Basic algorithm: [R = 0], then the loop over the stream. *)
Definition run_basic (stream : list string) : outcome Z := for_each stream update_R 0.

End FlajoletMartin.

(** ** Data Stream Mining: Sampling *)

Module Sampling.

(** [def h(s, num_buckets)]; Python's [%] takes the sign of the divisor, as
    [Z.modulo] does, and refuses a zero divisor. *)
Definition h (s : string) (num_buckets : Z) : result Z :=
  if num_buckets =? 0 then Raise ZeroDivisionError
  else Ok (SHA1.sha1_int s mod num_buckets).

(** [line.split(sep)] for a separator of one character. *)
Fixpoint split (sep : ascii) (line : string) : list string :=
  match line with
  | EmptyString => [EmptyString]
  | String c rest =>
      if Ascii.eqb c sep then EmptyString :: split sep rest
      else match split sep rest with
           | part :: parts => String c part :: parts
           | [] => [String c EmptyString]
           end
  end.

(** [ip, ts = line.split(',')] *)
Definition unpack2 (parts : list string) : result (string * string) :=
  match parts with
  | [ip; ts] => Ok (ip, ts)
  | _ => Raise ValueError
  end.

(** The keyed sampling loop; the mutable object is the list [SAMPLE]. *)
Definition keyed_sample (lines : list string) (a b : Z) : outcome (list string) :=
  for_each lines
    (fun line SAMPLE =>
       match unpack2 (split "," line) with
       | Raise e => Raised e SAMPLE
       | Ok (ip, ts) =>
           match h ip b with
           | Raise e => Raised e SAMPLE
           | Ok v => if v <? a then Done (SAMPLE ++ [ip]) else Done SAMPLE
           end
       end)
    [].

(** *** Reservoir sampling *)

(** What [handle_new_item] returns: the three messages, by their fields. *)
Inductive message : Type :=
  | Added (item : string)
  | Replaced (pos : Z) (len : nat) (item : string)
  | Discarded (pos : Z) (len : nat) (item : string).

(** [RESERVOIR = ['_']*B] *)
Definition init_RESERVOIR (B : Z) : list string := replicate (Z.to_nat B) "_"%string.

(** [handle_new_item(t, item)], on the globals [B], [RESERVOIR] and the
    random generator. *)
Definition handle_new_item (B : Z) (t : Z) (item : string)
    (st : list string * rng) : result message * (list string * rng) :=
  let '(RESERVOIR, g) := st in
  if t <? B then
    match setitem t item RESERVOIR with
    | Done RESERVOIR' => (Ok (Added item), (RESERVOIR', g))
    | Raised e RESERVOIR' => (Raise e, (RESERVOIR', g))
    end
  else
    match randint 0 t g with
    | (Raise e, g') => (Raise e, (RESERVOIR, g'))
    | (Ok pos, g') =>
        if pos <? Z.of_nat (length RESERVOIR) then
          match setitem pos item RESERVOIR with
          | Done RESERVOIR' =>
              (Ok (Replaced pos (length RESERVOIR) item), (RESERVOIR', g'))
          | Raised e RESERVOIR' => (Raise e, (RESERVOIR', g'))
          end
        else (Ok (Discarded pos (length RESERVOIR) item), (RESERVOIR, g'))
    end.

(** [enumerate(stream)] *)
Definition enumerate {A : Type} (l : list A) : list (Z * A) :=
  zip (range 0 (length l)) l.

(** [RESERVOIR = ['_']*B], then the loop over [enumerate(stream)]. *)
Definition sample (B : Z) (stream : list string) (g : rng)
  : outcome (list string * rng) :=
  for_each (enumerate stream)
    (fun '(t, item) st =>
       match handle_new_item B t item st with
       | (Ok _, st') => Done st'
       | (Raise e, st') => Raised e st'
       end)
    (init_RESERVOIR B, g).

(** *** Sampling with a given probability *)

(** [np.random.rand(1)[0]]: a float [k / 2^53] of [[0, 1)]. Such a float and
    the float [probability] are compared exactly, as rationals are. *)
Definition rand (g : rng) : Q * rng :=
  let '(k, g') := draw_below (2 ^ 53) g in (Qmake k (2 ^ 53), g').

(** The loop of sampling by position; the mutable objects are the list
    [SAMPLE] and the generator. *)
Definition random_sample (lines : list string) (probability : Q) (g : rng)
  : outcome (list string * rng) :=
  for_each lines
    (fun line '(SAMPLE, g) =>
       match unpack2 (split "," line) with
       | Raise e => Raised e (SAMPLE, g)
       | Ok (ip, ts) =>
           let '(x, g') := rand g in
           if Qle_bool x probability then Done (SAMPLE ++ [line], g')
           else Done (SAMPLE, g')
       end)
    ([], g).

(** *** The example stream *)

(** [chr(i)]: a string of one character, kept as its code point. *)
Definition chr (i : Z) : result Z :=
  if (0 <=? i) && (i <? 0x110000) then Ok i else Raise ValueError.

(** [generate_stream(counts)]: [cnt] copies of the letter of each index, then
    [random.shuffle]. *)
Definition generate_stream (counts : list Z) (g : rng) : result (list Z) * rng :=
  match
    for_each (enumerate counts)
      (fun '(idx, cnt) stream =>
         match chr (idx + 65) with
         | Ok letter => Done (stream ++ replicate (Z.to_nat cnt) letter)
         | Raise e => Raised e stream
         end)
      []
  with
  | Done stream => let '(stream, g') := shuffle stream g in (Ok stream, g')
  | Raised e _ => (Raise e, g)
  end.

End Sampling.

(** * Vocabulary of the properties *)

(** ** Bloom filter *)

Module BloomSpec.
Import BloomFilter.

(** Every position of key [s] holds a 1. *)
Definition all_set (B : bitarray) (s : string) (num_digits : nat) (num_hash_functions : Z)
  : Prop :=
  forall nr, 1 <= nr <= num_hash_functions ->
    B !! Z.to_nat (h s num_digits nr) = Some true.

(** [B'] has the length of [B] and a 1 wherever [B] has one. *)
Definition grows (B B' : bitarray) : Prop :=
  length B' = length B /\ forall i, B !! i = Some true -> B' !! i = Some true.

(** The integer a counter slice stands for. *)
Definition decode (counter : bitarray) : Z :=
  fold_left (fun acc bit => 2 * acc + Z.b2z bit) counter 0.

(** The bit positions of the counters of key [s]. *)
Definition in_counter_of (s : string) (num_digits : nat) (num_hash_functions : Z)
    (bits_per_counter : nat) (i : nat) : Prop :=
  exists nr, 1 <= nr <= num_hash_functions /\
    (Z.to_nat (h s num_digits nr) * bits_per_counter <= i
     < Z.to_nat (h s num_digits nr) * bits_per_counter + bits_per_counter)%nat.

(** [B'] has the length of [B] and differs from it at most on the counters of
    key [s]. *)
Definition same_outside (s : string) (num_digits : nat) (num_hash_functions : Z)
    (bits_per_counter : nat) (B B' : bitarray) : Prop :=
  length B' = length B /\
  forall i, ~ in_counter_of s num_digits num_hash_functions bits_per_counter i ->
    B' !! i = B !! i.

(** The value of the counter of bucket [pos]. *)
Definition counter_at (bits_per_counter : nat) (B : bitarray) (pos : nat) : Z :=
  decode (getslice B (pos * bits_per_counter) (pos * bits_per_counter + bits_per_counter)).

(** What [update_key] adds to a counter at each visit. *)
Definition delta (update : string) : Z := if String.eqb update "insert" then 1 else -1.

(** How many of the hash functions [nrs] send key [s] to bucket [p]. *)
Fixpoint hits (s : string) (num_digits : nat) (nrs : list Z) (p : nat) : Z :=
  match nrs with
  | [] => 0
  | nr :: nrs' =>
      (if decide (Z.to_nat (h s num_digits nr) = p) then 1 else 0) + hits s num_digits nrs' p
  end.

(** [B] holds [num_buckets] counters of [bits_per_counter] bits. *)
Definition well_formed (num_buckets bits_per_counter : nat) (B : bitarray) : Prop :=
  length B = (num_buckets * bits_per_counter)%nat.

(** The same key inserted [k] times in a row, as long as no insert raises. *)
Fixpoint insert_times (k : nat) (s : string) (B : bitarray) (num_digits : nat)
    (num_hash_functions : Z) (bits_per_counter : nat) : outcome bitarray :=
  match k with
  | O => Done B
  | S k' =>
      insert_key s B num_digits num_hash_functions bits_per_counter
      >>> (fun B' => insert_times k' s B' num_digits num_hash_functions bits_per_counter)
  end.

(** From the all-zero array of 3-bit counters, seven inserts of [s] succeed
    and the eighth raises the overflow exception. *)
Definition overflow_on_eighth_insert (s : string) (num_digits num_buckets : nat)
    (num_hash_functions : Z) : Prop :=
  exists B7 B8,
    insert_times 7 s (init_counting_B num_buckets 3) num_digits num_hash_functions 3 = Done B7
    /\ insert_key s B7 num_digits num_hash_functions 3 = Raised (Exception msg_overflow) B8.

(** From the all-zero array of 3-bit counters, after one insert of [s] a
    first delete succeeds and a second raises the underflow exception. *)
Definition underflow_on_second_delete (s : string) (num_digits num_buckets : nat)
    (num_hash_functions : Z) : Prop :=
  exists B1 B2 B3,
    insert_key s (init_counting_B num_buckets 3) num_digits num_hash_functions 3 = Done B1
    /\ delete_key s B1 num_digits num_hash_functions 3 = Done B2
    /\ delete_key s B2 num_digits num_hash_functions 3 = Raised (Exception msg_underflow) B3.

End BloomSpec.

(** ** Flajolet-Martin *)

Module FlajoletMartinSpec.
Import Float64 FlajoletMartin.

(** The number of trailing zero bits of a positive number. *)
Fixpoint ctz (p : positive) : Z :=
  match p with
  | xO p' => 1 + ctz p'
  | _ => 0
  end.

(** The trailing-zero count of a non-zero integer; zero has none. *)
Definition trailing_zeros (x : Z) : option Z :=
  match x with
  | Z0 => None
  | Zpos p | Zneg p => Some (ctz p)
  end.

(** Every hash function of the counter gives key [ip] a non-zero value. *)
Definition hashable (num_hashes : nat) (ip : string) : Prop :=
  forall j : nat, (j < num_hashes)%nat -> h ip 8 (Z.of_nat j + 1) <> 0.

(** The trailing-zero count of key [ip] under hash function [j]. *)
Definition r_of (ip : string) (j : nat) : Z :=
  default 0 (trailing_zeros (h ip 8 (Z.of_nat j + 1))).

(** The largest trailing-zero count under hash function [j] over a stream. *)
Definition max_r (stream : list string) (j : nat) : Z :=
  fold_right Z.max 0 (map (fun ip => r_of ip j) stream).

(** What ingesting [ip] does to the trackers. *)
Definition ingest (ip : string) (Rs : list Z) : list Z :=
  imap (fun j cur => Z.max cur (r_of ip j)) Rs.

(** [m] is the median of [l]: the middle of [l] sorted, or the mean of its two
    middle elements when the length is even. *)
Definition is_median (l : list Z) (m : Q) : Prop :=
  exists sorted : list Z,
    Permutation sorted l /\ Sorted Z.le sorted /\
    let n := length l in
    if Nat.even n
    then exists a b, sorted !! (n / 2 - 1)%nat = Some a /\ sorted !! (n / 2)%nat = Some b
                     /\ (m == inject_Z (a + b) / 2)%Q
    else exists a, sorted !! (n / 2)%nat = Some a /\ (m == inject_Z a)%Q.

(** [m] is the arithmetic mean of the non-empty list [l]. *)
Definition is_mean (l : list Q) (m : Q) : Prop :=
  l <> [] /\ (m * inject_Z (Z.of_nat (length l)) == fold_right Qplus 0 l)%Q.

(** A number that float64 holds exactly, zero or positive: [k * 2^e] with at
    most 53 significant bits. *)
Definition representable (x : Q) : Prop :=
  exists k e, (x == inject_Z k * 2 ^ e)%Q /\ 0 <= k <= 2 ^ 53 /\ - 1074 <= e <= 970.

(** The float64 that stands for [x]. *)
Definition exactly (x : Q) : float := Finite (Qred x).

(** The float64 [k * 2^e]. *)
Definition scaled (e k : Z) : float := exactly (inject_Z k * 2 ^ e).

Definition sumZ (l : list Z) : Z := fold_right Z.add 0 l.

(** A value of the Standard Library's specification of IEEE 754 arithmetic,
    as a float64 of this development. *)
Definition of_spec (x : spec_float) : float :=
  match x with
  | S754_zero _ => Finite 0
  | S754_infinity s => Infinity s
  | S754_nan => NaN
  | S754_finite s m e =>
      Finite (Qred (inject_Z (if s then Z.neg m else Z.pos m) * 2 ^ e))
  end.

(** The binary64 of the Standard Library: the integer [z], sums, quotients. *)
Definition b64 (z : Z) : spec_float := binary_normalize 53 1024 z 0 false.
Definition b64_add : spec_float -> spec_float -> spec_float := SFadd 53 1024.
Definition b64_div : spec_float -> spec_float -> spec_float := SFdiv 53 1024.

End FlajoletMartinSpec.

(** ** Sampling *)

Module SamplingSpec.
Import Sampling.

(** The key of a log line: what comes before the comma. *)
Definition key_of (line : string) : string := hd EmptyString (split "," line).

(** A log line [ip,ts]: exactly one comma. *)
Definition well_formed_line (line : string) : Prop :=
  exists ip ts, split "," line = [ip; ts].

(** A generator whose raw words are all zero. *)
Definition zero_rng : rng := {| tape := fun _ => 0; cursor := 0 |}.

(** The state of the reservoir after [k] items of stream [S]: [B] slots,
    the first [min k B] hold items of the stream, the others ['_']. *)
Definition filled (B : nat) (S : list string) (k : nat) (RESERVOIR : list string) : Prop :=
  length RESERVOIR = B
  /\ (forall i, (i < Nat.min k B)%nat ->
        exists item, RESERVOIR !! i = Some item /\ In item S)
  /\ (forall i, (Nat.min k B <= i < B)%nat -> RESERVOIR !! i = Some "_"%string).

End SamplingSpec.

(** ** Further vocabulary: bit contents, lines and streams *)

Module BloomMoreSpec.
Import BloomFilter BloomSpec.

(** Some key of [S] is sent to bit [i] by one of the hash functions. *)
Definition hashed_to (S : list string) (num_digits : nat) (num_hash_functions : Z)
    (i : nat) : Prop :=
  exists s nr, In s S /\ 1 <= nr <= num_hash_functions
               /\ Z.to_nat (h s num_digits nr) = i.

(** Every hashed position of key [s] is an index of [B]. *)
Definition positions_in_range (B : bitarray) (s : string) (num_digits : nat)
    (num_hash_functions : Z) : Prop :=
  forall nr, 1 <= nr <= num_hash_functions -> h s num_digits nr < Z.of_nat (length B).

End BloomMoreSpec.

Module SamplingMoreSpec.
Import Sampling SamplingSpec.

(** The number of occurrences of character [c] in [s]. *)
Fixpoint count_char (c : ascii) (s : string) : nat :=
  match s with
  | EmptyString => 0
  | String c' s' => (if Ascii.eqb c' c then 1 else 0) + count_char c s'
  end.

(** The hash test of the keyed sampling loop on key [ip]. *)
Abbreviation accepted a b := (fun ip : string => SHA1.sha1_int ip mod b < a).

(** The stream of [generate_stream] before it is shuffled: the letters in the
    order of their indexes, [cnt] copies each. *)
Definition letters (counts : list Z) : list Z :=
  concat (imap (fun idx cnt => replicate (Z.to_nat cnt) (Z.of_nat idx + 65)) counts).

(** The driver loop of the reservoir resumed at item number [k], on the
    reservoir and the generator of [st]. *)
Definition resume (B : Z) (k : nat) (items : list string) (st : list string * rng)
  : outcome (list string * rng) :=
  for_each (zip (range (Z.of_nat k) (length items)) items)
    (fun '(t, item) st =>
       match handle_new_item B t item st with
       | (Ok _, st') => Done st'
       | (Raise e, st') => Raised e st'
       end)
    st.

(** The bodies of the keyed and of the positional sampling loops. *)
Abbreviation keyed_body a b :=
  (fun (line : string) (SAMPLE : list string) =>
     match unpack2 (split "," line) with
     | Raise e => Raised e SAMPLE
     | Ok (ip, ts) =>
         match h ip b with
         | Raise e => Raised e SAMPLE
         | Ok v => if v <? a then Done (SAMPLE ++ [ip]) else Done SAMPLE
         end
     end).

Abbreviation random_body probability :=
  (fun (line : string) '((SAMPLE, g) : list string * rng) =>
     match unpack2 (split "," line) with
     | Raise e => Raised e (SAMPLE, g)
     | Ok (ip, ts) =>
         let '(x, g') := rand g in
         if Qle_bool x probability then Done (SAMPLE ++ [line], g')
         else Done (SAMPLE, g')
     end).

End SamplingMoreSpec.

(** * Properties *)

(** ** The hash primitive against the published test vectors *)

Example sha1_abc :
  SHA1.sha1_int "abc" = 0xA9993E364706816ABA3E25717850C26C9CD0D89D.
Proof. vm_compute. reflexivity. Qed.

Example sha1_empty :
  SHA1.sha1_int "" = 0xDA39A3EE5E6B4B0D3255BFEF95601890AFD80709.
Proof. vm_compute. reflexivity. Qed.

Example sha1_two_blocks :
  SHA1.sha1_int "abcdbcdecdefdefgefghfghighijhijkijkljklmklmnlmnomnopnopq"
  = 0x84983E441C3BD26EBAAE4AA1F95129E5E54670F1.
Proof. vm_compute. reflexivity. Qed.

(** ** Loops *)

Section Loops.
Context {A S : Type}.
Implicit Types (xs : list A) (body : A -> S -> outcome S) (s : S).

Lemma for_each_app xs ys body s :
  for_each (xs ++ ys) body s = for_each xs body s >>> for_each ys body.
Proof.
  revert s. induction xs as [|x xs IH]; intros s; simpl; [reflexivity|].
  destruct (body x s); simpl; auto.
Qed.

(** A loop whose body never raises under an invariant runs to its end. *)
Lemma for_each_total (P : S -> Prop) (Q : A -> Prop) xs body s :
  Forall Q xs -> P s ->
  (forall x s, Q x -> P s -> exists s', body x s = Done s' /\ P s') ->
  exists s', for_each xs body s = Done s' /\ P s'.
Proof.
  intros HQ Hs Hbody. revert s Hs.
  induction HQ as [|x xs Hx _ IH]; intros s Hs; simpl; [eauto|].
  destruct (Hbody x s Hx Hs) as (s' & -> & Hs'). simpl. auto.
Qed.

(** A preorder kept by every step, finished or interrupted, relates the
    first state to the last one. *)
Lemma for_each_preorder (R : S -> S -> Prop) (Q : A -> Prop) xs body s :
  (forall s, R s s) -> (forall s1 s2 s3, R s1 s2 -> R s2 s3 -> R s1 s3) ->
  Forall Q xs ->
  (forall x s, Q x -> R s (state_of (body x s))) ->
  R s (state_of (for_each xs body s)).
Proof.
  intros Hrefl Htrans HQ Hbody. revert s.
  induction HQ as [|x xs Hx _ IH]; intros s; simpl; [apply Hrefl|].
  specialize (Hbody x s Hx). destruct (body x s) as [s'|e s']; simpl in *; [|assumption].
  eapply Htrans; [exact Hbody|apply IH].
Qed.

End Loops.

Lemma Forall_range (lo : Z) (n : nat) :
  Forall (fun i => lo <= i < lo + Z.of_nat n) (range lo n).
Proof.
  unfold range. apply List.Forall_forall. intros i Hi.
  apply in_map_iff in Hi as (k & <- & Hk). apply in_seq in Hk. lia.
Qed.

Lemma range_S (lo : Z) (n : nat) :
  range lo (S n) = range lo n ++ [lo + Z.of_nat n].
Proof. unfold range. rewrite seq_S, map_app. reflexivity. Qed.

Lemma range_cons (lo : Z) (n : nat) : range lo (S n) = lo :: range (lo + 1) n.
Proof.
  unfold range. simpl. f_equal; [lia|].
  rewrite <- seq_shift, map_map. apply map_ext. intros i. lia.
Qed.

Lemma norm_index_in_range {A : Type} (l : list A) (i : Z) :
  0 <= i < Z.of_nat (length l) -> norm_index l i = Some (Z.to_nat i).
Proof.
  intros Hi. unfold norm_index.
  destruct (Z.leb_spec 0 i); [|lia]. destruct (Z.ltb_spec i (Z.of_nat (length l))); [|lia].
  reflexivity.
Qed.

Lemma getitem_in_range {A : Type} (l : list A) (i : Z) (a : A) :
  0 <= i -> l !! Z.to_nat i = Some a -> getitem l i = Ok a.
Proof.
  intros Hi Ha. unfold getitem. rewrite norm_index_in_range.
  - rewrite Ha. reflexivity.
  - apply lookup_lt_Some in Ha. lia.
Qed.

Lemma setitem_in_range {A : Type} (l : list A) (i : Z) (v : A) :
  0 <= i < Z.of_nat (length l) -> setitem i v l = Done (<[Z.to_nat i:=v]> l).
Proof. intros Hi. unfold setitem. rewrite norm_index_in_range by assumption. reflexivity. Qed.

(** ** Bloom filter *)

Module BloomFacts.
Import BloomFilter BloomSpec.

Lemma h_range (s : string) (num_digits : nat) (nr : Z) :
  0 <= h s num_digits nr < 10 ^ Z.of_nat num_digits.
Proof. unfold h. apply Z.mod_pos_bound. apply Z.pow_pos_nonneg; lia. Qed.

Lemma grows_refl B : grows B B.
Proof. split; auto. Qed.

Lemma grows_trans B1 B2 B3 : grows B1 B2 -> grows B2 B3 -> grows B1 B3.
Proof. intros [H1 H2] [H3 H4]. split; [congruence|auto]. Qed.

Lemma grows_insert (B : bitarray) (k : nat) : grows B (<[k:=true]> B).
Proof.
  split; [apply length_insert|]. intros i Hi.
  destruct (decide (k = i)) as [->|Hne].
  - rewrite list_lookup_insert_eq; [reflexivity|]. eapply lookup_lt_Some; eauto.
  - rewrite list_lookup_insert_ne; auto.
Qed.

(** With room for every hash value, [add_key] finishes, only sets bits and
    sets the first [n] positions of the key. *)
Lemma add_key_prefix (s : string) (num_digits n : nat) (B : bitarray) :
  10 ^ Z.of_nat num_digits <= Z.of_nat (length B) ->
  exists B',
    for_each (range 1 n) (fun nr B => setitem (h s num_digits nr) true B) B = Done B'
    /\ grows B B' /\ all_set B' s num_digits (Z.of_nat n).
Proof.
  intros Hlen. induction n as [|n (B1 & Hrun & Hg & Hset)].
  - exists B. split; [reflexivity|]. split; [apply grows_refl|]. intros nr Hnr. lia.
  - rewrite range_S, for_each_app, Hrun. simpl.
    pose proof (h_range s num_digits (1 + Z.of_nat n)) as Hh.
    destruct Hg as [HlenB1 HgB1].
    rewrite setitem_in_range by lia. eexists. split; [reflexivity|].
    split.
    + eapply grows_trans; [split; eassumption|apply grows_insert].
    + intros nr Hnr. destruct (decide (nr = 1 + Z.of_nat n)) as [->|Hne].
      * apply list_lookup_insert_eq. lia.
      * apply grows_insert. apply Hset. lia.
Qed.

Lemma add_key_ok (s : string) (B : bitarray) (num_digits : nat) (num_hash_functions : Z) :
  10 ^ Z.of_nat num_digits <= Z.of_nat (length B) ->
  exists B', add_key s B num_digits num_hash_functions = Done B'
             /\ grows B B' /\ all_set B' s num_digits num_hash_functions.
Proof.
  intros Hlen. unfold add_key.
  destruct (add_key_prefix s num_digits (Z.to_nat num_hash_functions) B Hlen)
    as (B' & Hrun & Hg & Hset).
  exists B'. split; [exact Hrun|]. split; [exact Hg|].
  intros nr Hnr. apply Hset. lia.
Qed.

Lemma all_set_grows B B' s num_digits num_hash_functions :
  grows B B' -> all_set B s num_digits num_hash_functions ->
  all_set B' s num_digits num_hash_functions.
Proof. intros [_ Hg] Hset nr Hnr. auto. Qed.

Lemma fill_B_ok (S : list string) (B : bitarray) (num_digits : nat) (num_hash_functions : Z) :
  10 ^ Z.of_nat num_digits <= Z.of_nat (length B) ->
  exists B', fill_B S B num_digits num_hash_functions = Done B'
             /\ grows B B'
             /\ forall s, In s S -> all_set B' s num_digits num_hash_functions.
Proof.
  intros Hlen. unfold fill_B. revert B Hlen.
  induction S as [|s0 S IH]; intros B Hlen; simpl.
  - exists B. split; [reflexivity|]. split; [apply grows_refl|]. intros s [].
  - destruct (add_key_ok s0 B num_digits num_hash_functions Hlen) as (B1 & -> & Hg1 & Hset1).
    simpl. destruct (IH B1) as (B2 & Hrun & Hg2 & Hset2).
    { destruct Hg1 as [-> _]. exact Hlen. }
    exists B2. split; [exact Hrun|]. split; [eapply grows_trans; eauto|].
    intros s [<-|Hs]; [eapply all_set_grows; eauto|auto].
Qed.

(** The counting loop of [check_key] on a key whose positions all hold 1. *)
Lemma check_key_count (s : string) (B : bitarray) (num_digits n : nat) (cnt : Z) :
  all_set B s num_digits (Z.of_nat n) ->
  for_each (range 1 n)
    (fun nr cnt =>
       match getitem B (h s num_digits nr) with
       | Ok bit => Done (cnt + Z.b2z bit)
       | Raise e => Raised e cnt
       end) cnt
  = Done (cnt + Z.of_nat n).
Proof.
  induction n as [|n IH]; intros Hset.
  - simpl. f_equal. lia.
  - rewrite range_S, for_each_app, IH by (intros nr Hnr; apply Hset; lia).
    simpl. rewrite (getitem_in_range _ _ true).
    + simpl. f_equal. lia.
    + apply h_range.
    + apply Hset. lia.
Qed.

Lemma check_key_all_set (s : string) (B : bitarray) (num_digits : nat)
    (num_hash_functions : Z) :
  0 <= num_hash_functions ->
  all_set B s num_digits num_hash_functions ->
  check_key s B num_digits num_hash_functions = Ok true.
Proof.
  intros Hn Hset. unfold check_key. rewrite check_key_count.
  - f_equal. apply Z.eqb_eq. lia.
  - intros nr Hnr. apply Hset. lia.
Qed.

(** C3. No false negatives of the basic Bloom filter: whatever bit array
    [B] with room for the [10^num_digits] hash values one starts from (in
    the notebook [init_B(10**num_digits)]), for every number of hash
    functions and every list of keys in any order, [fill_B] inserts them
    all and [check_key] then returns [True] for each inserted key. *)
Theorem bloom_no_false_negatives (S : list string) (B : bitarray) (num_digits : nat)
    (num_hash_functions : Z) :
  0 <= num_hash_functions ->
  10 ^ Z.of_nat num_digits <= Z.of_nat (length B) ->
  exists B', fill_B S B num_digits num_hash_functions = Done B'
             /\ forall s, In s S -> check_key s B' num_digits num_hash_functions = Ok true.
Proof.
  intros Hn Hlen.
  destruct (fill_B_ok S B num_digits num_hash_functions Hlen) as (B' & Hrun & _ & Hset).
  exists B'. split; [exact Hrun|]. intros s Hs. apply check_key_all_set; auto.
Qed.

(** The notebook's set [S] in a hundred buckets with three hash functions. *)
Lemma bloom_no_false_negatives_witness :
  let S := ["alice@gmail.com"; "bob@yahoo.com"; "chris@comp.nus.edu.sg";
            "dave@outlook.com"; "erin@hotmail.com"]%string in
  exists B', fill_B S (init_B 100) 2 3 = Done B'
             /\ forall s, In s S -> check_key s B' 2 3 = Ok true.
Proof.
  intros S. apply (bloom_no_false_negatives S (init_B 100) 2 3).
  - lia.
  - vm_compute. discriminate.
Defined.

(** *** Counting Bloom filter: bits and counters *)

Lemma ba2int_decode (counter : bitarray) :
  counter <> [] -> ba2int counter = Ok (decode counter).
Proof. destruct counter; [congruence|reflexivity]. Qed.

Lemma bit_length_le (width : nat) (v : Z) :
  (1 <= width)%nat -> 0 <= v < 2 ^ Z.of_nat width -> Nat.max width (bit_length v) = width.
Proof.
  intros Hw Hv. unfold bit_length. destruct (Z.eqb_spec v 0) as [->|Hne]; [lia|].
  assert (Z.log2 v < Z.of_nat width) by (apply Z.log2_lt_pow2; lia).
  pose proof (Z.log2_nonneg v). lia.
Qed.

Lemma length_format_bin (width : nat) (v : Z) :
  (1 <= width)%nat -> 0 <= v < 2 ^ Z.of_nat width -> length (format_bin width v) = width.
Proof.
  intros Hw Hv. unfold format_bin. rewrite bit_length_le by assumption.
  rewrite length_map, length_seq. reflexivity.
Qed.

(** Reading the first [k] of [len] digits of [v] gives [v] without its last
    [len - k] digits. *)
Lemma decode_digits (v : Z) (len k : nat) :
  0 <= v < 2 ^ Z.of_nat len -> (k <= len)%nat ->
  decode (map (fun i => Z.testbit v (Z.of_nat (len - 1 - i))) (seq 0 k))
  = v / 2 ^ Z.of_nat (len - k).
Proof.
  intros Hv. unfold decode. induction k as [|k IH]; intros Hk.
  - simpl. rewrite Nat.sub_0_r. symmetry. apply Z.div_small. exact Hv.
  - rewrite seq_S, map_app, fold_left_app, IH by lia. simpl.
    replace (len - k)%nat with (S (len - 1 - k)) by lia.
    replace (len - S k)%nat with (len - 1 - k)%nat by lia.
    set (m := (len - 1 - k)%nat). rewrite Z.testbit_spec' by lia.
    rewrite Nat2Z.inj_succ, Z.pow_succ_r by lia.
    rewrite (Z.mul_comm 2 (2 ^ Z.of_nat m)), <- Z.div_div
      by (try apply Z.pow_pos_nonneg; lia).
    pose proof (Z.div_mod (v / 2 ^ Z.of_nat m) 2). lia.
Qed.

Lemma decode_format_bin (width : nat) (v : Z) :
  (1 <= width)%nat -> 0 <= v < 2 ^ Z.of_nat width -> decode (format_bin width v) = v.
Proof.
  intros Hw Hv. unfold format_bin. rewrite bit_length_le by assumption.
  rewrite decode_digits by (assumption || lia).
  rewrite Nat.sub_diag. simpl. apply Z.div_1_r.
Qed.

(** [update_counter] by cases on the new value. *)
Lemma update_counter_spec (counter : bitarray) (bits_per_counter : nat) (update : string) :
  counter <> [] ->
  let int_val := if String.eqb update "inc" then decode counter + 1 else decode counter - 1 in
  update_counter counter bits_per_counter update =
    if int_val <? 0 then Raise (Exception msg_underflow)
    else if int_val >=? 2 ^ Z.of_nat bits_per_counter then Raise (Exception msg_overflow)
    else Ok (format_bin bits_per_counter int_val).
Proof.
  intros Hne. unfold update_counter. rewrite ba2int_decode by assumption. reflexivity.
Qed.

(** A counter of [bits_per_counter] bits comes back with as many bits. *)
Lemma update_counter_length (counter counter' : bitarray) (bits_per_counter : nat)
    (update : string) :
  length counter = bits_per_counter ->
  update_counter counter bits_per_counter update = Ok counter' ->
  length counter' = bits_per_counter.
Proof.
  intros Hlen Hup. destruct counter as [|b counter].
  { simpl in Hup. discriminate. }
  rewrite update_counter_spec in Hup by discriminate. cbv zeta in Hup.
  set (v := if String.eqb update "inc" then _ else _) in Hup.
  destruct (Z.ltb_spec v 0); [discriminate|].
  destruct (Z.geb_spec v (2 ^ Z.of_nat bits_per_counter)); [discriminate|].
  injection Hup as <-. apply length_format_bin; [simpl in Hlen; lia|lia].
Qed.

(** *** Slices *)

Section Slices.
Context (bits_per_counter : nat) (B : bitarray).
Implicit Types (pos : nat) (counter : bitarray).

Let lo pos := (pos * bits_per_counter)%nat.
Let hi pos := (pos * bits_per_counter + bits_per_counter)%nat.

Lemma length_getslice pos :
  (hi pos <= length B)%nat -> length (getslice B (lo pos) (hi pos)) = bits_per_counter.
Proof.
  unfold lo, hi, getslice. intros H. rewrite length_take, length_drop. lia.
Qed.

Lemma length_setslice pos counter :
  (hi pos <= length B)%nat -> length counter = bits_per_counter ->
  length (setslice (lo pos) (hi pos) counter B) = length B.
Proof.
  unfold lo, hi, setslice. intros H Hc.
  rewrite !length_app, length_take, length_drop. lia.
Qed.

(** Bits outside the slice are untouched. *)
Lemma lookup_setslice_outside pos counter (i : nat) :
  (hi pos <= length B)%nat -> length counter = bits_per_counter ->
  (i < lo pos \/ hi pos <= i)%nat ->
  setslice (lo pos) (hi pos) counter B !! i = B !! i.
Proof.
  unfold lo, hi, setslice. intros H Hc Hi.
  rewrite Nat.max_r by lia. destruct Hi as [Hi|Hi].
  - rewrite lookup_app_l by (rewrite length_take; lia). apply lookup_take_lt. lia.
  - rewrite lookup_app_r by (rewrite length_take; lia).
    rewrite lookup_app_r by (rewrite length_take; lia).
    rewrite lookup_drop, length_take. f_equal. lia.
Qed.

Lemma getslice_setslice_same pos counter :
  (hi pos <= length B)%nat -> length counter = bits_per_counter ->
  getslice (setslice (lo pos) (hi pos) counter B) (lo pos) (hi pos) = counter.
Proof.
  unfold lo, hi, getslice, setslice. intros H Hc.
  rewrite drop_app_length' by (rewrite length_take; lia).
  replace (pos * bits_per_counter + bits_per_counter - pos * bits_per_counter)%nat
    with (length counter) by lia.
  apply take_app_length.
Qed.

Lemma getslice_setslice_other pos pos' counter :
  (hi pos <= length B)%nat -> length counter = bits_per_counter -> pos <> pos' ->
  getslice (setslice (lo pos) (hi pos) counter B) (lo pos') (hi pos')
  = getslice B (lo pos') (hi pos').
Proof.
  intros H Hc Hne. unfold getslice. apply list_eq. intros i.
  rewrite !lookup_take, !lookup_drop.
  destruct (decide (i < hi pos' - lo pos')%nat) as [Hi|Hi]; [|reflexivity].
  apply lookup_setslice_outside; [assumption..|].
  unfold lo, hi in *. nia.
Qed.

End Slices.

(** *** The frame of an update *)

Lemma slice_in_bounds (s : string) (num_digits num_buckets bits_per_counter : nat)
    (nr : Z) (B : bitarray) :
  10 ^ Z.of_nat num_digits <= Z.of_nat num_buckets ->
  length B = (num_buckets * bits_per_counter)%nat ->
  (Z.to_nat (h s num_digits nr) * bits_per_counter + bits_per_counter <= length B)%nat.
Proof.
  intros Hn Hlen. pose proof (h_range s num_digits nr).
  assert (Z.to_nat (h s num_digits nr) < num_buckets)%nat by lia. nia.
Qed.

Lemma update_pos_frame (s : string) (num_digits num_buckets bits_per_counter : nat)
    (num_hash_functions : Z) (update : string) (nr : Z) (B : bitarray) :
  10 ^ Z.of_nat num_digits <= Z.of_nat num_buckets ->
  length B = (num_buckets * bits_per_counter)%nat ->
  1 <= nr <= num_hash_functions ->
  same_outside s num_digits num_hash_functions bits_per_counter B
    (state_of (update_pos s num_digits bits_per_counter update nr B)).
Proof.
  intros Hn Hlen Hnr. unfold update_pos.
  pose proof (slice_in_bounds s _ _ _ nr B Hn Hlen) as Hb.
  set (pos := Z.to_nat (h s num_digits nr)) in *.
  set (counter := getslice B _ _).
  assert (length counter = bits_per_counter) as Hc by (apply length_getslice; exact Hb).
  set (r := if String.eqb update "insert" then _ else _).
  assert (forall c, r = Ok c -> length c = bits_per_counter) as Hr.
  { intros c. unfold r. destruct (String.eqb update "insert"); apply update_counter_length; exact Hc. }
  destruct r as [c|e]; simpl; [|split; reflexivity].
  specialize (Hr c eq_refl). split.
  - apply length_setslice; assumption.
  - intros i Hi. apply lookup_setslice_outside; [assumption..|].
    destruct (decide (i < pos * bits_per_counter)%nat); [left; assumption|].
    destruct (decide (pos * bits_per_counter + bits_per_counter <= i)%nat); [right; assumption|].
    exfalso. apply Hi. exists nr. fold pos. split; [exact Hnr|lia].
Qed.

Lemma update_key_frame (s : string) (B : bitarray) (num_digits num_buckets : nat)
    (num_hash_functions : Z) (bits_per_counter : nat) (update : string) :
  10 ^ Z.of_nat num_digits <= Z.of_nat num_buckets ->
  length B = (num_buckets * bits_per_counter)%nat ->
  same_outside s num_digits num_hash_functions bits_per_counter B
    (state_of (update_key s B num_digits num_hash_functions bits_per_counter update)).
Proof.
  intros Hn Hlen. unfold update_key.
  apply (for_each_preorder
           (fun B B' => length B = (num_buckets * bits_per_counter)%nat ->
                        same_outside s num_digits num_hash_functions bits_per_counter B B')
           (fun nr => 1 <= nr <= num_hash_functions)); [| | | |exact Hlen].
  - intros B0 _. split; reflexivity.
  - intros B1 B2 B3 H12 H23 H1. destruct (H12 H1) as [Hl12 Hf12].
    destruct (H23 ltac:(congruence)) as [Hl23 Hf23].
    split; [congruence|]. intros i Hi. rewrite Hf23, Hf12; auto.
  - eapply Forall_impl; [apply Forall_range|]. simpl. intros nr Hnr. lia.
  - intros nr B0 Hnr HB0. eapply update_pos_frame; eassumption.
Qed.

(** C10. Frame of the counting filter: on an array of [num_buckets] counters
    of [bits_per_counter] bits, with a bucket for each of the
    [10^num_digits] hash values, a successful [insert_key] or [delete_key]
    keeps the length [num_buckets * bits_per_counter] and changes no bit
    outside the [bits_per_counter]-bit slices of the key's hashed positions;
    and [update_counter] turns a counter of [bits_per_counter] bits into one
    of exactly [bits_per_counter] bits. *)
Theorem counting_update_frame (s : string) (B B' : bitarray)
    (num_digits num_buckets : nat) (num_hash_functions : Z) (bits_per_counter : nat) :
  10 ^ Z.of_nat num_digits <= Z.of_nat num_buckets ->
  length B = (num_buckets * bits_per_counter)%nat ->
  insert_key s B num_digits num_hash_functions bits_per_counter = Done B' \/
  delete_key s B num_digits num_hash_functions bits_per_counter = Done B' ->
  length B' = (num_buckets * bits_per_counter)%nat
  /\ (forall i : nat,
        (forall nr, 1 <= nr <= num_hash_functions ->
           ~ (Z.to_nat (h s num_digits nr) * bits_per_counter <= i
              < Z.to_nat (h s num_digits nr) * bits_per_counter + bits_per_counter)%nat) ->
        B' !! i = B !! i)
  /\ (forall (counter counter' : bitarray) (update : string),
        length counter = bits_per_counter ->
        update_counter counter bits_per_counter update = Ok counter' ->
        length counter' = bits_per_counter).
Proof.
  intros Hn Hlen Hrun.
  assert (same_outside s num_digits num_hash_functions bits_per_counter B B') as [HlenB' Hframe].
  { destruct Hrun as [Hrun|Hrun]; unfold insert_key, delete_key in Hrun;
      [pose proof (update_key_frame s B num_digits num_buckets num_hash_functions
                     bits_per_counter "insert" Hn Hlen) as H
      |pose proof (update_key_frame s B num_digits num_buckets num_hash_functions
                     bits_per_counter "delete" Hn Hlen) as H];
      rewrite Hrun in H; exact H. }
  split; [congruence|]. split.
  - intros i Hi. apply Hframe. intros (nr & Hnr & Hin). exact (Hi nr Hnr Hin).
  - intros counter counter' update. apply update_counter_length.
Qed.

(** The notebook's test: ["Hello World"] into ten 3-bit counters. *)
Lemma counting_update_frame_witness :
  let B := init_counting_B 10 3 in
  let B' := state_of (insert_key "Hello World" B 1 3 3) in
  length B' = 30%nat /\ B' !! 0%nat = B !! 0%nat.
Proof.
  intros B B'.
  destruct (counting_update_frame "Hello World" B B' 1 10 3 3) as (Hlen & Hframe & _).
  - simpl. lia.
  - reflexivity.
  - left. vm_compute. reflexivity.
  - split; [exact Hlen|]. apply Hframe. intros nr Hnr.
    assert (nr = 1 \/ nr = 2 \/ nr = 3) as [-> | [-> | ->]] by lia; vm_compute; lia.
Defined.

(** *** Counters *)

Lemma decode_snoc (l : bitarray) (b : bool) : decode (l ++ [b]) = 2 * decode l + Z.b2z b.
Proof. unfold decode. rewrite fold_left_app. reflexivity. Qed.

Lemma decode_bound (l : bitarray) : 0 <= decode l < 2 ^ Z.of_nat (length l).
Proof.
  induction l as [|b l IH] using rev_ind; [unfold decode; simpl; lia|].
  rewrite decode_snoc, length_app. simpl length.
  replace (Z.of_nat (length l + 1)) with (Z.succ (Z.of_nat (length l))) by lia.
  rewrite Z.pow_succ_r by lia. destruct b; simpl Z.b2z; lia.
Qed.

Lemma decode_zeros (n : nat) : decode (replicate n false) = 0.
Proof.
  unfold decode. induction n as [|n IH]; [reflexivity|]. simpl. exact IH.
Qed.

Lemma hits_nonneg (s : string) (num_digits : nat) (nrs : list Z) (p : nat) :
  0 <= hits s num_digits nrs p.
Proof. induction nrs as [|nr nrs IH]; simpl; [lia|]. destruct (decide _); lia. Qed.

Lemma counter_at_init (num_buckets bits_per_counter pos : nat) :
  counter_at bits_per_counter (init_counting_B num_buckets bits_per_counter) pos = 0.
Proof.
  unfold counter_at, init_counting_B, getslice.
  rewrite drop_replicate, take_replicate. apply decode_zeros.
Qed.

Lemma pos_lt (s : string) (num_digits num_buckets : nat) (nr : Z) :
  10 ^ Z.of_nat num_digits <= Z.of_nat num_buckets ->
  (Z.to_nat (h s num_digits nr) < num_buckets)%nat.
Proof. intros Hn. pose proof (h_range s num_digits nr). lia. Qed.

Lemma counter_at_bound (num_buckets bits_per_counter : nat) (B : bitarray) (p : nat) :
  well_formed num_buckets bits_per_counter B -> (p < num_buckets)%nat ->
  0 <= counter_at bits_per_counter B p < 2 ^ Z.of_nat bits_per_counter.
Proof.
  intros Hwf Hp. unfold counter_at.
  pose proof (decode_bound (getslice B (p * bits_per_counter)
                              (p * bits_per_counter + bits_per_counter))) as Hd.
  rewrite length_getslice in Hd; [exact Hd|]. unfold well_formed in Hwf. nia.
Qed.

Section CountingLoop.
Context (s : string) (num_digits num_buckets bits_per_counter : nat) (update : string).
Hypothesis Hbuckets : 10 ^ Z.of_nat num_digits <= Z.of_nat num_buckets.
Hypothesis Hbits : (1 <= bits_per_counter)%nat.

Abbreviation well_formed' := (well_formed num_buckets bits_per_counter).
Abbreviation pos nr := (Z.to_nat (h s num_digits nr)).

(** One turn of the loop, by cases on the new value of the counter. *)
Lemma update_pos_spec (nr : Z) (B : bitarray) :
  well_formed' B ->
  update_pos s num_digits bits_per_counter update nr B =
    let v := counter_at bits_per_counter B (pos nr) + delta update in
    if v <? 0 then Raised (Exception msg_underflow) B
    else if v >=? 2 ^ Z.of_nat bits_per_counter then Raised (Exception msg_overflow) B
    else Done (setslice (pos nr * bits_per_counter)
                 (pos nr * bits_per_counter + bits_per_counter)
                 (format_bin bits_per_counter v) B).
Proof.
  intros Hwf. unfold update_pos, counter_at, delta. 
  set (counter := getslice B _ _).
  assert (counter <> []) as Hne.
  { intros Heq. assert (length counter = bits_per_counter) as Hlen.
    { apply length_getslice. pose proof (pos_lt s num_digits num_buckets nr Hbuckets). unfold well_formed in Hwf. nia. }
    rewrite Heq in Hlen. simpl in Hlen. lia. }
  destruct (String.eqb update "insert"); rewrite update_counter_spec by exact Hne;
    cbv zeta; simpl String.eqb; cbv iota;
    destruct (_ <? 0); [reflexivity| |reflexivity|];
    destruct (_ >=? _); reflexivity.
Qed.

Lemma well_formed_setslice (B counter : bitarray) (p : nat) :
  well_formed' B -> (p < num_buckets)%nat -> length counter = bits_per_counter ->
  well_formed' (setslice (p * bits_per_counter) (p * bits_per_counter + bits_per_counter)
                 counter B).
Proof.
  unfold well_formed. intros Hwf Hp Hc. rewrite length_setslice; [exact Hwf| |exact Hc]. nia.
Qed.

Lemma counter_at_setslice (B : bitarray) (p q : nat) (v : Z) :
  well_formed' B -> (p < num_buckets)%nat -> 0 <= v < 2 ^ Z.of_nat bits_per_counter ->
  counter_at bits_per_counter
    (setslice (p * bits_per_counter) (p * bits_per_counter + bits_per_counter)
       (format_bin bits_per_counter v) B) q
  = if decide (p = q) then v else counter_at bits_per_counter B q.
Proof.
  unfold well_formed. intros Hwf Hp Hv. unfold counter_at.
  assert (p * bits_per_counter + bits_per_counter <= length B)%nat by nia.
  destruct (decide (p = q)) as [<-|Hne].
  - rewrite getslice_setslice_same by (assumption || (apply length_format_bin; assumption)).
    apply decode_format_bin; assumption.
  - rewrite getslice_setslice_other
      by (assumption || (apply length_format_bin; assumption)).
    reflexivity.
Qed.

(** The loop finishes when no counter leaves its range on the way, and then
    every counter has moved by [delta] times its number of visits. *)
Lemma update_loop_total (nrs : list Z) (B : bitarray) :
  well_formed' B ->
  (forall p, (p < num_buckets)%nat ->
     0 <= counter_at bits_per_counter B p + delta update * hits s num_digits nrs p
     < 2 ^ Z.of_nat bits_per_counter) ->
  exists B',
    for_each nrs (update_pos s num_digits bits_per_counter update) B = Done B'
    /\ well_formed' B'
    /\ forall p, (p < num_buckets)%nat ->
         counter_at bits_per_counter B' p
         = counter_at bits_per_counter B p + delta update * hits s num_digits nrs p.
Proof.
  revert B. induction nrs as [|nr nrs IH]; intros B Hwf Hrange.
  - exists B. split; [reflexivity|]. split; [exact Hwf|]. intros p Hp. simpl. lia.
  - simpl for_each. rewrite update_pos_spec by exact Hwf. cbv zeta.
    pose proof (pos_lt s num_digits num_buckets nr Hbuckets) as Hpos.
    pose proof (counter_at_bound _ _ B (pos nr) Hwf Hpos) as Hc.
    pose proof (Hrange (pos nr) Hpos) as Hr. simpl hits in Hr. 
    destruct (decide (pos nr = pos nr)) as [_|]; [|congruence].
    pose proof (hits_nonneg s num_digits nrs (pos nr)) as Hh.
    assert (delta update = 1 \/ delta update = -1) as Hd
      by (unfold delta; destruct (String.eqb update "insert"); auto).
    set (v := counter_at bits_per_counter B (pos nr) + delta update) in *.
    assert (0 <= v < 2 ^ Z.of_nat bits_per_counter) as Hv by (unfold v; nia).
    destruct (Z.ltb_spec v 0); [lia|]. destruct (Z.geb_spec v (2 ^ Z.of_nat bits_per_counter)); [lia|].
    simpl bind_outcome.
    destruct (IH (setslice (pos nr * bits_per_counter)
                    (pos nr * bits_per_counter + bits_per_counter)
                    (format_bin bits_per_counter v) B)) as (B' & Hrun & Hwf' & Hcnt).
    + apply well_formed_setslice; [assumption..|]. apply length_format_bin; assumption.
    + intros p Hp. rewrite counter_at_setslice by assumption.
      specialize (Hrange p Hp). simpl hits in Hrange. 
      destruct (decide (pos nr = p)) as [<-|Hne]; unfold v; lia.
    + exists B'. split; [exact Hrun|]. split; [exact Hwf'|].
      intros p Hp. rewrite (Hcnt p Hp), counter_at_setslice by assumption.
      simpl hits.  destruct (decide (pos nr = p)) as [<-|Hne]; unfold v; lia.
Qed.

(** A loop that finished has moved every counter by [delta] times its number
    of visits. *)
Lemma update_loop_done (nrs : list Z) (B B' : bitarray) :
  well_formed' B ->
  for_each nrs (update_pos s num_digits bits_per_counter update) B = Done B' ->
  well_formed' B'
  /\ forall p, (p < num_buckets)%nat ->
       counter_at bits_per_counter B' p
       = counter_at bits_per_counter B p + delta update * hits s num_digits nrs p.
Proof.
  revert B. induction nrs as [|nr nrs IH]; intros B Hwf Hrun.
  - simpl in Hrun. injection Hrun as <-. split; [exact Hwf|]. intros p Hp. simpl. lia.
  - simpl for_each in Hrun. rewrite update_pos_spec in Hrun by exact Hwf. cbv zeta in Hrun.
    pose proof (pos_lt s num_digits num_buckets nr Hbuckets) as Hpos.
    set (v := counter_at bits_per_counter B (pos nr) + delta update) in *.
    destruct (Z.ltb_spec v 0); [discriminate|].
    destruct (Z.geb_spec v (2 ^ Z.of_nat bits_per_counter)); [discriminate|].
    simpl bind_outcome in Hrun.
    assert (0 <= v < 2 ^ Z.of_nat bits_per_counter) as Hv by lia.
    apply IH in Hrun as [Hwf' Hcnt].
    + split; [exact Hwf'|]. intros p Hp.
      rewrite (Hcnt p Hp), counter_at_setslice by assumption.
      simpl hits.  destruct (decide (pos nr = p)) as [<-|Hne]; unfold v; lia.
    + apply well_formed_setslice; [assumption..|]. apply length_format_bin; assumption.
Qed.

(** A first turn that leaves the range raises at once and writes nothing. *)
Lemma update_loop_first_raises (nr : Z) (nrs : list Z) (B : bitarray) :
  well_formed' B ->
  let v := counter_at bits_per_counter B (pos nr) + delta update in
  ~ (0 <= v < 2 ^ Z.of_nat bits_per_counter) ->
  for_each (nr :: nrs) (update_pos s num_digits bits_per_counter update) B
  = Raised (Exception (if v <? 0 then msg_underflow else msg_overflow)) B.
Proof.
  intros Hwf v Hv. simpl for_each. rewrite update_pos_spec by exact Hwf. cbv zeta.
  fold v. destruct (Z.ltb_spec v 0); [reflexivity|].
  destruct (Z.geb_spec v (2 ^ Z.of_nat bits_per_counter)); [reflexivity|lia].
Qed.

End CountingLoop.

(** *** Overflow and underflow *)

Lemma hits_none (s : string) (num_digits : nat) (nrs : list Z) (p : nat) :
  (forall nr, In nr nrs -> Z.to_nat (h s num_digits nr) <> p) ->
  hits s num_digits nrs p = 0.
Proof.
  induction nrs as [|nr nrs IH]; intros Hp; simpl; [reflexivity|].
  destruct (decide _) as [Heq|_].
  - exfalso. exact (Hp nr (or_introl eq_refl) Heq).
  - rewrite IH; [reflexivity|]. intros nr' Hin. apply Hp. right. exact Hin.
Qed.

Lemma hits_NoDup (s : string) (num_digits : nat) (nrs : list Z) (p : nat) :
  List.NoDup (map (h s num_digits) nrs) -> hits s num_digits nrs p <= 1.
Proof.
  induction nrs as [|nr nrs IH]; intros Hnd; simpl; [lia|].
  inversion Hnd as [|x l Hnotin Hnd']; subst.
  destruct (decide _) as [Heq|_]; [|specialize (IH Hnd'); lia].
  rewrite hits_none; [lia|]. intros nr' Hin Heq'. apply Hnotin.
  apply in_map_iff. exists nr'. split; [|exact Hin].
  pose proof (h_range s num_digits nr). pose proof (h_range s num_digits nr'). lia.
Qed.

Lemma well_formed_init (num_buckets bits_per_counter : nat) :
  well_formed num_buckets bits_per_counter (init_counting_B num_buckets bits_per_counter).
Proof. unfold well_formed, init_counting_B. apply length_replicate. Qed.

Section Saturation.
Context (s : string) (num_digits num_buckets : nat) (num_hash_functions : Z).
Hypothesis Hbuckets : 10 ^ Z.of_nat num_digits <= Z.of_nat num_buckets.
Hypothesis Hfunctions : 1 <= num_hash_functions.

Let nrs : list Z := range 1 (Z.to_nat num_hash_functions).

Lemma nrs_cons : nrs = 1 :: range 2 (Z.to_nat num_hash_functions - 1).
Proof.
  unfold nrs. replace (Z.to_nat num_hash_functions)
    with (S (Z.to_nat num_hash_functions - 1)) at 1 by lia.
  apply range_cons.
Qed.

Lemma hits_first : 1 <= hits s num_digits nrs (Z.to_nat (h s num_digits 1)).
Proof.
  rewrite nrs_cons. simpl. destruct (decide _); [|congruence].
  pose proof (hits_nonneg s num_digits (range 2 (Z.to_nat num_hash_functions - 1))
                (Z.to_nat (h s num_digits 1))). lia.
Qed.

(** With pairwise distinct positions, [k] inserts move every counter of the
    key from [c] to [c + k] as long as that stays within 3 bits. *)
Lemma insert_times_counts (k : nat) (c : Z) (B : bitarray) :
  List.NoDup (map (h s num_digits) nrs) ->
  well_formed num_buckets 3 B ->
  (forall p, (p < num_buckets)%nat -> counter_at 3 B p = c * hits s num_digits nrs p) ->
  0 <= c -> c + Z.of_nat k <= 7 ->
  exists B',
    insert_times k s B num_digits num_hash_functions 3 = Done B'
    /\ well_formed num_buckets 3 B'
    /\ forall p, (p < num_buckets)%nat ->
         counter_at 3 B' p = (c + Z.of_nat k) * hits s num_digits nrs p.
Proof.
  intros Hnd. revert c B. induction k as [|k IH]; intros c B Hwf Hcnt Hc Hck.
  - exists B. split; [reflexivity|]. split; [exact Hwf|].
    intros p Hp. rewrite (Hcnt p Hp). f_equal. lia.
  - simpl insert_times. unfold insert_key, update_key. fold nrs.
    destruct (update_loop_total s num_digits num_buckets 3 "insert" Hbuckets
                ltac:(lia) nrs B Hwf) as (B1 & -> & Hwf1 & Hcnt1).
    { intros p Hp. rewrite (Hcnt p Hp). change (delta "insert") with 1.
      pose proof (hits_NoDup s num_digits nrs p Hnd).
      pose proof (hits_nonneg s num_digits nrs p). change (2 ^ Z.of_nat 3) with 8. nia. }
    simpl bind_outcome.
    destruct (IH (c + 1) B1 Hwf1) as (B' & Hrun & Hwf' & Hcnt'); [|lia|lia|].
    { intros p Hp. rewrite (Hcnt1 p Hp), (Hcnt p Hp). change (delta "insert") with 1. lia. }
    exists B'. split; [exact Hrun|]. split; [exact Hwf'|].
    intros p Hp. rewrite (Hcnt' p Hp). f_equal. lia.
Qed.

Lemma overflow_when_distinct :
  List.NoDup (map (h s num_digits) nrs) ->
  overflow_on_eighth_insert s num_digits num_buckets num_hash_functions.
Proof.
  intros Hnd.
  destruct (insert_times_counts 7 0 (init_counting_B num_buckets 3) Hnd)
    as (B7 & Hrun & Hwf & Hcnt); [apply well_formed_init| |lia|lia|].
  { intros p Hp. rewrite counter_at_init. lia. }
  exists B7, B7. split; [exact Hrun|].
  unfold insert_key, update_key. fold nrs. rewrite nrs_cons.
  rewrite (update_loop_first_raises s num_digits num_buckets 3 "insert" Hbuckets
             ltac:(lia) 1 _ B7 Hwf).
  - destruct (Z.ltb_spec (counter_at 3 B7 (Z.to_nat (h s num_digits 1)) + delta "insert") 0)
      as [Hneg|_]; [|reflexivity].
    exfalso. pose proof (pos_lt s num_digits num_buckets 1 Hbuckets) as Hp.
    pose proof (counter_at_bound num_buckets 3 B7 _ Hwf Hp).
    change (delta "insert") with 1 in Hneg. lia.
  - pose proof (pos_lt s num_digits num_buckets 1 Hbuckets) as Hp.
    rewrite (Hcnt _ Hp). change (delta "insert") with 1. change (2 ^ Z.of_nat 3) with 8.
    pose proof hits_first. pose proof (hits_NoDup s num_digits nrs
                                         (Z.to_nat (h s num_digits 1)) Hnd). lia.
Qed.

Lemma underflow_after_insert (B1 : bitarray) :
  insert_key s (init_counting_B num_buckets 3) num_digits num_hash_functions 3 = Done B1 ->
  underflow_on_second_delete s num_digits num_buckets num_hash_functions.
Proof.
  intros Hins. exists B1.
  pose proof (well_formed_init num_buckets 3) as Hwf0.
  pose proof Hins as Hloop. unfold insert_key, update_key in Hloop. fold nrs in Hloop.
  destruct (update_loop_done s num_digits num_buckets 3 "insert" Hbuckets ltac:(lia)
              nrs _ B1 Hwf0 Hloop) as [Hwf1 Hcnt1].
  destruct (update_loop_total s num_digits num_buckets 3 "delete" Hbuckets ltac:(lia)
              nrs B1 Hwf1) as (B2 & Hdel & Hwf2 & Hcnt2).
  { intros p Hp. rewrite (Hcnt1 p Hp), counter_at_init.
    change (delta "insert") with 1. change (delta "delete") with (-1).
    change (2 ^ Z.of_nat 3) with 8. lia. }
  exists B2, B2. split; [exact Hins|]. split.
  - unfold delete_key, update_key. fold nrs. exact Hdel.
  - unfold delete_key, update_key. fold nrs. rewrite nrs_cons.
    pose proof (pos_lt s num_digits num_buckets 1 Hbuckets) as Hp.
    assert (counter_at 3 B2 (Z.to_nat (h s num_digits 1)) = 0) as Hzero.
    { rewrite (Hcnt2 _ Hp), (Hcnt1 _ Hp), counter_at_init.
      change (delta "insert") with 1. change (delta "delete") with (-1). lia. }
    rewrite (update_loop_first_raises s num_digits num_buckets 3 "delete" Hbuckets
               ltac:(lia) 1 _ B2 Hwf2); rewrite Hzero; [reflexivity|].
    change (delta "delete") with (-1). lia.
Qed.

End Saturation.

(** C5 (amended). From the all-zero array of 3-bit counters, with a bucket
    for each hash value and at least one hash function: for a key whose
    hashed positions are pairwise distinct, the first seven inserts succeed
    and the eighth raises the overflow exception; and for every key whose
    first insert succeeds, the first delete succeeds and the second raises
    the underflow exception. *)
Theorem counting_overflow_underflow (s : string) (num_digits num_buckets : nat)
    (num_hash_functions : Z) :
  10 ^ Z.of_nat num_digits <= Z.of_nat num_buckets ->
  1 <= num_hash_functions ->
  (List.NoDup (map (h s num_digits) (range 1 (Z.to_nat num_hash_functions))) ->
   overflow_on_eighth_insert s num_digits num_buckets num_hash_functions)
  /\ ((exists B1, insert_key s (init_counting_B num_buckets 3) num_digits
                    num_hash_functions 3 = Done B1) ->
      underflow_on_second_delete s num_digits num_buckets num_hash_functions).
Proof.
  intros Hn Hf. split.
  - apply overflow_when_distinct; assumption.
  - intros [B1 Hins]. eapply underflow_after_insert; eassumption.
Qed.

(** The notebook's two tests, on ["Hello World"] hashed to 2, 6 and 9. *)
Lemma counting_overflow_underflow_witness :
  overflow_on_eighth_insert "Hello World" 1 10 3
  /\ underflow_on_second_delete "Hello World" 1 10 3.
Proof.
  destruct (counting_overflow_underflow "Hello World" 1 10 3) as [Hover Hunder].
  - simpl. lia.
  - lia.
  - split.
    + apply Hover. vm_compute. repeat constructor; simpl; intuition discriminate.
    + apply Hunder. eexists. vm_compute. reflexivity.
Defined.

(** C5, as stated, fails on a key of the notebook's own set [S]:
    ["chris@comp.nus.edu.sg"] is hashed to 6, 6 and 9, bucket 6 is counted
    twice per insert and the fourth insert already raises. *)
Lemma overflow_on_fourth_insert_of_colliding_key :
  ~ overflow_on_eighth_insert "chris@comp.nus.edu.sg" 1 10 3
  /\ exists B3 B4,
       insert_times 3 "chris@comp.nus.edu.sg" (init_counting_B 10 3) 1 3 3 = Done B3
       /\ insert_key "chris@comp.nus.edu.sg" B3 1 3 3 = Raised (Exception msg_overflow) B4.
Proof.
  split.
  - intros (B7 & B8 & Hrun & _). vm_compute in Hrun. discriminate.
  - eexists. eexists. split; vm_compute; reflexivity.
Qed.

(** C1. [update_key] is not atomic. With ten 3-bit counters and three hash
    functions, ["chris@comp.nus.edu.sg"] is hashed to buckets 6, 6 and 9 and
    ["alice@gmail.com"] to 6, 3 and 2.
    - After three inserts of the first key its fourth insert raises the
      overflow exception at the second hash function, and leaves bucket 6
      at 7 instead of 6.
    - After one insert of the second key, deleting the first key raises the
      underflow exception at the second hash function, and leaves bucket 6
      at 0 instead of 1: the second key is no longer found. *)
Theorem update_key_leaves_partial_update :
  let B0 := init_counting_B 10 3 in
  (exists B3 B4,
     insert_times 3 "chris@comp.nus.edu.sg" B0 1 3 3 = Done B3
     /\ insert_key "chris@comp.nus.edu.sg" B3 1 3 3 = Raised (Exception msg_overflow) B4
     /\ counter_at 3 B3 6 = 6 /\ counter_at 3 B4 6 = 7 /\ B4 <> B3)
  /\ (exists B1 B2,
        insert_key "alice@gmail.com" B0 1 3 3 = Done B1
        /\ delete_key "chris@comp.nus.edu.sg" B1 1 3 3 = Raised (Exception msg_underflow) B2
        /\ counter_at 3 B1 6 = 1 /\ counter_at 3 B2 6 = 0 /\ B2 <> B1
        /\ check_key_counting 3 "alice@gmail.com" B1 1 3 = Ok true
        /\ check_key_counting 3 "alice@gmail.com" B2 1 3 = Ok false).
Proof.
  split.
  - eexists. eexists. split; [vm_compute; reflexivity|].
    split; [vm_compute; reflexivity|].
    split; [vm_compute; reflexivity|].
    split; [vm_compute; reflexivity|]. vm_compute. discriminate.
  - eexists. eexists. split; [vm_compute; reflexivity|].
    split; [vm_compute; reflexivity|].
    split; [vm_compute; reflexivity|].
    split; [vm_compute; reflexivity|].
    split; [vm_compute; discriminate|].
    split; vm_compute; reflexivity.
Qed.

End BloomFacts.

(** ** float64 *)

Module Float64Facts.
Import Float64 FlajoletMartinSpec.

Lemma two_nonzero : ~ (2 == 0)%Q.
Proof. discriminate. Qed.

Lemma pow2_pos (k : Z) : (0 < 2 ^ k)%Q.
Proof. apply Qpower_0_lt. reflexivity. Qed.

Lemma pow2_add (a b : Z) : (2 ^ (a + b) == 2 ^ a * 2 ^ b)%Q.
Proof. apply Qpower_plus, two_nonzero. Qed.

Lemma pow2_sub (a b : Z) : (2 ^ (a - b) == 2 ^ a / 2 ^ b)%Q.
Proof. apply Qpower_minus, two_nonzero. Qed.

Lemma pow2_le (a b : Z) : a <= b -> (2 ^ a <= 2 ^ b)%Q.
Proof. intros H. apply Qpower_le_compat_l; [exact H|discriminate]. Qed.

Lemma pow2_lt (a b : Z) : a < b -> (2 ^ a < 2 ^ b)%Q.
Proof. intros H. apply Qpower_lt_compat_l; [exact H|reflexivity]. Qed.

Lemma pow2_lt_inv (a b : Z) : (2 ^ a < 2 ^ b)%Q -> a < b.
Proof. intros H. apply (Qpower_lt_compat_l_inv 2); [exact H|reflexivity]. Qed.

Lemma pow2_le_inv (a b : Z) : (2 ^ a <= 2 ^ b)%Q -> a <= b.
Proof. intros H. apply (Qpower_le_compat_l_inv 2); [exact H|reflexivity]. Qed.

Lemma pow2_Z (n : Z) : 0 <= n -> (inject_Z (2 ^ n) == 2 ^ n)%Q.
Proof. intros H. apply (Zpower_Qpower 2 n H). Qed.

Lemma ilog2_spec (x : Q) :
  (0 < x)%Q -> (2 ^ ilog2 x <= x)%Q /\ (x < 2 ^ (ilog2 x + 1))%Q.
Proof.
  intros Hx. destruct x as [n d].
  assert (0 < n) as Hn by (unfold Qlt in Hx; simpl in Hx; lia).
  set (a := Z.log2 n). set (b := Z.log2 (Z.pos d)).
  destruct (Z.log2_spec n Hn) as [Ha1 Ha2]. fold a in Ha1, Ha2.
  destruct (Z.log2_spec (Z.pos d) ltac:(lia)) as [Hb1 Hb2]. fold b in Hb1, Hb2.
  assert (0 <= a) as Ha0 by apply Z.log2_nonneg.
  assert (0 <= b) as Hb0 by apply Z.log2_nonneg.
  assert (0 < inject_Z (Z.pos d))%Q as Hd by (unfold Qlt; simpl; lia).
  assert (n # d == inject_Z n / inject_Z (Z.pos d))%Q as Hdiv by apply Qmake_Qdiv.
  assert (2 ^ (a - b - 1) <= n # d)%Q as Hlow.
  { rewrite Hdiv. apply Qle_shift_div_l; [exact Hd|].
    apply Qle_trans with (2 ^ (a - b - 1) * 2 ^ (b + 1))%Q.
    - apply Qmult_le_l; [apply pow2_pos|].
      rewrite <- pow2_Z by lia. rewrite <- Zle_Qle. lia.
    - rewrite <- pow2_add. replace (a - b - 1 + (b + 1)) with a by lia.
      rewrite <- pow2_Z by lia. rewrite <- Zle_Qle. exact Ha1. }
  assert (n # d < 2 ^ (a - b + 1))%Q as Hhigh.
  { rewrite Hdiv. apply Qlt_shift_div_r; [exact Hd|].
    apply Qlt_le_trans with (2 ^ (a - b + 1) * 2 ^ b)%Q.
    - rewrite <- pow2_add. replace (a - b + 1 + b) with (a + 1) by lia.
      rewrite <- pow2_Z by lia. rewrite <- Zlt_Qlt.
      replace (a + 1) with (Z.succ a) by lia. exact Ha2.
    - apply Qmult_le_l; [apply pow2_pos|].
      rewrite <- pow2_Z by lia. rewrite <- Zle_Qle. exact Hb1. }
  unfold ilog2. cbn [Qnum Qden]. fold a b.
  destruct (Qle_bool (2 ^ (a - b)) (n # d)) eqn:Hk.
  - apply Qle_bool_iff in Hk. split; [exact Hk|exact Hhigh].
  - split; [exact Hlow|].
    replace (a - b - 1 + 1) with (a - b) by lia.
    apply Qnot_le_lt. intros Hle. apply Qle_bool_iff in Hle. congruence.
Qed.

Lemma ilog2_unique (x : Q) (k : Z) :
  (2 ^ k <= x)%Q -> (x < 2 ^ (k + 1))%Q -> ilog2 x = k.
Proof.
  intros H1 H2.
  assert (0 < x)%Q as Hx by (eapply Qlt_le_trans; [apply pow2_pos|exact H1]).
  destruct (ilog2_spec x Hx) as [H3 H4].
  assert (ilog2 x < k + 1)
    by (apply pow2_lt_inv; eapply Qle_lt_trans; [exact H3|exact H2]).
  assert (k < ilog2 x + 1)
    by (apply pow2_lt_inv; eapply Qle_lt_trans; [exact H1|exact H4]).
  lia.
Qed.

Lemma ilog2_ext (x y : Q) : (0 < x)%Q -> (x == y)%Q -> ilog2 x = ilog2 y.
Proof.
  intros Hx Hxy. symmetry. destruct (ilog2_spec x Hx) as [H1 H2].
  apply ilog2_unique; rewrite <- Hxy; assumption.
Qed.

Lemma rne_ext (x y : Q) : (x == y)%Q -> rne x = rne y.
Proof.
  intros Hxy. unfold rne. rewrite (Qfloor_comp x y Hxy).
  assert ((x - inject_Z (Qfloor y) ?= 1 # 2)%Q = (y - inject_Z (Qfloor y) ?= 1 # 2)%Q) as ->
    by (apply Qcompare_comp; [rewrite Hxy|]; reflexivity).
  reflexivity.
Qed.

Lemma rne_floor (x : Q) : Qfloor x <= rne x <= Qfloor x + 1.
Proof.
  unfold rne. destruct (_ ?= _)%Q; [destruct (Z.even _)| |]; lia.
Qed.

Lemma rne_Z (k : Z) : rne (inject_Z k) = k.
Proof.
  unfold rne. rewrite Qfloor_Z.
  assert (inject_Z k - inject_Z k == 0)%Q as H by ring.
  rewrite (Qcompare_comp _ _ H _ _ (Qeq_refl _)). reflexivity.
Qed.

Lemma rne_ge (K : Z) (x : Q) : (inject_Z K <= x)%Q -> K <= rne x.
Proof.
  intros H. apply Qfloor_resp_le in H. rewrite Qfloor_Z in H.
  pose proof (rne_floor x). lia.
Qed.

Lemma rne_le (K : Z) (x : Q) : (x <= inject_Z K)%Q -> rne x <= K.
Proof.
  intros H. pose proof (Qfloor_resp_le _ _ H) as Hf. rewrite Qfloor_Z in Hf.
  destruct (Z.eq_dec (Qfloor x) K) as [Heq|Hne].
  - assert (x == inject_Z K)%Q as Hx.
    { apply Qle_antisym; [exact H|]. rewrite <- Heq. apply Qfloor_le. }
    rewrite (rne_ext _ _ Hx), rne_Z. lia.
  - pose proof (rne_floor x). lia.
Qed.

Lemma round_pos_ext (x y : Q) : (0 < x)%Q -> (x == y)%Q -> round_pos x = round_pos y.
Proof.
  intros Hx Hxy. unfold round_pos. rewrite (ilog2_ext x y Hx Hxy).
  set (e := Z.max (ilog2 y - 52) (- 1074)).
  assert (rne (x / 2 ^ e) = rne (y / 2 ^ e)) as ->
    by (apply rne_ext; rewrite Hxy; reflexivity).
  reflexivity.
Qed.

Lemma round64_ext (x y : Q) : (x == y)%Q -> round64 x = round64 y.
Proof.
  intros Hxy. unfold round64.
  assert ((x ?= 0)%Q = (y ?= 0)%Q) as Hc by (apply Qcompare_comp; [exact Hxy|reflexivity]).
  rewrite <- Hc. destruct (x ?= 0)%Q eqn:Hx; [reflexivity| |].
  - apply Qlt_alt in Hx. f_equal. apply round_pos_ext.
    + apply (Qopp_lt_compat x 0) in Hx. exact Hx.
    + rewrite Hxy. reflexivity.
  - apply Qgt_alt in Hx. apply round_pos_ext; assumption.
Qed.

Lemma round_pos_exact (x : Q) :
  (0 < x)%Q -> representable x -> round_pos x = exactly x.
Proof.
  intros Hx (k & e & Hxk & Hk & He).
  assert (exists k' e', (x == inject_Z k' * 2 ^ e')%Q /\ 0 < k' < 2 ^ 53
                        /\ - 1074 <= e' <= 971) as (k' & e' & Hxk' & Hk' & He').
  { destruct (Z.eq_dec k (2 ^ 53)) as [->|Hne].
    - exists (2 ^ 52), (e + 1). split; [|lia].
      rewrite Hxk, pow2_add. change (2 ^ 1)%Q with 2%Q.
      change (inject_Z (2 ^ 53)) with (inject_Z (2 ^ 52) * 2)%Q. ring.
    - exists k, e. split; [exact Hxk|]. split; [|lia].
      assert (k <> 0); [|lia]. intros ->. rewrite Hxk in Hx.
      apply (Qlt_irrefl 0). eapply Qlt_le_trans; [exact Hx|].
      rewrite Qmult_0_l. apply Qle_refl. }
  clear k e Hxk Hk He.
  assert (x < 2 ^ (53 + e'))%Q as Hlt.
  { rewrite Hxk', pow2_add. apply Qmult_lt_r; [apply pow2_pos|].
    rewrite <- pow2_Z by lia. rewrite <- Zlt_Qlt. lia. }
  destruct (ilog2_spec x Hx) as [Hil _].
  assert (ilog2 x < 53 + e')
    by (apply pow2_lt_inv; eapply Qle_lt_trans; [exact Hil|exact Hlt]).
  unfold round_pos, exactly.
  set (E := Z.max (ilog2 x - 52) (- 1074)).
  assert (E <= e') as HE by (unfold E; lia).
  assert (x / 2 ^ E == inject_Z (k' * 2 ^ (e' - E)))%Q as Hscaled.
  { rewrite inject_Z_mult, pow2_Z by lia. rewrite Hxk', pow2_sub.
    field. apply Qpower_not_0, two_nonzero. }
  rewrite (rne_ext _ _ Hscaled), rne_Z.
  assert (inject_Z (k' * 2 ^ (e' - E)) * 2 ^ E == x)%Q as Hy.
  { rewrite <- Hscaled. field. apply Qpower_not_0, two_nonzero. }
  assert (Qle_bool (2 ^ 1024) (inject_Z (k' * 2 ^ (e' - E)) * 2 ^ E) = false) as ->.
  { destruct (Qle_bool _ _) eqn:Hov; [|reflexivity].
    apply Qle_bool_iff in Hov. rewrite Hy in Hov. exfalso.
    apply (Qlt_irrefl x). eapply Qlt_le_trans; [exact Hlt|].
    eapply Qle_trans; [|exact Hov]. apply pow2_le. lia. }
  f_equal. apply Qred_complete. exact Hy.
Qed.

Lemma round64_exact (x : Q) : representable x -> round64 x = exactly x.
Proof.
  intros Hrep. unfold round64. destruct (x ?= 0)%Q eqn:Hc.
  - apply Qeq_alt in Hc. unfold exactly. f_equal. symmetry.
    apply (Qred_complete x 0 Hc).
  - apply Qlt_alt in Hc. exfalso. destruct Hrep as (k & e & Hx & Hk & _).
    apply (Qlt_irrefl 0). eapply Qle_lt_trans; [|exact Hc]. rewrite Hx.
    apply Qmult_le_0_compat; [|apply Qlt_le_weak, pow2_pos].
    change 0%Q with (inject_Z 0). rewrite <- Zle_Qle. lia.
  - apply Qgt_alt in Hc. apply round_pos_exact; assumption.
Qed.

Lemma round64_bounds (x : Q) (a b : Z) :
  0 <= a -> b <= 1023 -> (2 ^ a <= x)%Q -> (x <= 2 ^ b)%Q ->
  exists y, round64 x = Finite y /\ (2 ^ a <= y)%Q /\ (y <= 2 ^ b)%Q.
Proof.
  intros Ha Hb Hlow Hhigh.
  assert (0 < x)%Q as Hx by (eapply Qlt_le_trans; [apply pow2_pos|exact Hlow]).
  unfold round64. assert ((x ?= 0)%Q = Gt) as -> by (apply Qgt_alt; exact Hx).
  destruct (ilog2_spec x Hx) as [Hil1 Hil2].
  assert (a < ilog2 x + 1)
    by (apply pow2_lt_inv; eapply Qle_lt_trans; [exact Hlow|exact Hil2]).
  assert (ilog2 x <= b)
    by (apply pow2_le_inv; eapply Qle_trans; [exact Hil1|exact Hhigh]).
  unfold round_pos. set (E := Z.max (ilog2 x - 52) (- 1074)).
  assert (E <= ilog2 x) as HE by (unfold E; lia).
  assert (0 < 2 ^ E)%Q as HpE by apply pow2_pos.
  assert (2 ^ (ilog2 x - E) <= rne (x / 2 ^ E)) as Hm1.
  { apply rne_ge. rewrite pow2_Z by lia. rewrite pow2_sub.
    apply Qmult_le_r; [apply Qinv_lt_0_compat; exact HpE|exact Hil1]. }
  assert (rne (x / 2 ^ E) <= 2 ^ (b - E)) as Hm2.
  { apply rne_le. rewrite pow2_Z by lia. rewrite pow2_sub.
    apply Qmult_le_r; [apply Qinv_lt_0_compat; exact HpE|exact Hhigh]. }
  set (m := rne (x / 2 ^ E)) in *.
  assert (2 ^ ilog2 x <= inject_Z m * 2 ^ E)%Q as Hy1.
  { assert (2 ^ ilog2 x == 2 ^ (ilog2 x - E) * 2 ^ E)%Q as ->
      by (rewrite <- pow2_add; replace (ilog2 x - E + E) with (ilog2 x) by lia; reflexivity).
    apply Qmult_le_r; [exact HpE|]. rewrite <- pow2_Z by lia.
    rewrite <- Zle_Qle. exact Hm1. }
  assert (inject_Z m * 2 ^ E <= 2 ^ b)%Q as Hy2.
  { assert (2 ^ b == 2 ^ (b - E) * 2 ^ E)%Q as ->
      by (rewrite <- pow2_add; replace (b - E + E) with b by lia; reflexivity).
    apply Qmult_le_r; [exact HpE|]. rewrite <- pow2_Z by lia.
    rewrite <- Zle_Qle. exact Hm2. }
  assert (Qle_bool (2 ^ 1024) (inject_Z m * 2 ^ E) = false) as ->.
  { destruct (Qle_bool _ _) eqn:Hov; [|reflexivity].
    apply Qle_bool_iff in Hov. exfalso. apply (Qlt_irrefl (2 ^ b)).
    eapply Qlt_le_trans; [apply (pow2_lt b 1024); lia|].
    eapply Qle_trans; [exact Hov|exact Hy2]. }
  eexists. split; [reflexivity|]. rewrite Qred_correct. split; [|exact Hy2].
  eapply Qle_trans; [|exact Hy1]. apply pow2_le. lia.
Qed.

(** *** The rounding against the Standard Library's binary64 *)

Example round64_quotient :
  round64 (4 # 3) = of_spec (b64_div (b64 4) (b64 3))
  /\ round64 (1 # 10) = of_spec (b64_div (b64 1) (b64 10))
  /\ round64 (- 1 # 3) = of_spec (b64_div (b64 (- 1)) (b64 3)).
Proof. vm_compute. repeat split. Qed.

Example round64_integer :
  of_int (2 ^ 60 + 1) = of_spec (b64 (2 ^ 60 + 1))
  /\ of_int (2 ^ 53 + 1) = of_spec (b64 (2 ^ 53 + 1))
  /\ of_int (2 ^ 53 + 3) = of_spec (b64 (2 ^ 53 + 3))
  /\ of_int (- 2 ^ 63) = of_spec (b64 (- 2 ^ 63)).
Proof. vm_compute. repeat split. Qed.

Example round64_sum :
  fadd (of_int (2 ^ 60)) (of_int 1) = of_spec (b64_add (b64 (2 ^ 60)) (b64 1))
  /\ fadd (of_int (2 ^ 53)) (of_int 3) = of_spec (b64_add (b64 (2 ^ 53)) (b64 3)).
Proof. vm_compute. repeat split. Qed.

Example round64_overflow :
  of_int (2 ^ 1024 - 2 ^ 970) = Infinity false
  /\ of_int (2 ^ 1024 - 2 ^ 970) = of_spec (b64 (2 ^ 1024 - 2 ^ 970))
  /\ of_int (2 ^ 1024 - 2 ^ 970 - 1) = of_spec (b64 (2 ^ 1024 - 2 ^ 970 - 1)).
Proof. vm_compute. repeat split. Qed.

Example round64_subnormal :
  round64 (3 * 2 ^ (- 1075)) = of_spec (binary_normalize 53 1024 3 (- 1075) false)
  /\ round64 (2 ^ (- 1075)) = of_spec (binary_normalize 53 1024 1 (- 1075) false).
Proof. vm_compute. repeat split. Qed.

End Float64Facts.

(** ** Flajolet-Martin *)

Module FlajoletMartinFacts.
Import Float64 FlajoletMartin FlajoletMartinSpec Float64Facts.

Lemma h_below_pow10 (s : string) (num_digits : nat) (nr : Z) :
  0 <= h s num_digits nr < 10 ^ Z.of_nat num_digits.
Proof. unfold h. apply Z.mod_pos_bound. apply Z.pow_pos_nonneg; lia. Qed.

(** *** Trailing zeros *)

Lemma ctz_nonneg (p : positive) : 0 <= ctz p.
Proof. induction p; simpl; lia. Qed.

Lemma pow2_ctz_le (p : positive) : 2 ^ ctz p <= Zpos p.
Proof.
  induction p as [p IH|p IH|]; simpl ctz; [lia| |lia].
  rewrite Z.add_comm, Z.pow_add_r by (pose proof (ctz_nonneg p); lia). lia.
Qed.

Lemma land_double (a b : Z) : Z.land (2 * a) (2 * b) = 2 * Z.land a b.
Proof.
  apply Z.bits_inj'. intros n Hn. rewrite Z.land_spec.
  destruct (Z.eq_dec n 0) as [->|Hne].
  - rewrite !Z.testbit_even_0. reflexivity.
  - replace n with (Z.succ (n - 1)) by lia.
    rewrite !Z.testbit_even_succ by lia. symmetry. apply Z.land_spec.
Qed.

Lemma land_double_succ (a b : Z) : Z.land (2 * a + 1) (2 * b + 1) = 2 * Z.land a b + 1.
Proof.
  apply Z.bits_inj'. intros n Hn. rewrite Z.land_spec.
  destruct (Z.eq_dec n 0) as [->|Hne].
  - rewrite !Z.testbit_odd_0. reflexivity.
  - replace n with (Z.succ (n - 1)) by lia.
    rewrite !Z.testbit_odd_succ by lia. symmetry. apply Z.land_spec.
Qed.

(** [x & -x] keeps the lowest set bit of [x]. *)
Lemma lowest_set_bit (p : positive) : Z.land (Zpos p) (- Zpos p) = 2 ^ ctz p.
Proof.
  induction p as [p _|p IH|]; simpl ctz.
  - change (Zpos p~1) with (2 * Zpos p + 1).
    replace (- (2 * Zpos p + 1)) with (2 * Z.lnot (Zpos p) + 1)
      by (rewrite Z.lnot_eq_pred_opp; lia).
    rewrite land_double_succ, Z.land_lnot_diag. reflexivity.
  - change (Zpos p~0) with (2 * Zpos p).
    replace (- (2 * Zpos p)) with (2 * - Zpos p) by lia.
    rewrite land_double, IH, Z.add_comm, Z.pow_add_r by (pose proof (ctz_nonneg p); lia).
    lia.
  - reflexivity.
Qed.

(** On a non-zero hash value [get_r] is the trailing-zero count. *)
Lemma get_r_spec (x : Z) :
  0 < x < 2 ^ 64 -> get_r x = match trailing_zeros x with Some r => Ok r | None => Raise OverflowError end.
Proof.
  intros Hx. destruct x as [|p|p]; [lia| |lia]. unfold get_r. simpl trailing_zeros.
  change (- Zpos p) with (- Zpos p). rewrite lowest_set_bit.
  pose proof (ctz_nonneg p) as Hc. pose proof (pow2_ctz_le p) as Hle.
  assert (0 < 2 ^ ctz p) by (apply Z.pow_pos_nonneg; lia).
  destruct (Z.eqb_spec (2 ^ ctz p) 0); [lia|].
  destruct (Z.leb_spec (2 ^ 64) (2 ^ ctz p)); [lia|].
  rewrite Z.log2_pow2 by exact Hc. reflexivity.
Qed.

Lemma get_r_zero : get_r 0 = Raise OverflowError.
Proof. reflexivity. Qed.

(** C4. Ingestion is not total: the SHA-1 value of the key ["host28720280"]
    ends in eight decimal zeros, so its hash value [h(ip, nr=1,
    num_digits=8)] is exactly 0; [get_r(0)] takes [np.log2(0) = -inf] and
    [int(-inf)] raises [OverflowError], in the basic loop as in the loop
    over the 128 hash functions. Nothing caps the zero hash value. *)
Theorem ingest_zero_hash_raises :
  h "host28720280" 8 1 = 0
  /\ get_r (h "host28720280" 8 1) = Raise OverflowError
  /\ update_R "host28720280" 0 = Raised OverflowError 0
  /\ update_Rs "host28720280" 128 (replicate 128 0) = Raised OverflowError (replicate 128 0)
  /\ run ["host1"; "host28720280"; "host2"]%string 128
     = Raised OverflowError (state_of (run ["host1"]%string 128)).
Proof.
  assert (h "host28720280" 8 1 = 0) as Hzero by (vm_compute; reflexivity).
  split; [exact Hzero|]. split; [rewrite Hzero; reflexivity|].
  split; [unfold update_R; rewrite Hzero; reflexivity|].
  split; vm_compute; reflexivity.
Qed.

(** *** Trackers *)

Lemma get_r_hashable (num_hashes : nat) (ip : string) (j : nat) :
  hashable num_hashes ip -> (j < num_hashes)%nat ->
  get_r (h ip 8 (Z.of_nat j + 1)) = Ok (r_of ip j).
Proof.
  intros Hip Hj. specialize (Hip j Hj). unfold r_of.
  pose proof (h_below_pow10 ip 8 (Z.of_nat j + 1)) as Hh.
  rewrite get_r_spec.
  - destruct (h ip 8 (Z.of_nat j + 1)); [congruence|reflexivity|lia].
  - split; [lia|]. eapply Z.lt_trans; [apply Hh|]. reflexivity.
Qed.

Lemma r_of_nonneg (ip : string) (j : nat) : 0 <= r_of ip j.
Proof.
  unfold r_of. destruct (h ip 8 (Z.of_nat j + 1)); simpl; try apply ctz_nonneg. lia.
Qed.

Lemma max_r_nonneg (stream : list string) (j : nat) : 0 <= max_r stream j.
Proof. unfold max_r. induction stream; simpl; lia. Qed.

Lemma r_of_le_max_r (stream : list string) (ip : string) (j : nat) :
  In ip stream -> r_of ip j <= max_r stream j.
Proof.
  unfold max_r. induction stream as [|ip' stream IH]; intros Hin; [destruct Hin|].
  simpl. destruct Hin as [->|Hin]; [lia|]. specialize (IH Hin). lia.
Qed.

(** The inner loop after [k] hash functions: the first [k] trackers are
    updated, the others are still to come. *)
Lemma update_Rs_prefix (ip : string) (num_hashes k : nat) (Rs : list Z) :
  hashable num_hashes ip -> length Rs = num_hashes -> (k <= num_hashes)%nat ->
  for_each (range 0 k)
    (fun i Rs =>
       match get_r (h ip 8 (i + 1)) with
       | Raise e => Raised e Rs
       | Ok r =>
           match getitem Rs i with
           | Raise e => Raised e Rs
           | Ok cur => if r >? cur then setitem i r Rs else Done Rs
           end
       end) Rs
  = Done (take k (ingest ip Rs) ++ drop k Rs).
Proof.
  intros Hip Hlen. induction k as [|k IH]; intros Hk.
  - reflexivity.
  - rewrite range_S, for_each_app, IH by lia. simpl. rewrite Z.add_0_l.
    rewrite (get_r_hashable num_hashes) by (assumption || lia).
    destruct (lookup_lt_is_Some_2 Rs k ltac:(lia)) as [cur Hcur].
    assert ((ingest ip Rs) !! k = Some (Z.max cur (r_of ip k))) as Hnew
      by (unfold ingest; rewrite list_lookup_imap, Hcur; reflexivity).
    assert (length (take k (ingest ip Rs)) = k) as Hlk
      by (rewrite length_take; unfold ingest; rewrite length_imap; lia).
    rewrite (take_S_r _ _ _ Hnew), (drop_S _ _ _ Hcur), <- app_assoc. simpl.
    rewrite (getitem_in_range _ _ cur);
      [|lia|rewrite Nat2Z.id, lookup_app_r, Hlk, Nat.sub_diag by lia; reflexivity].
    destruct (Z.gtb_spec (r_of ip k) cur) as [Hgt|Hle].
    + rewrite setitem_in_range by (rewrite length_app, Hlk; simpl; lia).
      rewrite Nat2Z.id, insert_app_r_alt, Hlk, Nat.sub_diag by lia. simpl.
      rewrite Z.max_r by lia. reflexivity.
    + rewrite Z.max_l by lia. reflexivity.
Qed.

Lemma update_Rs_ok (ip : string) (num_hashes : nat) (Rs : list Z) :
  hashable num_hashes ip -> length Rs = num_hashes ->
  update_Rs ip num_hashes Rs = Done (ingest ip Rs).
Proof.
  intros Hip Hlen. unfold update_Rs. rewrite (update_Rs_prefix ip num_hashes) by auto.
  rewrite take_ge, drop_ge by (unfold ingest; rewrite ?length_imap; lia).
  rewrite app_nil_r. reflexivity.
Qed.

Lemma length_ingest (ip : string) (Rs : list Z) : length (ingest ip Rs) = length Rs.
Proof. apply length_imap. Qed.

Lemma run_from (stream : list string) (num_hashes : nat) (Rs : list Z) :
  Forall (hashable num_hashes) stream -> length Rs = num_hashes ->
  for_each stream (fun ip Rs => update_Rs ip num_hashes Rs) Rs
  = Done (fold_left (fun Rs ip => ingest ip Rs) stream Rs).
Proof.
  intros Hs. revert Rs. induction Hs as [|ip stream Hip _ IH]; intros Rs Hlen; simpl.
  - reflexivity.
  - rewrite update_Rs_ok by assumption. simpl. apply IH.
    rewrite length_ingest. exact Hlen.
Qed.

Lemma length_fold_ingest (stream : list string) (Rs : list Z) :
  length (fold_left (fun Rs ip => ingest ip Rs) stream Rs) = length Rs.
Proof.
  revert Rs. induction stream as [|ip stream IH]; intros Rs; simpl; [reflexivity|].
  rewrite IH. apply length_ingest.
Qed.

Lemma lookup_fold_ingest (stream : list string) (Rs : list Z) (j : nat) (cur : Z) :
  Rs !! j = Some cur -> 0 <= cur ->
  fold_left (fun Rs ip => ingest ip Rs) stream Rs !! j = Some (Z.max cur (max_r stream j)).
Proof.
  revert Rs cur. induction stream as [|ip stream IH]; intros Rs cur Hcur Hnn; simpl.
  - rewrite Hcur. f_equal. unfold max_r. simpl. lia.
  - rewrite (IH _ (Z.max cur (r_of ip j))).
    + f_equal. unfold max_r. simpl. lia.
    + unfold ingest. rewrite list_lookup_imap, Hcur. reflexivity.
    + lia.
Qed.

(** Each turn of the inner loop, finished or interrupted, only raises
    trackers. *)
Lemma update_Rs_monotone (ip : string) (num_hashes : nat) (Rs : list Z) :
  Forall2 Z.le Rs (state_of (update_Rs ip num_hashes Rs)).
Proof.
  unfold update_Rs.
  apply (for_each_preorder (Forall2 Z.le) (fun _ => True)).
  - intros l. apply Forall_Forall2_diag, List.Forall_forall. intros x _. lia.
  - intros l1 l2 l3 H12 H23. revert l3 H23.
    induction H12 as [|x y l1 l2 Hxy _ IH]; intros l3 H23;
      inversion H23; subst; constructor; [lia|auto].
  - apply List.Forall_forall. auto.
  - intros i l _.
    assert (Forall2 Z.le l l) as Hrefl
      by (apply Forall_Forall2_diag, List.Forall_forall; intros x _; lia).
    destruct (get_r (h ip 8 (i + 1))) as [r|e]; [|exact Hrefl].
    unfold getitem, setitem. destruct (norm_index l i) as [k|]; [|exact Hrefl].
    destruct (l !! k) as [cur|] eqn:Hcur; [|exact Hrefl].
    destruct (Z.gtb_spec r cur) as [Hgt|Hle]; [|exact Hrefl]. simpl.
    rewrite <- (list_insert_id l k cur Hcur) at 1.
    apply Forall2_insert; [exact Hrefl|lia].
Qed.

(** A run over hashable keys finishes and leaves the running maxima. *)
Lemma run_trackers (stream : list string) (num_hashes : nat) :
  Forall (hashable num_hashes) stream ->
  run stream num_hashes
  = Done (fold_left (fun Rs ip => ingest ip Rs) stream (replicate num_hashes 0))
  /\ forall j, (j < num_hashes)%nat ->
       fold_left (fun Rs ip => ingest ip Rs) stream (replicate num_hashes 0) !! j
       = Some (max_r stream j).
Proof.
  intros Hs. split.
  - unfold run. apply run_from; [exact Hs|apply length_replicate].
  - intros j Hj. rewrite (lookup_fold_ingest _ _ j 0).
    + f_equal. pose proof (max_r_nonneg stream j). lia.
    + apply lookup_replicate_2. exact Hj.
    + lia.
Qed.

(** A hash value below [10^8] has at most 26 trailing zeros, so the
    estimates [2^Rs[j]] of a run stay far inside int64. *)
Lemma r_of_le_26 (ip : string) (j : nat) : r_of ip j <= 26.
Proof.
  unfold r_of. pose proof (h_below_pow10 ip 8 (Z.of_nat j + 1)) as Hh.
  destruct (h ip 8 (Z.of_nat j + 1)) as [|p|p]; simpl; [lia| |lia].
  pose proof (pow2_ctz_le p) as Hle. pose proof (ctz_nonneg p) as Hnn.
  assert (2 ^ ctz p < 2 ^ 27) as Hlt.
  { eapply Z.le_lt_trans; [exact Hle|]. eapply Z.lt_trans; [apply Hh|]. reflexivity. }
  apply Z.pow_lt_mono_r_iff in Hlt; lia.
Qed.

Lemma max_r_le_26 (stream : list string) (j : nat) : max_r stream j <= 26.
Proof.
  unfold max_r. induction stream as [|ip stream IH]; simpl; [lia|].
  pose proof (r_of_le_26 ip j). lia.
Qed.

Lemma run_trackers_in_int64_range (stream : list string) (num_hashes : nat) (Rs : list Z) :
  Forall (hashable num_hashes) stream ->
  run stream num_hashes = Done Rs ->
  Forall (fun r => 0 <= r < 63) Rs.
Proof.
  intros Hs Hrun. destruct (run_trackers stream num_hashes Hs) as [Hrun' Hmax].
  rewrite Hrun' in Hrun. injection Hrun as <-.
  apply Forall_lookup. intros j r Hr.
  assert (j < num_hashes)%nat as Hj.
  { apply lookup_lt_Some in Hr. rewrite length_fold_ingest, length_replicate in Hr. exact Hr. }
  rewrite (Hmax j Hj) in Hr. injection Hr as <-.
  pose proof (max_r_nonneg stream j). pose proof (max_r_le_26 stream j). lia.
Qed.

(** C8. Tracker invariant. For a stream whose keys all have non-zero hash
    values (on any other key the loop stops with an exception), the run
    finishes with one tracker per hash function, tracker [j] is the largest
    trailing-zero count under hash function [j] over all ingested keys, and
    ingesting an already seen key again changes no tracker. Whatever the
    key and the trackers, one more ingestion never lowers a tracker. *)
Theorem trackers_are_running_maxima (stream : list string) (num_hashes : nat) :
  Forall (hashable num_hashes) stream ->
  (exists Rs,
     run stream num_hashes = Done Rs
     /\ length Rs = num_hashes
     /\ (forall j, (j < num_hashes)%nat -> Rs !! j = Some (max_r stream j))
     /\ (forall ip, In ip stream -> update_Rs ip num_hashes Rs = Done Rs))
  /\ (forall ip Rs0, Forall2 Z.le Rs0 (state_of (update_Rs ip num_hashes Rs0))).
Proof.
  intros Hs. split; [|intros ip Rs0; apply update_Rs_monotone].
  destruct (run_trackers stream num_hashes Hs) as [Hrun Hmax].
  set (Rs := fold_left (fun Rs ip => ingest ip Rs) stream (replicate num_hashes 0)) in *.
  assert (length Rs = num_hashes) as Hlen
    by (unfold Rs; rewrite length_fold_ingest; apply length_replicate).
  exists Rs. split; [exact Hrun|split; [exact Hlen|split; [exact Hmax|]]].
  intros ip Hin. rewrite update_Rs_ok; [|eapply List.Forall_forall; eassumption|exact Hlen].
  f_equal. apply list_eq. intros j. unfold ingest. rewrite list_lookup_imap.
  destruct (decide (j < num_hashes)%nat) as [Hj|Hj].
  - rewrite (Hmax j Hj). simpl. f_equal.
    pose proof (r_of_le_max_r stream ip j Hin). lia.
  - rewrite (lookup_ge_None_2 Rs j) by lia. reflexivity.
Qed.

(** Three keys under six hash functions. *)
Lemma trackers_are_running_maxima_witness :
  let stream := ["host1"; "host2"; "host3"]%string in
  exists Rs,
    run stream 6 = Done Rs
    /\ length Rs = 6%nat
    /\ (forall j, (j < 6)%nat -> Rs !! j = Some (max_r stream j))
    /\ (forall ip, In ip stream -> update_Rs ip 6 Rs = Done Rs).
Proof.
  intros stream. apply (trackers_are_running_maxima stream 6).
  repeat constructor; intros j Hj;
    do 6 (destruct j as [|j]; [vm_compute; discriminate|]); lia.
Defined.

(** *** Estimates *)

Lemma wrap_int64_small (x : Z) : - 2 ^ 63 <= x < 2 ^ 63 -> wrap_int64 x = x.
Proof. intros Hx. unfold wrap_int64. rewrite Z.mod_small; lia. Qed.

Lemma traverse_np_power2 (Rs : list Z) :
  Forall (fun r => 0 <= r < 63) Rs ->
  traverse np_power2 Rs = Ok (map (fun r => 2 ^ r) Rs).
Proof.
  induction 1 as [|r Rs Hr _ IH]; simpl; [reflexivity|].
  unfold np_power2 at 1. destruct (Z.ltb_spec r 0); [lia|].
  rewrite wrap_int64_small.
  - simpl. rewrite IH. reflexivity.
  - assert (0 < 2 ^ r) by (apply Z.pow_pos_nonneg; lia).
    assert (2 ^ r < 2 ^ 63) by (apply Z.pow_lt_mono_r; lia). lia.
Qed.

Lemma swap_Permutation {A : Type} (i j : nat) (l : list A) : Permutation (swap i j l) l.
Proof.
  unfold swap. destruct (l !! i) as [a|] eqn:Hi; [|reflexivity].
  destruct (l !! j) as [b|] eqn:Hj; [|reflexivity].
  eapply Permutation_insert_swap; eassumption.
Qed.

Lemma shuffle_Permutation {A : Type} (l : list A) (g : rng) :
  Permutation (fst (shuffle l g)) l.
Proof.
  unfold shuffle. generalize (rev (seq 1 (length l - 1))) as idxs.
  intros idxs. revert l g.
  induction idxs as [|i idxs IH]; intros l g; simpl; [reflexivity|].
  rewrite IH. apply swap_Permutation.
Qed.

Lemma chunks_spec {A : Type} (count size : nat) (l : list A) :
  length l = (count * size)%nat ->
  concat (chunks count size l) = l
  /\ length (chunks count size l) = count
  /\ Forall (fun b => length b = size) (chunks count size l).
Proof.
  revert l. induction count as [|count IH]; intros l Hlen; simpl.
  - destruct l; [auto|discriminate].
  - destruct (IH (drop size l)) as (Hcat & Hcount & Hall).
    { rewrite length_drop. lia. }
    rewrite Hcat, Hcount, take_drop. split; [reflexivity|]. split; [reflexivity|].
    constructor; [|exact Hall]. rewrite length_take. lia.
Qed.

Lemma np_split_even {A : Type} (ary : list A) (sections size : nat) :
  (0 < sections)%nat -> length ary = (sections * size)%nat ->
  np_split ary sections = Ok (chunks sections size ary).
Proof.
  intros Hs Hlen. unfold np_split. destruct (Nat.eqb_spec sections 0); [lia|].
  rewrite Hlen, (Nat.mul_comm sections size), Nat.Div0.mod_mul, Nat.div_mul by lia.
  reflexivity.
Qed.

(** *** Sums that float64 holds exactly *)

Lemma exactly_ext (p q : Q) : (p == q)%Q -> exactly p = exactly q.
Proof. intros H. unfold exactly. f_equal. apply Qred_complete, H. Qed.

Lemma representable_scaled (e k : Z) :
  - 1074 <= e <= 970 -> 0 <= k <= 2 ^ 53 -> representable (inject_Z k * 2 ^ e).
Proof. intros He Hk. exists k, e. split; [reflexivity|]. split; assumption. Qed.

Lemma round64_scaled (e k : Z) (x : Q) :
  - 1074 <= e <= 970 -> 0 <= k <= 2 ^ 53 -> (x == inject_Z k * 2 ^ e)%Q ->
  round64 x = scaled e k.
Proof.
  intros He Hk Hx. rewrite (round64_ext _ _ Hx).
  apply round64_exact, representable_scaled; assumption.
Qed.

Lemma fadd_scaled (e j k : Z) :
  - 1074 <= e <= 970 -> 0 <= j -> 0 <= k -> j + k <= 2 ^ 53 ->
  fadd (scaled e j) (scaled e k) = scaled e (j + k).
Proof.
  intros He Hj Hk Hjk. unfold scaled at 1 2, exactly, fadd.
  apply round64_scaled; [exact He|lia|].
  rewrite !Qred_correct, inject_Z_plus. ring.
Qed.

Lemma zero_scaled (e : Z) : Finite 0 = scaled e 0.
Proof.
  change (Finite 0) with (exactly 0). apply exactly_ext.
  change (inject_Z 0) with 0%Q. ring.
Qed.

Lemma of_int_scaled (z : Z) : 0 <= z <= 2 ^ 53 -> of_int z = scaled 0 z.
Proof.
  intros Hz. unfold of_int. apply round64_scaled; [lia|exact Hz|].
  change (2 ^ 0)%Q with 1%Q. ring.
Qed.

Lemma fdiv_scaled (e k : Z) (n : Z) :
  0 < n <= 2 ^ 53 ->
  fdiv (scaled e k) (of_int n) = round64 (inject_Z k * 2 ^ e / inject_Z n).
Proof.
  intros Hn. rewrite of_int_scaled by lia. unfold scaled, exactly, fdiv.
  assert (Qred (inject_Z n * 2 ^ 0) == inject_Z n)%Q as Hden
    by (rewrite Qred_correct; change (2 ^ 0)%Q with 1%Q; ring).
  assert (Qeq_bool (Qred (inject_Z n * 2 ^ 0)) 0 = false) as ->.
  { destruct (Qeq_bool _ _) eqn:Hz; [|reflexivity]. apply Qeq_bool_iff in Hz.
    rewrite Hden in Hz. unfold Qeq in Hz. simpl in Hz. lia. }
  apply round64_ext. rewrite Hden, Qred_correct. reflexivity.
Qed.

Lemma sumZ_app (l1 l2 : list Z) : sumZ (l1 ++ l2) = sumZ l1 + sumZ l2.
Proof. unfold sumZ. induction l1 as [|x l1 IH]; simpl; [reflexivity|]. rewrite IH. lia. Qed.

Lemma sumZ_nonneg (l : list Z) : Forall (fun k => 0 <= k) l -> 0 <= sumZ l.
Proof. unfold sumZ. induction 1 as [|x l Hx _ IH]; simpl; lia. Qed.

Lemma sumZ_take_drop (n : nat) (l : list Z) : sumZ (take n l) + sumZ (drop n l) = sumZ l.
Proof. rewrite <- sumZ_app, take_drop. reflexivity. Qed.

Lemma sumZ_bounds (l : list Z) (lo hi : Z) :
  Forall (fun k => lo <= k <= hi) l ->
  lo * Z.of_nat (length l) <= sumZ l <= hi * Z.of_nat (length l).
Proof.
  unfold sumZ. induction 1 as [|x l Hx _ IH]; [simpl; lia|].
  cbn [fold_right length]. lia.
Qed.

Lemma fold_fadd_scaled (e : Z) (ks : list Z) (a : Z) :
  - 1074 <= e <= 970 ->
  Forall (fun k => 0 <= k) ks -> 0 <= a -> a + sumZ ks <= 2 ^ 53 ->
  fold_left fadd (map (scaled e) ks) (scaled e a) = scaled e (a + sumZ ks).
Proof.
  intros He Hks. revert a. induction Hks as [|k ks Hk Hks IH]; intros a Ha Hsum.
  - simpl. rewrite Z.add_0_r. reflexivity.
  - pose proof (sumZ_nonneg ks Hks). change (sumZ (k :: ks)) with (k + sumZ ks) in *.
    cbn [map fold_left]. rewrite fadd_scaled by lia. rewrite IH by lia.
    f_equal. lia.
Qed.

Lemma zip_fadd_scaled (e : Z) (rs ks : list Z) :
  - 1074 <= e <= 970 ->
  Forall (fun k => 0 <= k) rs -> Forall (fun k => 0 <= k) ks ->
  sumZ rs + sumZ ks <= 2 ^ 53 ->
  zip_with fadd (map (scaled e) rs) (map (scaled e) ks)
  = map (scaled e) (zip_with Z.add rs ks).
Proof.
  intros He Hrs. revert ks. induction Hrs as [|r rs Hr Hrs IH]; intros ks Hks Hsum.
  - reflexivity.
  - destruct Hks as [|k ks Hk Hks]; [reflexivity|].
    pose proof (sumZ_nonneg rs Hrs). pose proof (sumZ_nonneg ks Hks).
    change (sumZ (r :: rs)) with (r + sumZ rs) in *.
    change (sumZ (k :: ks)) with (k + sumZ ks) in *.
    cbn [map zip_with]. rewrite fadd_scaled by lia. rewrite IH by (assumption || lia).
    reflexivity.
Qed.

Lemma zip_add_spec (rs ks : list Z) :
  length rs = length ks ->
  Forall (fun k => 0 <= k) rs -> Forall (fun k => 0 <= k) ks ->
  length (zip_with Z.add rs ks) = length rs
  /\ Forall (fun k => 0 <= k) (zip_with Z.add rs ks)
  /\ sumZ (zip_with Z.add rs ks) = sumZ rs + sumZ ks.
Proof.
  intros Hlen Hrs. revert ks Hlen.
  induction Hrs as [|r rs Hr Hrs IH]; intros ks Hlen Hks.
  - destruct ks; [|discriminate]. repeat split. constructor.
  - destruct Hks as [|k ks Hk Hks]; [discriminate|].
    destruct (IH ks ltac:(simpl in Hlen; lia) Hks) as (Hl & Hn & Hs).
    cbn [zip_with length]. change (sumZ (?x :: ?l)) with (x + sumZ l).
    split; [lia|]. split; [constructor; [lia|exact Hn]|lia].
Qed.

Lemma accumulate8_scaled (e : Z) (blocks : nat) (rs ks : list Z) :
  - 1074 <= e <= 970 ->
  length rs = 8%nat -> (8 * blocks <= length ks)%nat ->
  Forall (fun k => 0 <= k) rs -> Forall (fun k => 0 <= k) ks ->
  sumZ rs + sumZ ks <= 2 ^ 53 ->
  exists rs' ks',
    accumulate8 blocks (map (scaled e) rs) (map (scaled e) ks)
    = (map (scaled e) rs', map (scaled e) ks')
    /\ length rs' = 8%nat
    /\ Forall (fun k => 0 <= k) rs' /\ Forall (fun k => 0 <= k) ks'
    /\ sumZ rs' + sumZ ks' = sumZ rs + sumZ ks.
Proof.
  intros He. revert rs ks.
  induction blocks as [|blocks IH]; intros rs ks Hlen Hblocks Hrs Hks Hsum.
  - exists rs, ks. repeat split; assumption.
  - cbn [accumulate8]. rewrite firstn_map, skipn_map.
    pose proof (sumZ_take_drop 8 ks) as Hsplit.
    assert (Forall (fun k => 0 <= k) (take 8 ks)) as Htake by (apply Forall_take; exact Hks).
    assert (Forall (fun k => 0 <= k) (drop 8 ks)) as Hdrop by (apply Forall_drop; exact Hks).
    pose proof (sumZ_nonneg _ Hdrop).
    rewrite zip_fadd_scaled by (assumption || lia).
    destruct (zip_add_spec rs (take 8 ks)) as (Hl & Hn & Hs);
      [rewrite length_take; lia|assumption|assumption|].
    destruct (IH (zip_with Z.add rs (take 8 ks)) (drop 8 ks))
      as (rs' & ks' & Hrun & Hlen' & Hrs' & Hks' & Hsum');
      [lia|rewrite length_drop; lia|assumption|assumption|lia|].
    exists rs', ks'. split; [exact Hrun|]. repeat split; try assumption. lia.
Qed.

Lemma sum_unrolled_scaled (e : Z) (ks : list Z) :
  - 1074 <= e <= 970 ->
  (8 <= length ks)%nat -> Forall (fun k => 0 <= k) ks -> sumZ ks <= 2 ^ 53 ->
  sum_unrolled (map (scaled e) ks) = scaled e (sumZ ks).
Proof.
  intros He Hlen Hks Hsum. unfold sum_unrolled.
  rewrite length_map, firstn_map, skipn_map.
  pose proof (sumZ_take_drop 8 ks) as Hsplit.
  assert (8 * (length ks / 8) <= length ks)%nat as Hdiv by (apply Nat.Div0.mul_div_le).
  destruct (accumulate8_scaled e (length ks / 8 - 1) (take 8 ks) (drop 8 ks))
    as (rs & rest & -> & Hlen' & Hrs & Hrest & Hsum');
    [exact He|rewrite length_take; lia|rewrite length_drop; lia
    |apply Forall_take; exact Hks|apply Forall_drop; exact Hks|lia|].
  pose proof (sumZ_nonneg _ Hrest) as Hrest0.
  destruct rs as [|r0 [|r1 [|r2 [|r3 [|r4 [|r5 [|r6 [|r7 [|r8 rs]]]]]]]]];
    try discriminate.
  assert (sumZ [r0; r1; r2; r3; r4; r5; r6; r7] = r0 + r1 + r2 + r3 + r4 + r5 + r6 + r7)
    as Hexp by (unfold sumZ; simpl; lia).
  rewrite Hexp in Hsum'.
  repeat match goal with H : Forall _ (_ :: _) |- _ => inversion H; subst; clear H end.
  cbn [map]. rewrite !fadd_scaled by lia. rewrite fold_fadd_scaled by (assumption || lia).
  f_equal. lia.
Qed.

Lemma pairwise_sum_eq (fuel : nat) (a : list float) :
  pairwise_sum fuel a
  = if (length a <? 8)%nat then fold_left fadd a (Finite 0)
    else if (length a <=? 128)%nat then sum_unrolled a
    else match fuel with
         | O => NaN
         | S fuel' =>
             let n2 := (length a / 2 - (length a / 2) mod 8)%nat in
             fadd (pairwise_sum fuel' (take n2 a)) (pairwise_sum fuel' (drop n2 a))
         end.
Proof. destruct fuel; reflexivity. Qed.

(** With enough fuel the pairwise sum of multiples of [2^e] that add up to
    no more than [2^53] of them is their sum: no addition rounds. *)
Lemma pairwise_sum_scaled (e : Z) (fuel : nat) (ks : list Z) :
  - 1074 <= e <= 970 ->
  (length ks <= fuel)%nat -> Forall (fun k => 0 <= k) ks -> sumZ ks <= 2 ^ 53 ->
  pairwise_sum fuel (map (scaled e) ks) = scaled e (sumZ ks).
Proof.
  intros He. revert ks. induction fuel as [|fuel IH]; intros ks Hfuel Hks Hsum;
    rewrite pairwise_sum_eq, length_map;
    (destruct (Nat.ltb_spec (length ks) 8) as [Hsmall|Hbig];
     [rewrite (zero_scaled e), fold_fadd_scaled by (assumption || lia); reflexivity|]);
    (destruct (Nat.leb_spec (length ks) 128) as [Hmid|Hlarge];
     [apply sum_unrolled_scaled; assumption|]); [lia|].
  cbv zeta. set (n2 := (length ks / 2 - (length ks / 2) mod 8)%nat).
  assert (0 < n2 < length ks)%nat as Hn2.
  { unfold n2. pose proof (Nat.mod_upper_bound (length ks / 2) 8 ltac:(lia)).
    assert (64 <= length ks / 2)%nat by (apply Nat.div_le_lower_bound; lia).
    assert (length ks / 2 < length ks)%nat by (apply Nat.div_lt; lia). lia. }
  rewrite firstn_map, skipn_map.
  pose proof (sumZ_take_drop n2 ks) as Hsplit.
  assert (Forall (fun k => 0 <= k) (take n2 ks)) as Htake by (apply Forall_take; exact Hks).
  assert (Forall (fun k => 0 <= k) (drop n2 ks)) as Hdrop by (apply Forall_drop; exact Hks).
  pose proof (sumZ_nonneg _ Htake). pose proof (sumZ_nonneg _ Hdrop).
  rewrite !IH by (assumption || lia || (rewrite ?length_take, ?length_drop; lia)).
  rewrite fadd_scaled by lia. f_equal. lia.
Qed.

Lemma np_mean_scaled (e : Z) (ks : list Z) :
  - 1074 <= e <= 970 ->
  ks <> [] -> Z.of_nat (length ks) <= 2 ^ 53 ->
  Forall (fun k => 0 <= k) ks -> sumZ ks <= 2 ^ 53 ->
  np_mean (map (scaled e) ks)
  = round64 (inject_Z (sumZ ks) * 2 ^ e / inject_Z (Z.of_nat (length ks))).
Proof.
  intros He Hne Hlen Hks Hsum. unfold np_mean. rewrite length_map.
  rewrite pairwise_sum_scaled by (assumption || lia).
  apply fdiv_scaled. destruct ks; [congruence|simpl length in *; lia].
Qed.

(** *** Medians and the final estimate *)

Lemma np_median_scaled (l : list Z) (lo hi : Z) :
  l <> [] -> 0 <= lo -> hi <= 2 ^ 52 -> Forall (fun x => lo <= x <= hi) l ->
  exists k, np_median l = scaled (- 1) k
            /\ is_median l (inject_Z k / 2) /\ 2 * lo <= k <= 2 * hi.
Proof.
  intros Hne Hlo Hhi Hl. unfold np_median.
  pose proof (merge_sort_Permutation Z.le l) as Hperm.
  assert (Sorted Z.le (merge_sort Z.le l)) as Hsorted.
  { apply Sorted_merge_sort. intros x y. lia. }
  assert (length (merge_sort Z.le l) = length l) as Hlen by (rewrite Hperm; reflexivity).
  rewrite <- Hperm in Hl.
  set (sorted := merge_sort Z.le l) in *. cbv zeta. rewrite Hlen.
  assert (0 < length l)%nat as Hpos by (destruct l; [congruence|simpl; lia]).
  assert (length l / 2 < length l)%nat as Hmid by (apply Nat.div_lt; lia).
  destruct (lookup_lt_is_Some_2 sorted (length l / 2) ltac:(lia)) as [b Hb].
  pose proof (Forall_lookup_1 _ _ _ _ Hl Hb) as Hbb. simpl in Hbb.
  assert (2 ^ (- 1) == 1 # 2)%Q as Hhalf by reflexivity.
  destruct (Nat.even (length l)) eqn:Heven.
  - assert (1 <= length l / 2)%nat as Hhalf1.
    { destruct (length l) as [|[|n]] eqn:Hn; [lia|discriminate|].
      apply Nat.div_le_lower_bound; lia. }
    destruct (lookup_lt_is_Some_2 sorted (length l / 2 - 1) ltac:(lia)) as [a Ha].
    pose proof (Forall_lookup_1 _ _ _ _ Hl Ha) as Hba. simpl in Hba.
    rewrite (drop_S _ a _ Ha).
    replace (S (length l / 2 - 1)) with (length l / 2)%nat by lia.
    rewrite (drop_S _ b _ Hb). cbn [take map firstn]. rewrite take_0. cbn [map].
    rewrite !of_int_scaled by lia.
    change [scaled 0 a; scaled 0 b] with (map (scaled 0) [a; b]).
    rewrite (np_mean_scaled 0 [a; b]);
      [|lia|discriminate|simpl; lia|repeat constructor; lia|unfold sumZ; simpl; lia].
    exists (a + b). split; [|split; [|lia]].
    + apply round64_scaled; [lia|lia|].
      unfold sumZ. cbn [fold_right length]. rewrite Z.add_0_r, Hhalf.
      change (2 ^ 0)%Q with 1%Q. change (inject_Z (Z.of_nat 2)) with 2%Q. field.
    + exists sorted. split; [exact Hperm|]. split; [exact Hsorted|].
      cbv zeta. rewrite Heven. exists a, b. split; [exact Ha|]. split; [exact Hb|].
      reflexivity.
  - rewrite (drop_S _ b _ Hb). cbn [take map firstn]. rewrite take_0. cbn [map].
    rewrite !of_int_scaled by lia.
    change [scaled 0 b] with (map (scaled 0) [b]).
    rewrite (np_mean_scaled 0 [b]);
      [|lia|discriminate|simpl; lia|repeat constructor; lia|unfold sumZ; simpl; lia].
    exists (2 * b). split; [|split; [|lia]].
    + apply round64_scaled; [lia|lia|].
      unfold sumZ. cbn [fold_right length]. rewrite Z.add_0_r, Hhalf.
      change (2 ^ 0)%Q with 1%Q. change (inject_Z (Z.of_nat 1)) with 1%Q.
      rewrite inject_Z_mult. change (inject_Z 2) with 2%Q. field.
    + exists sorted. split; [exact Hperm|]. split; [exact Hsorted|].
      cbv zeta. rewrite Heven. exists b. split; [exact Hb|].
      rewrite inject_Z_mult. change (inject_Z 2) with 2%Q. field.
Qed.

Lemma medians_scaled (buckets : list (list Z)) (lo hi : Z) :
  0 <= lo -> hi <= 2 ^ 52 ->
  Forall (fun b => b <> [] /\ Forall (fun x => lo <= x <= hi) b) buckets ->
  exists ks, map np_median buckets = map (scaled (- 1)) ks
             /\ Forall2 (fun b k => is_median b (inject_Z k / 2)) buckets ks
             /\ Forall (fun k => 2 * lo <= k <= 2 * hi) ks.
Proof.
  intros Hlo Hhi. induction 1 as [|b buckets [Hne Hb] _ (ks & Hmap & Hmed & Hks)].
  - exists []. split; [reflexivity|]. split; constructor.
  - destruct (np_median_scaled b lo hi Hne Hlo Hhi Hb) as (k & Hk & Hmedian & Hrange).
    exists (k :: ks). cbn [map]. rewrite Hk, Hmap. split; [reflexivity|].
    split; constructor; assumption.
Qed.

Lemma sum_halves (ks : list Z) :
  (fold_right Qplus 0 (map (fun k => inject_Z k / 2) ks) == inject_Z (sumZ ks) / 2)%Q.
Proof.
  unfold sumZ. induction ks as [|k ks IH]; cbn [map fold_right].
  - reflexivity.
  - rewrite IH, inject_Z_plus. field.
Qed.

(** The cells from [np.power] to [np.mean] where no sum rounds: the trackers
    are between [lo] and [hi] and [num_groups * 2^hi] is at most [2^52]. The
    only rounding is that of the quotient of [np.mean]. *)
Lemma final_estimate_rounds_once (Rs : list Z)
    (num_groups num_samples_per_group : nat) (g : rng) (lo hi : Z) :
  (0 < num_groups)%nat -> (0 < num_samples_per_group)%nat ->
  length Rs = (num_samples_per_group * num_groups)%nat ->
  0 <= lo -> Forall (fun r => lo <= r <= hi) Rs ->
  Z.of_nat num_groups * 2 ^ hi <= 2 ^ 52 ->
  exists (buckets : list (list Z)) (ks : list Z),
    final_estimate Rs num_groups g
    = Ok (round64 (inject_Z (sumZ ks) / 2 / inject_Z (Z.of_nat num_groups)))
    /\ Permutation (concat buckets) (map (fun r => 2 ^ r) Rs)
    /\ length buckets = num_groups
    /\ Forall (fun b => length b = num_samples_per_group) buckets
    /\ Forall2 (fun b k => is_median b (inject_Z k / 2)) buckets ks
    /\ Forall (fun k => 2 * 2 ^ lo <= k <= 2 * 2 ^ hi) ks.
Proof.
  intros Hg Hspg Hlen Hlo Hrange Hsize.
  assert (0 < 2 ^ hi) as Hpos.
  { destruct Rs as [|r Rs]; [simpl in Hlen; lia|].
    inversion Hrange; subst. apply Z.pow_pos_nonneg; lia. }
  assert (2 ^ hi <= 2 ^ 52) as Hhi by nia.
  assert (hi <= 52) as Hhi' by (apply (Z.pow_le_mono_r_iff 2); lia).
  unfold final_estimate.
  rewrite traverse_np_power2
    by (eapply Forall_impl; [exact Hrange|]; simpl; intros r Hr; lia).
  simpl bind_result.
  pose proof (shuffle_Permutation (map (fun r => 2 ^ r) Rs) g) as Hperm.
  destruct (shuffle (map (fun r => 2 ^ r) Rs) g) as [estimates g']. simpl in Hperm.
  assert (length estimates = (num_groups * num_samples_per_group)%nat) as Hlen'
    by (rewrite Hperm, length_map; lia).
  assert (Forall (fun x => 2 ^ lo <= x <= 2 ^ hi) estimates) as Hest.
  { rewrite Hperm. apply List.Forall_forall. intros x Hx.
    apply in_map_iff in Hx as (r & <- & Hr).
    pose proof (proj1 (List.Forall_forall _ _) Hrange r Hr) as Hb. simpl in Hb.
    split; apply Z.pow_le_mono_r; lia. }
  rewrite (np_split_even estimates num_groups num_samples_per_group) by assumption.
  simpl bind_result.
  destruct (chunks_spec num_groups num_samples_per_group estimates Hlen')
    as (Hcat & Hcount & Hlens).
  set (buckets := chunks num_groups num_samples_per_group estimates) in *.
  rewrite <- Hcat in Hest. apply Forall_concat in Hest.
  assert (0 <= 2 ^ lo) as Hlo' by (apply Z.pow_nonneg; lia).
  destruct (medians_scaled buckets (2 ^ lo) (2 ^ hi) Hlo' Hhi) as (ks & Hmap & Hmed & Hks).
  { apply Forall_and. split; [|exact Hest].
    eapply Forall_impl; [exact Hlens|]. simpl. intros b Hb ->. simpl in Hb. lia. }
  assert (length ks = num_groups) as Hcount'
    by (apply Forall2_length in Hmed; lia).
  destruct (sumZ_bounds ks _ _ Hks) as [_ Hsum]. rewrite Hcount' in Hsum.
  exists buckets, ks. rewrite Hmap.
  rewrite np_mean_scaled;
    [|lia|intros ->; simpl in Hcount'; lia|nia
     |eapply Forall_impl; [exact Hks|]; simpl; intros k Hk; lia|nia].
  rewrite Hcount'. split.
  - apply f_equal, round64_ext. assert (2 ^ (- 1) == 1 # 2)%Q as -> by reflexivity.
    field; unfold Qeq; simpl; lia.
  - split; [rewrite Hcat; exact Hperm|]. auto.
Qed.

(** C9. Estimate aggregation. With [num_groups * num_samples_per_group]
    trackers, none above [hi], and [num_groups * 2^hi] at most [2^52] (the
    trackers of a run are at most 26), whatever the shuffle draws: the
    estimates [2^Rs[j]] are partitioned into [num_groups] buckets of
    [num_samples_per_group] estimates each, and the final estimate is the
    float64 nearest to the arithmetic mean of the medians of the buckets. *)
Theorem final_estimate_is_mean_of_medians (Rs : list Z)
    (num_groups num_samples_per_group : nat) (g : rng) (hi : Z) :
  (0 < num_groups)%nat -> (0 < num_samples_per_group)%nat ->
  length Rs = (num_samples_per_group * num_groups)%nat ->
  Forall (fun r => 0 <= r <= hi) Rs ->
  Z.of_nat num_groups * 2 ^ hi <= 2 ^ 52 ->
  exists (buckets : list (list Z)) (medians : list Q) (mean : Q),
    final_estimate Rs num_groups g = Ok (round64 mean)
    /\ Permutation (concat buckets) (map (fun r => 2 ^ r) Rs)
    /\ length buckets = num_groups
    /\ Forall (fun b => length b = num_samples_per_group) buckets
    /\ Forall2 is_median buckets medians
    /\ is_mean medians mean.
Proof.
  intros Hg Hspg Hlen Hrange Hsize.
  destruct (final_estimate_rounds_once Rs num_groups num_samples_per_group g 0 hi)
    as (buckets & ks & Hrun & Hperm & Hcount & Hlens & Hmed & _); try assumption; [lia|].
  exists buckets, (map (fun k => inject_Z k / 2)%Q ks),
    (inject_Z (sumZ ks) / 2 / inject_Z (Z.of_nat num_groups))%Q.
  split; [exact Hrun|]. split; [exact Hperm|]. split; [exact Hcount|].
  split; [exact Hlens|]. split.
  - clear - Hmed. induction Hmed; constructor; assumption.
  - assert (length ks = num_groups) as Hcount'
      by (apply Forall2_length in Hmed; lia).
    split; [destruct ks; [simpl in Hcount'; lia|discriminate]|].
    rewrite length_map, Hcount', sum_halves. field; unfold Qeq; simpl; lia.
Qed.

(** Three trackers in three groups: the medians are 1, 1 and 2, and their
    mean 4/3 is not a float64. *)
Lemma final_estimate_is_mean_of_medians_witness :
  let g := {| tape := fun n => Z.of_nat (7 * n * n + 3); cursor := 0 |} in
  exists (buckets : list (list Z)) (medians : list Q) (mean : Q),
    final_estimate [0; 0; 1] 3 g = Ok (round64 mean)
    /\ Permutation (concat buckets) (map (fun r => 2 ^ r) [0; 0; 1])
    /\ length buckets = 3%nat
    /\ Forall (fun b => length b = 1%nat) buckets
    /\ Forall2 is_median buckets medians
    /\ is_mean medians mean.
Proof.
  intros g. apply (final_estimate_is_mean_of_medians [0; 0; 1] 3 1 g 1).
  - lia.
  - lia.
  - reflexivity.
  - repeat constructor; lia.
  - simpl. lia.
Defined.

(** The same three trackers give [1.3333333333333333], and the two trackers
    0 and 60 in one group give [2^59]: the sum [1 + 2^60] rounds. *)
Example final_estimate_rounds :
  final_estimate [0; 0; 1] 3 {| tape := fun _ => 0; cursor := 0 |}
  = Ok (Finite (6004799503160661 # 4503599627370496))
  /\ final_estimate [0; 60] 1 {| tape := fun _ => 0; cursor := 0 |}
     = Ok (Finite (inject_Z (2 ^ 59))).
Proof. vm_compute. split; reflexivity. Qed.

End FlajoletMartinFacts.

(** ** Sampling *)

Module SamplingFacts.
Import Sampling SamplingSpec.

(** *** Sampling based on keys *)

Lemma h_ok (s : string) (num_buckets : Z) :
  0 < num_buckets ->
  h s num_buckets = Ok (SHA1.sha1_int s mod num_buckets)
  /\ 0 <= SHA1.sha1_int s mod num_buckets < num_buckets.
Proof.
  intros Hb. unfold h. destruct (Z.eqb_spec num_buckets 0); [lia|].
  split; [reflexivity|]. apply Z.mod_pos_bound. exact Hb.
Qed.

Lemma keyed_sample_from (lines : list string) (a b : Z) (SAMPLE : list string) :
  0 < b -> Forall well_formed_line lines ->
  for_each lines
    (fun line SAMPLE =>
       match unpack2 (split "," line) with
       | Raise e => Raised e SAMPLE
       | Ok (ip, ts) =>
           match h ip b with
           | Raise e => Raised e SAMPLE
           | Ok v => if v <? a then Done (SAMPLE ++ [ip]) else Done SAMPLE
           end
       end) SAMPLE
  = Done (SAMPLE ++ filter (fun ip => SHA1.sha1_int ip mod b < a) (map key_of lines)).
Proof.
  intros Hb Hlines. revert SAMPLE.
  induction Hlines as [|line lines (ip & ts & Hline) _ IH]; intros SAMPLE; simpl.
  - rewrite app_nil_r. reflexivity.
  - unfold key_of at 1. rewrite Hline. simpl.
    destruct (h_ok ip b Hb) as [-> _]. rewrite filter_cons.
    destruct (Z.ltb_spec (SHA1.sha1_int ip mod b) a) as [Hlt|Hge];
      destruct (decide _) as [Hd|Hd]; try lia; simpl; rewrite IH.
    + rewrite <- app_assoc. reflexivity.
    + reflexivity.
Qed.

(** C7. Decision rule and consistency of the keyed sampler. For every
    [0 < a <= b]: the hash of every key is defined and lies in [[0, b)]; on a
    stream of lines [ip,ts] the loop keeps exactly the keys whose hash is
    below [a], in stream order; so a key is in the sample if and only if it
    occurs in the stream and its hash is below [a], whichever of its records
    is looked at. *)
Theorem keyed_sample_decision_rule (lines : list string) (a b : Z) :
  0 < a <= b ->
  Forall well_formed_line lines ->
  (forall key, h key b = Ok (SHA1.sha1_int key mod b)
               /\ 0 <= SHA1.sha1_int key mod b < b)
  /\ keyed_sample lines a b
     = Done (filter (fun ip => SHA1.sha1_int ip mod b < a) (map key_of lines))
  /\ (forall key SAMPLE,
        keyed_sample lines a b = Done SAMPLE ->
        (In key SAMPLE <-> In key (map key_of lines) /\ SHA1.sha1_int key mod b < a)).
Proof.
  intros Hab Hlines.
  assert (keyed_sample lines a b
          = Done (filter (fun ip => SHA1.sha1_int ip mod b < a) (map key_of lines))) as Hrun
    by (unfold keyed_sample; rewrite keyed_sample_from by (assumption || lia); reflexivity).
  split; [intros key; apply h_ok; lia|]. split; [exact Hrun|].
  intros key SAMPLE HS. rewrite Hrun in HS. injection HS as <-.
  rewrite <- !list_elem_of_In, list_elem_of_filter. tauto.
Qed.

(** The lecture's rate [a/b = 1/10] on six records of five keys. *)
Lemma keyed_sample_decision_rule_witness :
  keyed_sample ["apple,1"; "pear,2"; "banana,3"; "lemon,1"; "durian,4"; "apple,7"] 5 10
  = Done ["apple"; "lemon"; "durian"; "apple"]%string.
Proof.
  destruct (keyed_sample_decision_rule
              ["apple,1"; "pear,2"; "banana,3"; "lemon,1"; "durian,4"; "apple,7"] 5 10)
    as (_ & Hrun & _).
  - lia.
  - repeat constructor; eexists; eexists; reflexivity.
  - rewrite Hrun. vm_compute. reflexivity.
Defined.

(** *** Reservoir sampling *)

Lemma randint_range (t : Z) (g : rng) :
  0 < t -> exists pos g', randint 0 t g = (Ok pos, g') /\ 0 <= pos < t.
Proof.
  intros Ht. unfold randint, draw_below. destruct (Z.ltb_spec 0 t); [|lia].
  eexists. eexists. split; [reflexivity|].
  pose proof (Z.mod_pos_bound (tape g (cursor g)) (t - 0)). lia.
Qed.

(** At the driver's index [t = B], the first item after the reservoir is
    full, the draw is below [B]: the item is stored whatever is drawn. *)
Lemma handle_new_item_at_B (B : Z) (item : string) (RESERVOIR : list string) (g : rng) :
  1 <= B -> length RESERVOIR = Z.to_nat B ->
  exists pos g',
    0 <= pos < B
    /\ handle_new_item B B item (RESERVOIR, g)
       = (Ok (Replaced pos (length RESERVOIR) item),
          (<[Z.to_nat pos:=item]> RESERVOIR, g')).
Proof.
  intros HB Hlen. unfold handle_new_item. destruct (Z.ltb_spec B B); [lia|].
  destruct (randint_range B g ltac:(lia)) as (pos & g' & -> & Hpos).
  exists pos, g'. split; [exact Hpos|].
  destruct (Z.ltb_spec pos (Z.of_nat (length RESERVOIR))); [|lia].
  rewrite setitem_in_range by lia. reflexivity.
Qed.

(** C2. The draw of [handle_new_item] misses one value. With [B = 1] the
    second item of a stream reaches [handle_new_item] with [t = 1] (the index
    of [enumerate], one less than the number of items observed), the draw
    [np.random.randint(0, 1)] can only be 0, and the item replaces the first
    one whatever the generator does: it is never discarded, where a draw
    from the two values [[0, 1]] discards it when [p = 1]. *)
Theorem second_item_always_replaces_first (g : rng) :
  exists g', sample 1 ["A"; "B"] g = Done (["B"]%string, g')
             /\ handle_new_item 1 1 "B" (["A"]%string, g)
                = (Ok (Replaced 0 1 "B"), (["B"]%string, g')).
Proof.
  assert (handle_new_item 1 1 "B" (["A"]%string, g)
          = (Ok (Replaced 0 1 "B"),
             (["B"]%string, {| tape := tape g; cursor := S (cursor g) |}))) as Hsecond.
  { unfold handle_new_item, randint, draw_below. simpl.
    rewrite Z.mod_1_r. reflexivity. }
  eexists. split; [|exact Hsecond].
  unfold sample. cbn [Sampling.enumerate length range seq map zip zip_with for_each].
  change (handle_new_item 1 (0 + Z.of_nat 0) "A" (init_RESERVOIR 1, g))
    with (Ok (Added "A"), (["A"]%string, g)).
  cbn [bind_outcome]. change (0 + Z.of_nat 1) with 1. rewrite Hsecond. reflexivity.
Qed.

Lemma filled_init (B : Z) (S : list string) :
  filled (Z.to_nat B) S 0 (init_RESERVOIR B).
Proof.
  unfold filled, init_RESERVOIR. split; [apply length_replicate|].
  split; [intros i Hi; lia|]. intros i Hi. apply lookup_replicate_2. lia.
Qed.

Lemma handle_new_item_filled (B : Z) (S : list string) (k : nat) (item : string)
    (RESERVOIR : list string) (g : rng) :
  1 <= B -> In item S -> filled (Z.to_nat B) S k RESERVOIR ->
  exists msg RESERVOIR' g',
    handle_new_item B (Z.of_nat k) item (RESERVOIR, g) = (Ok msg, (RESERVOIR', g'))
    /\ filled (Z.to_nat B) S (Datatypes.S k) RESERVOIR'.
Proof.
  intros HB Hitem (Hlen & Hfull & Hempty). unfold handle_new_item.
  destruct (Z.ltb_spec (Z.of_nat k) B) as [Hlt|Hge].
  - rewrite setitem_in_range by lia. rewrite Nat2Z.id.
    eexists. eexists. eexists. split; [reflexivity|].
    split; [rewrite length_insert; exact Hlen|]. split.
    + intros i Hi. destruct (decide (i = k)) as [->|Hne].
      * exists item. split; [apply list_lookup_insert_eq; lia|exact Hitem].
      * rewrite list_lookup_insert_ne by congruence. apply Hfull. lia.
    + intros i Hi. rewrite list_lookup_insert_ne by lia. apply Hempty. lia.
  - destruct (randint_range (Z.of_nat k) g ltac:(lia)) as (pos & g' & -> & Hpos).
    destruct (Z.ltb_spec pos (Z.of_nat (length RESERVOIR))) as [Hin|Hout].
    + rewrite setitem_in_range by lia.
      eexists. eexists. eexists. split; [reflexivity|].
      split; [rewrite length_insert; exact Hlen|]. split.
      * intros i Hi. destruct (decide (i = Z.to_nat pos)) as [->|Hne].
        -- exists item. split; [apply list_lookup_insert_eq; lia|exact Hitem].
        -- rewrite list_lookup_insert_ne by congruence. apply Hfull. lia.
      * intros i Hi. lia.
    + eexists. eexists. eexists. split; [reflexivity|].
      split; [exact Hlen|]. split.
      * intros i Hi. apply Hfull. lia.
      * intros i Hi. lia.
Qed.

Lemma sample_from (B : Z) (S items : list string) (k : nat) (RESERVOIR : list string)
    (g : rng) :
  1 <= B -> (forall item, In item items -> In item S) ->
  filled (Z.to_nat B) S k RESERVOIR ->
  exists RESERVOIR' g',
    for_each (zip (range (Z.of_nat k) (length items)) items)
      (fun '(t, item) st =>
         match handle_new_item B t item st with
         | (Ok _, st') => Done st'
         | (Raise e, st') => Raised e st'
         end)
      (RESERVOIR, g)
    = Done (RESERVOIR', g')
    /\ filled (Z.to_nat B) S (k + length items) RESERVOIR'.
Proof.
  intros HB. revert k RESERVOIR g.
  induction items as [|item items IH]; intros k RESERVOIR g Hin Hfilled.
  - exists RESERVOIR, g. split; [reflexivity|]. rewrite Nat.add_0_r. exact Hfilled.
  - cbn [length]. rewrite range_cons. cbn [zip zip_with for_each].
    destruct (handle_new_item_filled B S k item RESERVOIR g HB
                (Hin item (or_introl eq_refl)) Hfilled)
      as (msg & R1 & g1 & -> & Hfilled1).
    cbn [bind_outcome].
    replace (Z.of_nat k + 1) with (Z.of_nat (Datatypes.S k)) by lia.
    destruct (IH (Datatypes.S k) R1 g1) as (R' & g' & Hrun & Hfilled');
      [intros x Hx; apply Hin; right; exact Hx|exact Hfilled1|].
    exists R', g'. split; [exact Hrun|].
    replace (k + Datatypes.S (length items))%nat
      with (Datatypes.S k + length items)%nat by lia. exact Hfilled'.
Qed.

(** C6 (amended). For every capacity [B >= 1], every stream and every
    generator, the loop finishes and the reservoir is a list of exactly [B]
    slots: the first [min(N, B)] hold items of the stream and the others
    still hold the placeholder ['_'], so the length is [min(N, B)] once
    [N >= B]. *)
Theorem reservoir_has_B_slots (B : Z) (stream : list string) (g : rng) :
  1 <= B ->
  exists RESERVOIR g',
    sample B stream g = Done (RESERVOIR, g')
    /\ length RESERVOIR = Z.to_nat B
    /\ (forall i, (i < Nat.min (length stream) (Z.to_nat B))%nat ->
          exists item, RESERVOIR !! i = Some item /\ In item stream)
    /\ (forall i, (Nat.min (length stream) (Z.to_nat B) <= i < Z.to_nat B)%nat ->
          RESERVOIR !! i = Some "_"%string)
    /\ ((Z.to_nat B <= length stream)%nat ->
        length RESERVOIR = Nat.min (length stream) (Z.to_nat B)).
Proof.
  intros HB.
  destruct (sample_from B stream stream 0 (init_RESERVOIR B) g HB ltac:(auto)
              (filled_init B stream)) as (R & g' & Hrun & Hlen & Hfull & Hempty).
  exists R, g'. split; [exact Hrun|]. split; [exact Hlen|].
  split; [exact Hfull|]. split; [exact Hempty|]. lia.
Qed.

(** A stream of seven letters through a reservoir of three slots. *)
Lemma reservoir_has_B_slots_witness :
  exists RESERVOIR g',
    sample 3 ["A"; "B"; "C"; "D"; "E"; "F"; "G"] zero_rng = Done (RESERVOIR, g')
    /\ length RESERVOIR = 3%nat.
Proof.
  destruct (reservoir_has_B_slots 3 ["A"; "B"; "C"; "D"; "E"; "F"; "G"] zero_rng)
    as (R & g' & Hrun & Hlen & _); [lia|].
  exists R, g'. split; [exact Hrun|exact Hlen].
Defined.

(** C6, as stated, fails while the reservoir fills: after one item a
    reservoir of capacity 2 is the list [['A', '_']], of length 2 and not
    [min(1, 2) = 1]. *)
Lemma reservoir_length_is_B_before_full :
  sample 2 ["A"] zero_rng = Done (["A"; "_"]%string, zero_rng)
  /\ length ["A"; "_"]%string <> Nat.min (length ["A"]%string) (Z.to_nat 2).
Proof. split; [reflexivity|]. simpl. lia. Qed.

End SamplingFacts.

(** * Further properties of the notebooks *)

(** ** Bloom filter: contents, lookups and errors *)

Module BloomMore.
Import BloomFilter BloomSpec BloomFacts BloomMoreSpec.

(** The bits of [B] after the first [n] hash functions of [add_key]. *)
Lemma add_key_prefix_bits (s : string) (num_digits n : nat) (B : bitarray) :
  (forall nr, 1 <= nr <= Z.of_nat n -> h s num_digits nr < Z.of_nat (length B)) ->
  exists B',
    for_each (range 1 n) (fun nr B => setitem (h s num_digits nr) true B) B = Done B'
    /\ length B' = length B
    /\ forall i, B' !! i = Some true <->
         B !! i = Some true
         \/ exists nr, 1 <= nr <= Z.of_nat n /\ Z.to_nat (h s num_digits nr) = i.
Proof.
  induction n as [|n IH]; intros Hin.
  - exists B. split; [reflexivity|]. split; [reflexivity|].
    intros i. split; [auto|]. intros [H|(nr & Hnr & _)]; [exact H|lia].
  - destruct IH as (B1 & Hrun & Hlen & Hbits); [intros nr Hnr; apply Hin; lia|].
    rewrite range_S, for_each_app, Hrun. simpl.
    pose proof (h_range s num_digits (1 + Z.of_nat n)) as Hh.
    specialize (Hin (1 + Z.of_nat n) ltac:(lia)).
    rewrite setitem_in_range by lia. eexists. split; [reflexivity|].
    split; [rewrite length_insert; exact Hlen|].
    intros i. rewrite list_lookup_insert_Some, Hbits. split.
    + intros [(<- & _ & _)|(Hne & [H|(nr & Hnr & Hpos)])].
      * right. exists (1 + Z.of_nat n). split; [lia|reflexivity].
      * left. exact H.
      * right. exists nr. split; [lia|exact Hpos].
    + intros [H|(nr & Hnr & Hpos)].
      * destruct (decide (Z.to_nat (h s num_digits (1 + Z.of_nat n)) = i)) as [Heq|Hne].
        -- left. split; [exact Heq|]. split; [reflexivity|]. lia.
        -- right. split; [exact Hne|]. left. exact H.
      * destruct (decide (Z.to_nat (h s num_digits (1 + Z.of_nat n)) = i)) as [Heq|Hne].
        -- left. split; [exact Heq|]. split; [reflexivity|]. lia.
        -- right. split; [exact Hne|]. right. exists nr. split; [|exact Hpos].
           assert (nr <> 1 + Z.of_nat n) by (intros ->; congruence). lia.
Qed.

Lemma add_key_bits (s : string) (B : bitarray) (num_digits : nat) (num_hash_functions : Z) :
  positions_in_range B s num_digits num_hash_functions ->
  exists B',
    add_key s B num_digits num_hash_functions = Done B'
    /\ length B' = length B
    /\ forall i, B' !! i = Some true <->
         B !! i = Some true \/ hashed_to [s] num_digits num_hash_functions i.
Proof.
  intros Hin. unfold add_key.
  destruct (add_key_prefix_bits s num_digits (Z.to_nat num_hash_functions) B)
    as (B' & Hrun & Hlen & Hbits); [intros nr Hnr; apply Hin; lia|].
  exists B'. split; [exact Hrun|]. split; [exact Hlen|].
  intros i. rewrite Hbits. split; (intros [H|H]; [left; exact H|right]).
  - destruct H as (nr & Hnr & Hpos). exists s, nr. simpl. split; [auto|]. split; [lia|exact Hpos].
  - destruct H as (s' & nr & [<-|[]] & Hnr & Hpos). exists nr. split; [lia|exact Hpos].
Qed.

Lemma room_positions (s : string) (B : bitarray) (num_digits : nat) (num_hash_functions : Z) :
  10 ^ Z.of_nat num_digits <= Z.of_nat (length B) ->
  positions_in_range B s num_digits num_hash_functions.
Proof. intros Hlen nr _. pose proof (h_range s num_digits nr). lia. Qed.

Lemma fill_B_bits (S : list string) (B : bitarray) (num_digits : nat) (num_hash_functions : Z) :
  10 ^ Z.of_nat num_digits <= Z.of_nat (length B) ->
  exists B',
    fill_B S B num_digits num_hash_functions = Done B'
    /\ length B' = length B
    /\ forall i, B' !! i = Some true <->
         B !! i = Some true \/ hashed_to S num_digits num_hash_functions i.
Proof.
  unfold fill_B. revert B. induction S as [|s S IH]; intros B Hlen; simpl.
  - exists B. split; [reflexivity|]. split; [reflexivity|].
    intros i. split; [auto|]. intros [H|(s & nr & [] & _)]. exact H.
  - destruct (add_key_bits s B num_digits num_hash_functions) as (B1 & -> & Hlen1 & Hbits1);
      [apply room_positions; exact Hlen|].
    simpl. destruct (IH B1) as (B' & Hrun & Hlen' & Hbits'); [rewrite Hlen1; exact Hlen|].
    exists B'. split; [exact Hrun|]. split; [congruence|].
    intros i. rewrite Hbits', Hbits1. unfold hashed_to. simpl. split.
    + intros [[H|(s' & nr & [<-|[]] & Hnr & Hpos)]|(s' & nr & Hs' & Hnr & Hpos)]; eauto 10.
    + intros [H|(s' & nr & [<-|Hs'] & Hnr & Hpos)]; eauto 10.
Qed.

(** X1. Contents of the basic filter: starting from a bit array with room for
    every hash value, [fill_B] finishes, keeps the length, and afterwards a
    bit is 1 exactly when it was 1 before or one of the hash functions sends
    one of the inserted keys to it. *)
Theorem fill_B_sets_exactly_the_hashed_bits (S : list string) (B : bitarray)
    (num_digits : nat) (num_hash_functions : Z) :
  10 ^ Z.of_nat num_digits <= Z.of_nat (length B) ->
  exists B',
    fill_B S B num_digits num_hash_functions = Done B'
    /\ length B' = length B
    /\ forall i, B' !! i = Some true <->
         B !! i = Some true \/ hashed_to S num_digits num_hash_functions i.
Proof. apply fill_B_bits. Qed.

Lemma fill_B_sets_exactly_the_hashed_bits_witness :
  exists B',
    fill_B ["alice@gmail.com"; "bob@yahoo.com"] (init_B 10) 1 3 = Done B'
    /\ length B' = length (init_B 10)
    /\ forall i, B' !! i = Some true <->
         init_B 10 !! i = Some true
         \/ hashed_to ["alice@gmail.com"; "bob@yahoo.com"] 1 3 i.
Proof.
  apply (fill_B_sets_exactly_the_hashed_bits ["alice@gmail.com"; "bob@yahoo.com"] (init_B 10) 1 3).
  vm_compute. discriminate.
Defined.

(** Two bit arrays of the same length with the same 1 bits are equal. *)
Lemma bitarray_eq (B1 B2 : bitarray) :
  length B1 = length B2 ->
  (forall i, B1 !! i = Some true <-> B2 !! i = Some true) -> B1 = B2.
Proof.
  intros Hlen Hbits. apply list_eq. intros i.
  destruct (B1 !! i) as [b1|] eqn:H1, (B2 !! i) as [b2|] eqn:H2.
  - specialize (Hbits i). rewrite H1, H2 in Hbits.
    destruct b1, b2; try reflexivity; destruct Hbits as [Ha Hb];
      [specialize (Ha eq_refl)|specialize (Hb eq_refl)]; congruence.
  - apply lookup_lt_Some in H1. apply lookup_ge_None in H2. lia.
  - apply lookup_lt_Some in H2. apply lookup_ge_None in H1. lia.
  - reflexivity.
Qed.

(** X2. The basic filter does not depend on the order of the keys nor on
    repeated keys: two lists with the same keys give the same bit array. *)
Theorem fill_B_depends_on_the_set_of_keys (S1 S2 : list string) (B : bitarray)
    (num_digits : nat) (num_hash_functions : Z) :
  10 ^ Z.of_nat num_digits <= Z.of_nat (length B) ->
  (forall s, In s S1 <-> In s S2) ->
  fill_B S1 B num_digits num_hash_functions = fill_B S2 B num_digits num_hash_functions.
Proof.
  intros Hlen Hsame.
  destruct (fill_B_bits S1 B num_digits num_hash_functions Hlen) as (B1 & -> & Hlen1 & Hbits1).
  destruct (fill_B_bits S2 B num_digits num_hash_functions Hlen) as (B2 & -> & Hlen2 & Hbits2).
  f_equal. apply bitarray_eq; [congruence|].
  intros i. rewrite Hbits1, Hbits2. unfold hashed_to.
  split; (intros [H|(s & nr & Hs & Hrest)]; [left; exact H|right; exists s, nr]);
    (split; [apply Hsame; exact Hs|exact Hrest]).
Qed.

Lemma fill_B_depends_on_the_set_of_keys_witness :
  fill_B ["alice@gmail.com"; "bob@yahoo.com"; "alice@gmail.com"] (init_B 10) 1 3
  = fill_B ["bob@yahoo.com"; "alice@gmail.com"] (init_B 10) 1 3.
Proof.
  apply fill_B_depends_on_the_set_of_keys.
  - vm_compute. discriminate.
  - intros s. simpl. tauto.
Defined.

(** A loop that adds one to [cnt] for every hash function passing [test]
    ends with the number of hash functions that pass. *)
Lemma count_loop (test : Z -> bool) (body : Z -> Z -> outcome Z) (n : nat) (cnt : Z) :
  (forall nr c, 1 <= nr <= Z.of_nat n -> body nr c = Done (c + Z.b2z (test nr))) ->
  exists c,
    for_each (range 1 n) body cnt = Done (cnt + c)
    /\ 0 <= c <= Z.of_nat n
    /\ (c = Z.of_nat n <-> forall nr, 1 <= nr <= Z.of_nat n -> test nr = true).
Proof.
  induction n as [|n IH]; intros Hbody.
  - exists 0. split; [simpl; f_equal; lia|]. split; [lia|].
    split; [intros _ nr Hnr; lia|reflexivity].
  - destruct IH as (c & Hrun & Hc & Hall); [intros nr c Hnr; apply Hbody; lia|].
    rewrite range_S, for_each_app, Hrun. simpl. rewrite Hbody by lia. cbn [bind_outcome].
    exists (c + Z.b2z (test (1 + Z.of_nat n))). split; [f_equal; lia|].
    destruct (test (1 + Z.of_nat n)) eqn:Htest; simpl Z.b2z.
    + split; [lia|]. split.
      * intros Heq nr Hnr. destruct (decide (nr = 1 + Z.of_nat n)) as [->|Hne]; [exact Htest|].
        apply Hall; lia.
      * intros H. assert (c = Z.of_nat n) by (apply Hall; intros nr Hnr; apply H; lia). lia.
    + split; [lia|]. split; [lia|].
      intros H. specialize (H (1 + Z.of_nat n) ltac:(lia)). congruence.
Qed.

(** X3. Lookup in the basic filter, for a key whose positions are indexes of
    [B]: [check_key] returns [True] exactly when [num_hash_functions] is not
    negative and every position of the key holds a 1. So with no hash
    function every key is reported present, and on the all-zero array of
    [init_B] with at least one hash function every key is reported absent. *)
Theorem check_key_true_iff_all_positions_set (s : string) (B : bitarray)
    (num_digits : nat) (num_hash_functions : Z) :
  positions_in_range B s num_digits num_hash_functions ->
  (exists found,
     check_key s B num_digits num_hash_functions = Ok found
     /\ (found = true <-> 0 <= num_hash_functions
                          /\ all_set B s num_digits num_hash_functions))
  /\ (num_hash_functions = 0 -> check_key s B num_digits num_hash_functions = Ok true)
  /\ (1 <= num_hash_functions -> B = init_B (length B) ->
      check_key s B num_digits num_hash_functions = Ok false).
Proof.
  intros Hin.
  assert (exists found,
     check_key s B num_digits num_hash_functions = Ok found
     /\ (found = true <-> 0 <= num_hash_functions
                          /\ all_set B s num_digits num_hash_functions)) as Hmain.
  { unfold check_key.
    destruct (count_loop
                (fun nr => default false (B !! Z.to_nat (h s num_digits nr)))
                (fun nr cnt =>
                   match getitem B (h s num_digits nr) with
                   | Ok bit => Done (cnt + Z.b2z bit)
                   | Raise e => Raised e cnt
                   end)
                (Z.to_nat num_hash_functions) 0) as (c & -> & Hc & Hall).
    { intros nr c Hnr. pose proof (h_range s num_digits nr) as Hh.
      specialize (Hin nr ltac:(lia)).
      destruct (lookup_lt_is_Some_2 B (Z.to_nat (h s num_digits nr)) ltac:(lia)) as [bit Hbit].
      rewrite (getitem_in_range _ _ bit) by (lia || exact Hbit). rewrite Hbit. reflexivity. }
    eexists. split; [reflexivity|]. rewrite Z.eqb_eq. unfold all_set. split.
    - intros Heq. split; [lia|]. intros nr Hnr.
      assert (c = Z.of_nat (Z.to_nat num_hash_functions)) as Hcn by lia.
      pose proof (proj1 Hall Hcn nr ltac:(lia)) as Htest.
      pose proof (h_range s num_digits nr) as Hh. specialize (Hin nr Hnr).
      destruct (lookup_lt_is_Some_2 B (Z.to_nat (h s num_digits nr)) ltac:(lia)) as [bit Hbit].
      rewrite Hbit in Htest |- *. simpl in Htest. congruence.
    - intros [Hn Hset].
      assert (c = Z.of_nat (Z.to_nat num_hash_functions)); [|lia].
      apply Hall. intros nr Hnr. rewrite Hset by lia. reflexivity. }
  split; [exact Hmain|]. destruct Hmain as (found & Hrun & Hiff). split.
  - intros ->. rewrite Hrun. f_equal. apply Hiff. split; [lia|]. intros nr Hnr. lia.
  - intros Hn Hzero. rewrite Hrun. f_equal. destruct found; [|reflexivity].
    destruct (proj1 Hiff eq_refl) as [_ Hset]. specialize (Hset 1 ltac:(lia)).
    rewrite Hzero in Hset. unfold init_B in Hset.
    apply lookup_replicate in Hset as [Hset _]. discriminate.
Qed.

Lemma check_key_true_iff_all_positions_set_witness :
  check_key "scammer@hotmail.com" (init_B 100) 2 3 = Ok false.
Proof.
  destruct (check_key_true_iff_all_positions_set "scammer@hotmail.com" (init_B 100) 2 3)
    as (_ & _ & Hempty).
  - intros nr _. pose proof (h_range "scammer@hotmail.com" 2 nr) as Hh.
    change (Z.of_nat (length (init_B 100))) with 100.
    change (10 ^ Z.of_nat 2) with 100 in Hh. lia.
  - apply Hempty; [lia|reflexivity].
Defined.

Lemma setitem_out_of_range {A : Type} (l : list A) (i : Z) (v : A) :
  Z.of_nat (length l) <= i -> setitem i v l = Raised IndexError l.
Proof.
  intros Hi. unfold setitem, norm_index.
  destruct (Z.leb_spec 0 i), (Z.ltb_spec i (Z.of_nat (length l))); simpl; try lia;
    destruct (Z.leb_spec (- Z.of_nat (length l)) i), (Z.ltb_spec i 0); simpl; try lia;
    reflexivity.
Qed.

Lemma getitem_out_of_range {A : Type} (l : list A) (i : Z) :
  Z.of_nat (length l) <= i -> getitem l i = Raise IndexError.
Proof.
  intros Hi. unfold getitem, norm_index.
  destruct (Z.leb_spec 0 i), (Z.ltb_spec i (Z.of_nat (length l))); simpl; try lia;
    destruct (Z.leb_spec (- Z.of_nat (length l)) i), (Z.ltb_spec i 0); simpl; try lia;
    reflexivity.
Qed.

(** A loop over the hash functions whose turn on [nr] finishes when the
    position of [nr] is an index of [B] and raises [IndexError] otherwise:
    it finishes when all positions are indexes and raises otherwise. *)
Lemma index_loop {St : Type} (P : St -> Prop) (s : string) (num_digits : nat)
    (B : bitarray) (body : Z -> St -> outcome St) (n : nat) (st : St) :
  P st ->
  (forall nr st, P st -> h s num_digits nr < Z.of_nat (length B) ->
     exists st', body nr st = Done st' /\ P st') ->
  (forall nr st, P st -> Z.of_nat (length B) <= h s num_digits nr ->
     body nr st = Raised IndexError st) ->
  (exists st', for_each (range 1 n) body st = Done st' /\ P st'
               /\ forall nr, 1 <= nr <= Z.of_nat n -> h s num_digits nr < Z.of_nat (length B))
  \/ (exists st' nr, for_each (range 1 n) body st = Raised IndexError st' /\ P st'
                     /\ 1 <= nr <= Z.of_nat n /\ Z.of_nat (length B) <= h s num_digits nr).
Proof.
  intros Hst Hok Hbad. induction n as [|n IH].
  - left. exists st. split; [reflexivity|]. split; [exact Hst|]. intros nr Hnr. lia.
  - rewrite range_S, for_each_app.
    destruct IH as [(st1 & -> & Hst1 & Hall)|(st1 & nr & -> & Hst1 & Hnr & Hout)].
    + simpl. destruct (Z.lt_ge_cases (h s num_digits (1 + Z.of_nat n)) (Z.of_nat (length B)))
        as [Hlt|Hge].
      * destruct (Hok _ _ Hst1 Hlt) as (st' & -> & Hst'). left. exists st'.
        split; [reflexivity|]. split; [exact Hst'|]. intros nr Hnr.
        destruct (decide (nr = 1 + Z.of_nat n)) as [->|Hne]; [exact Hlt|apply Hall; lia].
      * rewrite (Hbad _ _ Hst1 Hge). right. exists st1, (1 + Z.of_nat n).
        split; [reflexivity|]. split; [exact Hst1|]. split; [lia|exact Hge].
    + right. exists st1, nr. split; [reflexivity|]. split; [exact Hst1|]. split; [lia|exact Hout].
Qed.

(** X4. Index errors of the basic filter. [add_key] finishes exactly when
    every position of the key is an index of [B]; when a position is beyond
    the array, [add_key] raises [IndexError] (the length of [B] unchanged)
    and so does [check_key]. *)
Theorem add_key_and_check_key_index_errors (s : string) (B : bitarray)
    (num_digits : nat) (num_hash_functions : Z) :
  ((exists B', add_key s B num_digits num_hash_functions = Done B')
   <-> positions_in_range B s num_digits num_hash_functions)
  /\ (~ positions_in_range B s num_digits num_hash_functions ->
      (exists B', add_key s B num_digits num_hash_functions = Raised IndexError B'
                  /\ length B' = length B)
      /\ check_key s B num_digits num_hash_functions = Raise IndexError).
Proof.
  assert ((exists B', add_key s B num_digits num_hash_functions = Done B'
                      /\ positions_in_range B s num_digits num_hash_functions)
          \/ (exists B', add_key s B num_digits num_hash_functions = Raised IndexError B'
                         /\ length B' = length B
                         /\ ~ positions_in_range B s num_digits num_hash_functions)) as Hadd.
  { unfold add_key.
    destruct (index_loop (fun B' : bitarray => length B' = length B) s num_digits B
                (fun nr B => setitem (h s num_digits nr) true B)
                (Z.to_nat num_hash_functions) B eq_refl)
      as [(B' & Hrun & _ & Hall)|(B' & nr & Hrun & Hlen & Hnr & Hout)].
    - intros nr B0 HB0 Hlt. pose proof (h_range s num_digits nr).
      rewrite setitem_in_range by lia. eexists. split; [reflexivity|].
      rewrite length_insert. exact HB0.
    - intros nr B0 HB0 Hge. apply setitem_out_of_range. lia.
    - left. exists B'. split; [exact Hrun|]. intros nr Hnr. apply Hall. lia.
    - right. exists B'. split; [exact Hrun|]. split; [exact Hlen|].
      intros Hin. specialize (Hin nr ltac:(lia)). lia. }
  assert (~ positions_in_range B s num_digits num_hash_functions ->
          check_key s B num_digits num_hash_functions = Raise IndexError) as Hcheck.
  { intros Hnot. unfold check_key.
    destruct (index_loop (fun _ : Z => True) s num_digits B
                (fun nr cnt =>
                   match getitem B (h s num_digits nr) with
                   | Ok bit => Done (cnt + Z.b2z bit)
                   | Raise e => Raised e cnt
                   end)
                (Z.to_nat num_hash_functions) 0 I)
      as [(c & _ & _ & Hall)|(c & nr & -> & _)]; [| |exfalso|reflexivity].
    - intros nr c _ Hlt. pose proof (h_range s num_digits nr).
      destruct (lookup_lt_is_Some_2 B (Z.to_nat (h s num_digits nr)) ltac:(lia)) as [bit Hbit].
      rewrite (getitem_in_range _ _ bit) by (lia || exact Hbit). eauto.
    - intros nr c _ Hge. rewrite getitem_out_of_range by lia. reflexivity.
    - apply Hnot. intros nr Hnr. apply Hall. lia. }
  split; [split|].
  - intros [B' Hrun]. destruct Hadd as [(B1 & _ & Hin)|(B1 & Hr & _)]; [exact Hin|congruence].
  - intros Hin. destruct Hadd as [(B1 & Hr & _)|(B1 & _ & _ & Hnot)]; [eauto|contradiction].
  - intros Hnot. split; [|apply Hcheck; exact Hnot].
    destruct Hadd as [(B1 & _ & Hin)|(B1 & Hr & Hlen & _)]; [contradiction|eauto].
Qed.

(** A bit array of 5 bits is too short for the positions 2, 6 and 9 of
    ['Hello World']. *)
Lemma add_key_and_check_key_index_errors_witness :
  check_key "Hello World" (init_B 5) 1 3 = Raise IndexError.
Proof.
  apply (add_key_and_check_key_index_errors "Hello World" (init_B 5) 1 3).
  intros Hin. specialize (Hin 2 ltac:(lia)). vm_compute in Hin. discriminate.
Defined.

End BloomMore.

(** ** Counting Bloom filter: counters, round trips and errors *)

Module CountingMore.
Import BloomFilter BloomSpec BloomFacts BloomMoreSpec BloomMore.

Lemma lookup_map_seq {A : Type} (f : nat -> A) (n i : nat) :
  (i < n)%nat -> map f (seq 0 n) !! i = Some (f i).
Proof.
  induction n as [|n IH]; intros Hi; [lia|].
  rewrite seq_S, map_app. simpl. destruct (decide (i = n)) as [->|Hne].
  - rewrite lookup_app_r by (rewrite length_map, length_seq; lia).
    rewrite length_map, length_seq, Nat.sub_diag. reflexivity.
  - rewrite lookup_app_l by (rewrite length_map, length_seq; lia). apply IH. lia.
Qed.

(** Bit [j] of the value of a counter is its [j]-th bit from the right. *)
Lemma testbit_decode (l : bitarray) (j : nat) :
  (j < length l)%nat ->
  Z.testbit (decode l) (Z.of_nat j) = default false (l !! (length l - 1 - j)%nat).
Proof.
  revert j. induction l as [|b l IH] using rev_ind; intros j Hj; [simpl in Hj; lia|].
  rewrite decode_snoc, length_app in *. simpl length in *. destruct j as [|j].
  - rewrite Z.testbit_0_r.
    replace (length l + 1 - 1 - 0)%nat with (length l + 0)%nat by lia.
    rewrite lookup_app_r, Nat.add_0_r, Nat.sub_diag by lia. reflexivity.
  - rewrite Nat2Z.inj_succ, Z.testbit_succ_r, IH by lia.
    replace (length l + 1 - 1 - S j)%nat with (length l - 1 - j)%nat by lia.
    rewrite lookup_app_l by lia. reflexivity.
Qed.

Lemma format_bin_decode (counter : bitarray) :
  counter <> [] -> format_bin (length counter) (decode counter) = counter.
Proof.
  intros Hne.
  assert (1 <= length counter)%nat as Hlen by (destruct counter; [congruence|simpl; lia]).
  unfold format_bin. rewrite bit_length_le by (exact Hlen || apply decode_bound).
  apply list_eq. intros i. destruct (decide (i < length counter)%nat) as [Hi|Hi].
  - rewrite lookup_map_seq by exact Hi. rewrite testbit_decode by lia.
    replace (length counter - 1 - (length counter - 1 - i))%nat with i by lia.
    destruct (lookup_lt_is_Some_2 counter i Hi) as [b ->]. reflexivity.
  - rewrite !lookup_ge_None_2; [reflexivity|lia|rewrite length_map, length_seq; lia].
Qed.

Lemma lt_pow2_bit_length (v : Z) : 0 <= v -> v < 2 ^ Z.of_nat (bit_length v).
Proof.
  intros Hv. unfold bit_length. destruct (Z.eqb_spec v 0) as [->|Hne]; [reflexivity|].
  pose proof (Z.log2_spec v ltac:(lia)) as [_ Hlt]. pose proof (Z.log2_nonneg v).
  rewrite Nat2Z.inj_succ, Z2Nat.id by lia. exact Hlt.
Qed.

Lemma ba2int_Ok (counter : bitarray) (v : Z) :
  ba2int counter = Ok v -> counter <> [] /\ v = decode counter.
Proof. destruct counter; [discriminate|]. intros [= <-]. split; [discriminate|reflexivity]. Qed.

(** X5. Counters and integers round-trip: the bit string [format] prints
    for [v >= 0], at any width, reads back as [v] with [ba2int]; and a
    bitarray that [ba2int] reads as [v] is what [format] prints for [v] at
    the width of the bitarray. *)
Theorem ba2int_format_round_trip :
  (forall (width : nat) (v : Z), 0 <= v -> ba2int (format_bin width v) = Ok v)
  /\ (forall (counter : bitarray) (v : Z),
        ba2int counter = Ok v -> format_bin (length counter) v = counter).
Proof.
  split.
  - intros width v Hv. unfold format_bin.
    set (len := Nat.max width (bit_length v)).
    assert (v < 2 ^ Z.of_nat len) as Hlt.
    { eapply Z.lt_le_trans; [apply lt_pow2_bit_length; exact Hv|].
      apply Z.pow_le_mono_r; lia. }
    assert (1 <= len)%nat as Hlen
      by (unfold len, bit_length; destruct (v =? 0); lia).
    rewrite ba2int_decode.
    + rewrite decode_digits by lia. rewrite Nat.sub_diag. simpl. rewrite Z.div_1_r. reflexivity.
    + intros Hnil. apply (f_equal length) in Hnil.
      rewrite length_map, length_seq in Hnil. simpl in Hnil. lia.
  - intros counter v Hv. apply ba2int_Ok in Hv as [Hne ->]. apply format_bin_decode. exact Hne.
Qed.

Lemma ba2int_format_round_trip_witness : ba2int (format_bin 4%nat 5) = Ok 5.
Proof. apply (proj1 ba2int_format_round_trip 4%nat 5). lia. Defined.

(** X6. [update_counter] on a counter of [bits_per_counter] bits that reads
    as [v]: ['inc'] raises the overflow exception exactly at the maximum
    [2^bits_per_counter - 1] and otherwise gives the counter of [v + 1];
    anything else than ['inc'] decrements, raises the underflow exception
    exactly at 0 and otherwise gives the counter of [v - 1]; a decrement
    undoes an increment and an increment undoes a decrement, bit for bit. *)
Theorem update_counter_steps_or_raises (counter : bitarray) (bits_per_counter : nat) (v : Z) :
  length counter = bits_per_counter ->
  ba2int counter = Ok v ->
  update_counter counter bits_per_counter "inc"
  = (if v =? 2 ^ Z.of_nat bits_per_counter - 1 then Raise (Exception msg_overflow)
     else Ok (format_bin bits_per_counter (v + 1)))
  /\ (forall update, update <> "inc"%string ->
        update_counter counter bits_per_counter update
        = if v =? 0 then Raise (Exception msg_underflow)
          else Ok (format_bin bits_per_counter (v - 1)))
  /\ (forall counter',
        update_counter counter bits_per_counter "inc" = Ok counter' ->
        ba2int counter' = Ok (v + 1) /\ length counter' = bits_per_counter
        /\ update_counter counter' bits_per_counter "dec" = Ok counter)
  /\ (forall counter',
        update_counter counter bits_per_counter "dec" = Ok counter' ->
        ba2int counter' = Ok (v - 1) /\ length counter' = bits_per_counter
        /\ update_counter counter' bits_per_counter "inc" = Ok counter).
Proof.
  intros Hlen Hv. apply ba2int_Ok in Hv as [Hne ->].
  assert (1 <= bits_per_counter)%nat as Hbits
    by (destruct counter; [congruence|simpl in Hlen; lia]).
  pose proof (decode_bound counter) as Hbound. rewrite Hlen in Hbound.
  set (v := decode counter) in *.
  assert (update_counter counter bits_per_counter "inc"
          = (if v =? 2 ^ Z.of_nat bits_per_counter - 1 then Raise (Exception msg_overflow)
             else Ok (format_bin bits_per_counter (v + 1)))) as Hinc.
  { rewrite update_counter_spec by exact Hne. cbv zeta. simpl String.eqb. cbv iota. fold v.
    destruct (Z.ltb_spec (v + 1) 0); [lia|].
    destruct (Z.geb_spec (v + 1) (2 ^ Z.of_nat bits_per_counter)),
             (Z.eqb_spec v (2 ^ Z.of_nat bits_per_counter - 1)); try lia; reflexivity. }
  assert (forall update, update <> "inc"%string ->
          update_counter counter bits_per_counter update
          = if v =? 0 then Raise (Exception msg_underflow)
            else Ok (format_bin bits_per_counter (v - 1))) as Hdec.
  { intros update Hup. rewrite update_counter_spec by exact Hne. cbv zeta.
    destruct (String.eqb_spec update "inc") as [->|_]; [congruence|]. fold v.
    destruct (Z.ltb_spec (v - 1) 0), (Z.eqb_spec v 0); try lia; [reflexivity|].
    destruct (Z.geb_spec (v - 1) (2 ^ Z.of_nat bits_per_counter)); [lia|reflexivity]. }
  assert (forall w, 0 <= w < 2 ^ Z.of_nat bits_per_counter ->
            format_bin bits_per_counter w <> []
            /\ decode (format_bin bits_per_counter w) = w
            /\ length (format_bin bits_per_counter w) = bits_per_counter) as Hfmt.
  { intros w Hw. pose proof (length_format_bin bits_per_counter w Hbits Hw) as Hl.
    split; [|split; [apply decode_format_bin; assumption|exact Hl]].
    intros Hnil. rewrite Hnil in Hl. simpl in Hl. lia. }
  split; [exact Hinc|]. split; [exact Hdec|]. split.
  - intros counter' Hup. rewrite Hinc in Hup.
    destruct (Z.eqb_spec v (2 ^ Z.of_nat bits_per_counter - 1)); [discriminate|].
    injection Hup as <-. destruct (Hfmt (v + 1) ltac:(lia)) as (Hne' & Hdec' & Hlen').
    split; [rewrite ba2int_decode, Hdec' by exact Hne'; reflexivity|]. split; [exact Hlen'|].
    rewrite update_counter_spec by exact Hne'. cbv zeta. simpl String.eqb. cbv iota.
    rewrite Hdec'. replace (v + 1 - 1) with v by lia.
    destruct (Z.ltb_spec v 0); [lia|].
    destruct (Z.geb_spec v (2 ^ Z.of_nat bits_per_counter)); [lia|].
    f_equal. unfold v. rewrite <- Hlen. apply format_bin_decode. exact Hne.
  - intros counter' Hup. rewrite Hdec in Hup by discriminate.
    destruct (Z.eqb_spec v 0); [discriminate|].
    injection Hup as <-. destruct (Hfmt (v - 1) ltac:(lia)) as (Hne' & Hdec' & Hlen').
    split; [rewrite ba2int_decode, Hdec' by exact Hne'; reflexivity|]. split; [exact Hlen'|].
    rewrite update_counter_spec by exact Hne'. cbv zeta. simpl String.eqb. cbv iota.
    rewrite Hdec'. replace (v - 1 + 1) with v by lia.
    destruct (Z.ltb_spec v 0); [lia|].
    destruct (Z.geb_spec v (2 ^ Z.of_nat bits_per_counter)); [lia|].
    f_equal. unfold v. rewrite <- Hlen. apply format_bin_decode. exact Hne.
Qed.

Lemma update_counter_steps_or_raises_witness :
  update_counter [true; true; true] 3 "inc" = Raise (Exception msg_overflow)
  /\ update_counter [false; false; false] 3 "dec" = Raise (Exception msg_underflow).
Proof.
  destruct (update_counter_steps_or_raises [true; true; true] 3 7 eq_refl eq_refl)
    as (Hinc & _).
  destruct (update_counter_steps_or_raises [false; false; false] 3 0 eq_refl eq_refl)
    as (_ & Hdec & _).
  split; [exact Hinc|]. apply Hdec. discriminate.
Defined.

Section Counters.
Context (s : string) (num_digits num_buckets : nat) (num_hash_functions : Z)
        (bits_per_counter : nat).
Hypothesis Hbuckets : 10 ^ Z.of_nat num_digits <= Z.of_nat num_buckets.
Hypothesis Hbits : (1 <= bits_per_counter)%nat.

Abbreviation nrs := (range 1 (Z.to_nat num_hash_functions)).
Abbreviation top := (2 ^ Z.of_nat bits_per_counter - 1).

(** [update_key] finishes exactly when no counter leaves its range. *)
Lemma update_key_done_iff (update : string) (B : bitarray) :
  well_formed num_buckets bits_per_counter B ->
  (exists B', update_key s B num_digits num_hash_functions bits_per_counter update = Done B')
  <-> forall p, (p < num_buckets)%nat ->
        0 <= counter_at bits_per_counter B p + delta update * hits s num_digits nrs p <= top.
Proof.
  intros Hwf. unfold update_key. split.
  - intros [B' Hrun] p Hp.
    destruct (update_loop_done s num_digits num_buckets bits_per_counter update
                Hbuckets Hbits nrs B B' Hwf Hrun) as [Hwf' Hcnt].
    pose proof (counter_at_bound num_buckets bits_per_counter B' p Hwf' Hp) as Hb.
    rewrite (Hcnt p Hp) in Hb. lia.
  - intros Hrange.
    destruct (update_loop_total s num_digits num_buckets bits_per_counter update
                Hbuckets Hbits nrs B Hwf) as (B' & Hrun & _); [|eauto].
    intros p Hp. specialize (Hrange p Hp). lia.
Qed.

(** Two arrays of counters with the same counter values are equal. *)
Lemma counters_ext (B1 B2 : bitarray) :
  well_formed num_buckets bits_per_counter B1 ->
  well_formed num_buckets bits_per_counter B2 ->
  (forall p, (p < num_buckets)%nat ->
     counter_at bits_per_counter B1 p = counter_at bits_per_counter B2 p) ->
  B1 = B2.
Proof.
  unfold well_formed. intros Hwf1 Hwf2 Hcnt.
  assert (forall p, (p < num_buckets)%nat ->
            getslice B1 (p * bits_per_counter) (p * bits_per_counter + bits_per_counter)
            = getslice B2 (p * bits_per_counter) (p * bits_per_counter + bits_per_counter))
    as Hslices.
  { intros p Hp. specialize (Hcnt p Hp). unfold counter_at in Hcnt.
    set (c1 := getslice B1 _ _) in *. set (c2 := getslice B2 _ _) in *.
    assert (length c1 = bits_per_counter) as Hl1 by (apply length_getslice; nia).
    assert (length c2 = bits_per_counter) as Hl2 by (apply length_getslice; nia).
    rewrite <- (format_bin_decode c1), <- (format_bin_decode c2), Hl1, Hl2, Hcnt;
      [reflexivity| |]; intros Hnil; [rewrite Hnil in Hl2|rewrite Hnil in Hl1];
      simpl in *; lia. }
  apply list_eq. intros i.
  destruct (decide (i < num_buckets * bits_per_counter)%nat) as [Hi|Hi].
  - pose proof (Nat.div_mod_eq i bits_per_counter) as Hdm.
    assert (i mod bits_per_counter < bits_per_counter)%nat as Hmod
      by (apply Nat.mod_upper_bound; lia).
    assert (i / bits_per_counter < num_buckets)%nat as Hdiv
      by (apply Nat.Div0.div_lt_upper_bound; lia).
    specialize (Hslices _ Hdiv). unfold getslice in Hslices.
    apply (f_equal (fun l => l !! (i mod bits_per_counter)%nat)) in Hslices.
    rewrite !lookup_take_lt, !lookup_drop in Hslices by lia.
    replace (i / bits_per_counter * bits_per_counter + i mod bits_per_counter)%nat
      with i in Hslices by lia.
    exact Hslices.
  - rewrite !lookup_ge_None_2 by lia. reflexivity.
Qed.

Lemma update_key_undo (update undo : string) (B B1 : bitarray) :
  delta undo = - delta update ->
  well_formed num_buckets bits_per_counter B ->
  update_key s B num_digits num_hash_functions bits_per_counter update = Done B1 ->
  update_key s B1 num_digits num_hash_functions bits_per_counter undo = Done B.
Proof.
  intros Hdelta Hwf Hrun. unfold update_key in *.
  destruct (update_loop_done s num_digits num_buckets bits_per_counter update
              Hbuckets Hbits nrs B B1 Hwf Hrun) as [Hwf1 Hcnt1].
  destruct (update_loop_total s num_digits num_buckets bits_per_counter undo
              Hbuckets Hbits nrs B1 Hwf1) as (B2 & Hrun2 & Hwf2 & Hcnt2).
  { intros p Hp. rewrite (Hcnt1 p Hp), Hdelta.
    pose proof (counter_at_bound num_buckets bits_per_counter B p Hwf Hp). lia. }
  rewrite Hrun2. f_equal. apply counters_ext; [exact Hwf2|exact Hwf|].
  intros p Hp. rewrite (Hcnt2 p Hp), (Hcnt1 p Hp), Hdelta. lia.
Qed.

(** [update_key] on counters in good shape raises nothing but the exception
    of its direction. *)
Lemma update_loop_raised (update : string) (l : list Z) (B B' : bitarray) (e : exn) :
  well_formed num_buckets bits_per_counter B ->
  for_each l (update_pos s num_digits bits_per_counter update) B = Raised e B' ->
  e = Exception (if delta update =? 1 then msg_overflow else msg_underflow).
Proof.
  revert B. induction l as [|nr l IH]; intros B Hwf Hrun; [discriminate|].
  simpl for_each in Hrun.
  rewrite (update_pos_spec s num_digits num_buckets bits_per_counter update Hbuckets Hbits)
    in Hrun by exact Hwf.
  cbv zeta in Hrun.
  pose proof (pos_lt s num_digits num_buckets nr Hbuckets) as Hpos.
  pose proof (counter_at_bound num_buckets bits_per_counter B _ Hwf Hpos) as Hc.
  assert (delta update = 1 \/ delta update = -1) as Hd
    by (unfold delta; destruct (String.eqb update "insert"); auto).
  set (v := counter_at bits_per_counter B (Z.to_nat (h s num_digits nr)) + delta update) in *.
  destruct (Z.ltb_spec v 0) as [Hneg|Hnn].
  - injection Hrun as <- _. destruct Hd as [Hd|Hd]; rewrite Hd in *; [lia|reflexivity].
  - destruct (Z.geb_spec v (2 ^ Z.of_nat bits_per_counter)) as [Hbig|Hsmall].
    + injection Hrun as <- _. destruct Hd as [Hd|Hd]; rewrite Hd in *; [reflexivity|lia].
    + simpl bind_outcome in Hrun. eapply IH; [|exact Hrun].
      apply well_formed_setslice; [assumption..|]. apply length_format_bin; [assumption|lia].
Qed.

End Counters.

(** X7. Counting invariant and exact error conditions. On an array of
    [num_buckets] counters of [bits_per_counter >= 1] bits with a bucket for
    every hash value: [insert_key] finishes exactly when no counter, raised
    by the number of hash functions that send the key to it, passes
    [2^bits_per_counter - 1], and then every counter has grown by that
    number; [delete_key] finishes exactly when every counter is at least
    that number, and then every counter has shrunk by it. *)
Theorem counting_update_exact (s : string) (B : bitarray) (num_digits num_buckets : nat)
    (num_hash_functions : Z) (bits_per_counter : nat) :
  10 ^ Z.of_nat num_digits <= Z.of_nat num_buckets ->
  (1 <= bits_per_counter)%nat ->
  well_formed num_buckets bits_per_counter B ->
  let visits := hits s num_digits (range 1 (Z.to_nat num_hash_functions)) in
  ((exists B', insert_key s B num_digits num_hash_functions bits_per_counter = Done B')
   <-> forall p, (p < num_buckets)%nat ->
         counter_at bits_per_counter B p + visits p <= 2 ^ Z.of_nat bits_per_counter - 1)
  /\ ((exists B', delete_key s B num_digits num_hash_functions bits_per_counter = Done B')
      <-> forall p, (p < num_buckets)%nat -> visits p <= counter_at bits_per_counter B p)
  /\ (forall B', insert_key s B num_digits num_hash_functions bits_per_counter = Done B' ->
        well_formed num_buckets bits_per_counter B'
        /\ forall p, (p < num_buckets)%nat ->
             counter_at bits_per_counter B' p = counter_at bits_per_counter B p + visits p)
  /\ (forall B', delete_key s B num_digits num_hash_functions bits_per_counter = Done B' ->
        well_formed num_buckets bits_per_counter B'
        /\ forall p, (p < num_buckets)%nat ->
             counter_at bits_per_counter B' p = counter_at bits_per_counter B p - visits p).
Proof.
  intros Hn Hbits Hwf visits. unfold insert_key, delete_key.
  assert (forall p, (p < num_buckets)%nat ->
            0 <= counter_at bits_per_counter B p < 2 ^ Z.of_nat bits_per_counter) as Hb
    by (intros p Hp; apply (counter_at_bound num_buckets); assumption).
  assert (forall p, 0 <= visits p) as Hv by (intros p; apply hits_nonneg).
  split; [|split; [|split]].
  - rewrite (update_key_done_iff s num_digits num_buckets num_hash_functions
               bits_per_counter Hn Hbits "insert" B Hwf).
    change (delta "insert") with 1. fold visits.
    split; intros H p Hp; specialize (H p Hp); specialize (Hb p Hp); specialize (Hv p); lia.
  - rewrite (update_key_done_iff s num_digits num_buckets num_hash_functions
               bits_per_counter Hn Hbits "delete" B Hwf).
    change (delta "delete") with (-1). fold visits.
    split; intros H p Hp; specialize (H p Hp); specialize (Hb p Hp); specialize (Hv p); lia.
  - intros B' Hrun. unfold update_key in Hrun.
    destruct (update_loop_done s num_digits num_buckets bits_per_counter "insert"
                Hn Hbits _ B B' Hwf Hrun) as [Hwf' Hcnt].
    split; [exact Hwf'|]. intros p Hp. rewrite (Hcnt p Hp).
    change (delta "insert") with 1. unfold visits. lia.
  - intros B' Hrun. unfold update_key in Hrun.
    destruct (update_loop_done s num_digits num_buckets bits_per_counter "delete"
                Hn Hbits _ B B' Hwf Hrun) as [Hwf' Hcnt].
    split; [exact Hwf'|]. intros p Hp. rewrite (Hcnt p Hp).
    change (delta "delete") with (-1). unfold visits. lia.
Qed.

Lemma counting_update_exact_witness :
  ~ (exists B', delete_key "Hello World" (init_counting_B 10 3) 1 3 3 = Done B').
Proof.
  destruct (counting_update_exact "Hello World" (init_counting_B 10 3) 1 10 3 3)
    as (_ & Hdel & _).
  - simpl. lia.
  - lia.
  - apply well_formed_init.
  - intros Hex. pose proof (proj1 Hdel Hex 2%nat ltac:(lia)) as Hle.
    vm_compute in Hle. apply Hle. reflexivity.
Defined.

(** X8. Insert and delete undo each other: on an array of counters in good
    shape, a [delete_key] after a successful [insert_key] of the same key
    finishes and gives back the very same bit array, and so does an
    [insert_key] after a successful [delete_key]. *)
Theorem insert_delete_round_trip (s : string) (B B1 : bitarray)
    (num_digits num_buckets : nat) (num_hash_functions : Z) (bits_per_counter : nat) :
  10 ^ Z.of_nat num_digits <= Z.of_nat num_buckets ->
  (1 <= bits_per_counter)%nat ->
  well_formed num_buckets bits_per_counter B ->
  (insert_key s B num_digits num_hash_functions bits_per_counter = Done B1 ->
   delete_key s B1 num_digits num_hash_functions bits_per_counter = Done B)
  /\ (delete_key s B num_digits num_hash_functions bits_per_counter = Done B1 ->
      insert_key s B1 num_digits num_hash_functions bits_per_counter = Done B).
Proof.
  intros Hn Hbits Hwf. unfold insert_key, delete_key. split; intros Hrun.
  - eapply update_key_undo; [exact Hn|exact Hbits| |exact Hwf|exact Hrun]. reflexivity.
  - eapply update_key_undo; [exact Hn|exact Hbits| |exact Hwf|exact Hrun]. reflexivity.
Qed.

Lemma insert_delete_round_trip_witness :
  let B := init_counting_B 10 3 in
  let B1 := state_of (insert_key "Hello World" B 1 3 3) in
  delete_key "Hello World" B1 1 3 3 = Done B.
Proof.
  intros B B1.
  destruct (insert_delete_round_trip "Hello World" B B1 1 10 3 3) as [Hundo _].
  - simpl. lia.
  - lia.
  - apply well_formed_init.
  - apply Hundo. vm_compute. reflexivity.
Defined.

(** X9. Errors of a failed update. On an array of [num_buckets] counters of
    [bits_per_counter >= 1] bits with a bucket for every hash value
    ([10^num_digits <= num_buckets]), the only exception [insert_key] can
    raise is the overflow exception and the only one [delete_key] can raise
    is the underflow exception; and a failed update, like a successful one,
    keeps the length of [B] and every bit outside the counters of the key. *)
Theorem failed_update_error_and_frame (s : string) (B B' : bitarray) (e : exn)
    (num_digits num_buckets : nat) (num_hash_functions : Z) (bits_per_counter : nat) :
  10 ^ Z.of_nat num_digits <= Z.of_nat num_buckets ->
  (1 <= bits_per_counter)%nat ->
  well_formed num_buckets bits_per_counter B ->
  (insert_key s B num_digits num_hash_functions bits_per_counter = Raised e B' ->
   e = Exception msg_overflow
   /\ same_outside s num_digits num_hash_functions bits_per_counter B B')
  /\ (delete_key s B num_digits num_hash_functions bits_per_counter = Raised e B' ->
      e = Exception msg_underflow
      /\ same_outside s num_digits num_hash_functions bits_per_counter B B').
Proof.
  intros Hn Hbits Hwf. unfold insert_key, delete_key. split; intros Hrun.
  - split.
    + apply (update_loop_raised s num_digits num_buckets bits_per_counter Hn Hbits
               "insert" _ B B' e Hwf Hrun).
    + pose proof (update_key_frame s B num_digits num_buckets num_hash_functions
                    bits_per_counter "insert" Hn Hwf) as Hframe.
      rewrite Hrun in Hframe. exact Hframe.
  - split.
    + apply (update_loop_raised s num_digits num_buckets bits_per_counter Hn Hbits
               "delete" _ B B' e Hwf Hrun).
    + pose proof (update_key_frame s B num_digits num_buckets num_hash_functions
                    bits_per_counter "delete" Hn Hwf) as Hframe.
      rewrite Hrun in Hframe. exact Hframe.
Qed.

(** The fourth insert of a key that is hashed to 6, 6 and 9: it raises at
    the second hash function, after the first has raised bucket 6 from 6 to
    7. *)
Lemma failed_update_error_and_frame_witness :
  let s := "chris@comp.nus.edu.sg"%string in
  let B3 := state_of (insert_times 3 s (init_counting_B 10 3) 1 3 3) in
  let B' := state_of (insert_key s B3 1 3 3) in
  insert_key s B3 1 3 3 = Raised (Exception msg_overflow) B'
  /\ counter_at 3 B3 6 = 6 /\ counter_at 3 B' 6 = 7
  /\ same_outside s 1 3 3 B3 B'.
Proof.
  intros s B3 B'.
  assert (insert_key s B3 1 3 3 = Raised (Exception msg_overflow) B') as Hrun
    by (vm_compute; reflexivity).
  split; [exact Hrun|]. split; [vm_compute; reflexivity|].
  split; [vm_compute; reflexivity|].
  destruct (failed_update_error_and_frame s B3 B' (Exception msg_overflow) 1 10 3 3)
    as [Hins _].
  - simpl. lia.
  - lia.
  - vm_compute. reflexivity.
  - exact (proj2 (Hins Hrun)).
Defined.

Lemma In_range (lo : Z) (n : nat) (i : Z) :
  lo <= i < lo + Z.of_nat n -> In i (range lo n).
Proof.
  intros Hi. unfold range. apply in_map_iff. exists (Z.to_nat (i - lo)).
  split; [lia|]. apply in_seq. lia.
Qed.

Lemma hits_in (s : string) (num_digits : nat) (l : list Z) (nr : Z) :
  In nr l -> 1 <= hits s num_digits l (Z.to_nat (h s num_digits nr)).
Proof.
  induction l as [|nr' l IH]; intros Hin; [destruct Hin|]. simpl.
  pose proof (hits_nonneg s num_digits l (Z.to_nat (h s num_digits nr))).
  destruct Hin as [->|Hin].
  - destruct (decide _); [lia|congruence].
  - specialize (IH Hin). destruct (decide _); lia.
Qed.

Lemma check_key_counting_spec (s : string) (B : bitarray) (num_digits num_buckets : nat)
    (num_hash_functions : Z) (bits_per_counter : nat) :
  10 ^ Z.of_nat num_digits <= Z.of_nat num_buckets ->
  (1 <= bits_per_counter)%nat ->
  well_formed num_buckets bits_per_counter B ->
  exists found,
    check_key_counting bits_per_counter s B num_digits num_hash_functions = Ok found
    /\ (found = true <->
        0 <= num_hash_functions
        /\ forall nr, 1 <= nr <= num_hash_functions ->
             0 < counter_at bits_per_counter B (Z.to_nat (h s num_digits nr))).
Proof.
  intros Hn Hbits Hwf. unfold check_key_counting.
  match goal with
  | |- context [for_each _ ?body 0] =>
      destruct (count_loop
                  (fun nr => 0 <? counter_at bits_per_counter B (Z.to_nat (h s num_digits nr)))
                  body (Z.to_nat num_hash_functions) 0) as (c & Hrun & Hc & Hall)
  end.
  { intros nr c _. cbv zeta. unfold counter_at.
    set (counter := getslice B _ _).
    assert (length counter = bits_per_counter) as Hlen.
    { apply length_getslice. pose proof (pos_lt s num_digits num_buckets nr Hn).
      unfold well_formed in Hwf. nia. }
    rewrite ba2int_decode by (intros Hnil; rewrite Hnil in Hlen; simpl in Hlen; lia).
    rewrite Z.gtb_ltb. destruct (0 <? decode counter); simpl; f_equal; lia. }
  rewrite Hrun. eexists. split; [reflexivity|]. rewrite Z.eqb_eq. split.
  - intros Heq. split; [lia|]. intros nr Hnr. apply Z.ltb_lt. apply Hall; lia.
  - intros [Hnn Hpos]. assert (c = Z.of_nat (Z.to_nat num_hash_functions)); [|lia].
    apply Hall. intros nr Hnr. apply Z.ltb_lt. apply Hpos. lia.
Qed.

(** X10. Lookup in the counting filter, on an array of [num_buckets]
    counters of [bits_per_counter >= 1] bits with a bucket for every hash
    value ([10^num_digits <= num_buckets]): [check_key_counting] returns a
    boolean, [True] exactly when [num_hash_functions] is not negative and
    every counter of the key is above zero; on the all-zero array of
    [init_counting_B], with at least one hash function, every key is reported
    absent. *)
Theorem check_key_counting_true_iff_counters_positive (s : string) (B : bitarray)
    (num_digits num_buckets : nat) (num_hash_functions : Z) (bits_per_counter : nat) :
  10 ^ Z.of_nat num_digits <= Z.of_nat num_buckets ->
  (1 <= bits_per_counter)%nat ->
  well_formed num_buckets bits_per_counter B ->
  (exists found,
     check_key_counting bits_per_counter s B num_digits num_hash_functions = Ok found
     /\ (found = true <->
         0 <= num_hash_functions
         /\ forall nr, 1 <= nr <= num_hash_functions ->
              0 < counter_at bits_per_counter B (Z.to_nat (h s num_digits nr))))
  /\ (1 <= num_hash_functions -> B = init_counting_B num_buckets bits_per_counter ->
      check_key_counting bits_per_counter s B num_digits num_hash_functions = Ok false).
Proof.
  intros Hn Hbits Hwf.
  pose proof (check_key_counting_spec s B num_digits num_buckets num_hash_functions
                bits_per_counter Hn Hbits Hwf) as Hspec.
  split; [exact Hspec|]. destruct Hspec as (found & Hrun & Hiff).
  intros Hf ->. rewrite Hrun. f_equal. destruct found; [|reflexivity].
  destruct (proj1 Hiff eq_refl) as [_ Hpos]. specialize (Hpos 1 ltac:(lia)).
  rewrite counter_at_init in Hpos. lia.
Qed.

Lemma check_key_counting_true_iff_counters_positive_witness :
  check_key_counting 3 "erin@hotmail.com" (init_counting_B 100 3) 2 3 = Ok false.
Proof.
  destruct (check_key_counting_true_iff_counters_positive "erin@hotmail.com"
              (init_counting_B 100 3) 2 100 3 3) as [_ Hempty].
  - simpl. lia.
  - lia.
  - apply well_formed_init.
  - apply Hempty; [lia|reflexivity].
Defined.

Lemma insert_all_counters (S : list string) (B B' : bitarray) (num_digits num_buckets : nat)
    (num_hash_functions : Z) (bits_per_counter : nat) :
  10 ^ Z.of_nat num_digits <= Z.of_nat num_buckets ->
  (1 <= bits_per_counter)%nat ->
  well_formed num_buckets bits_per_counter B ->
  insert_all S B num_digits num_hash_functions bits_per_counter = Done B' ->
  well_formed num_buckets bits_per_counter B'
  /\ (forall p, (p < num_buckets)%nat ->
        counter_at bits_per_counter B p <= counter_at bits_per_counter B' p)
  /\ (forall s nr, In s S -> 1 <= nr <= num_hash_functions ->
        0 < counter_at bits_per_counter B' (Z.to_nat (h s num_digits nr))).
Proof.
  intros Hn Hbits. unfold insert_all. revert B.
  induction S as [|s S IH]; intros B Hwf Hrun; simpl in Hrun.
  - injection Hrun as <-. split; [exact Hwf|]. split; [intros; lia|intros s nr []].
  - destruct (insert_key s B num_digits num_hash_functions bits_per_counter)
      as [B1|e B1] eqn:Hins; [|discriminate].
    simpl in Hrun. unfold insert_key, update_key in Hins.
    destruct (update_loop_done s num_digits num_buckets bits_per_counter "insert"
                Hn Hbits _ B B1 Hwf Hins) as [Hwf1 Hcnt1].
    destruct (IH B1 Hwf1 Hrun) as (Hwf' & Hmono & Hpos).
    assert (forall p, (p < num_buckets)%nat ->
              counter_at bits_per_counter B p <= counter_at bits_per_counter B1 p) as Hmono1.
    { intros p Hp. rewrite (Hcnt1 p Hp). change (delta "insert") with 1.
      pose proof (hits_nonneg s num_digits (range 1 (Z.to_nat num_hash_functions)) p). lia. }
    split; [exact Hwf'|]. split.
    + intros p Hp. specialize (Hmono p Hp). specialize (Hmono1 p Hp). lia.
    + intros s' nr [<-|Hs'] Hnr; [|apply Hpos; assumption].
      pose proof (pos_lt s num_digits num_buckets nr Hn) as Hp.
      specialize (Hmono _ Hp). rewrite (Hcnt1 _ Hp) in Hmono.
      change (delta "insert") with 1 in Hmono.
      pose proof (hits_in s num_digits (range 1 (Z.to_nat num_hash_functions)) nr
                    (In_range 1 (Z.to_nat num_hash_functions) nr ltac:(lia))).
      pose proof (counter_at_bound num_buckets bits_per_counter B _ Hwf Hp). lia.
Qed.

(** X11. No false negatives of the counting filter: when inserting a list
    of keys one after the other succeeds, on an array of counters in good
    shape, [check_key_counting] returns [True] for each of them. *)
Theorem counting_no_false_negatives (S : list string) (B B' : bitarray)
    (num_digits num_buckets : nat) (num_hash_functions : Z) (bits_per_counter : nat) :
  10 ^ Z.of_nat num_digits <= Z.of_nat num_buckets ->
  (1 <= bits_per_counter)%nat ->
  0 <= num_hash_functions ->
  well_formed num_buckets bits_per_counter B ->
  insert_all S B num_digits num_hash_functions bits_per_counter = Done B' ->
  forall s, In s S ->
    check_key_counting bits_per_counter s B' num_digits num_hash_functions = Ok true.
Proof.
  intros Hn Hbits Hf Hwf Hrun s Hs.
  destruct (insert_all_counters S B B' num_digits num_buckets num_hash_functions
              bits_per_counter Hn Hbits Hwf Hrun) as (Hwf' & _ & Hpos).
  destruct (check_key_counting_spec s B' num_digits num_buckets num_hash_functions
              bits_per_counter Hn Hbits Hwf') as (found & -> & Hiff).
  f_equal. apply Hiff. split; [exact Hf|]. intros nr Hnr. apply Hpos; assumption.
Qed.

(** The notebook's set [S] in a hundred 3-bit counters. *)
Lemma counting_no_false_negatives_witness :
  let S := ["alice@gmail.com"; "bob@yahoo.com"; "chris@comp.nus.edu.sg";
            "dave@outlook.com"; "erin@hotmail.com"]%string in
  let B' := state_of (insert_all S (init_counting_B 100 3) 2 3 3) in
  insert_all S (init_counting_B 100 3) 2 3 3 = Done B'
  /\ forall s, In s S -> check_key_counting 3 s B' 2 3 = Ok true.
Proof.
  intros S B'.
  assert (insert_all S (init_counting_B 100 3) 2 3 3 = Done B') as Hrun
    by (vm_compute; reflexivity).
  split; [exact Hrun|].
  apply (counting_no_false_negatives S (init_counting_B 100 3) B' 2 100 3 3).
  - simpl. lia.
  - lia.
  - lia.
  - apply well_formed_init.
  - exact Hrun.
Defined.

(** X12. Delete, then query: when a key is inserted into the all-zero array
    of counters, with at least one hash function, the key is found; deleting
    it then finishes, gives back the all-zero array, and the key is no
    longer found. *)
Theorem counting_delete_then_query (s : string) (B1 : bitarray)
    (num_digits num_buckets : nat) (num_hash_functions : Z) (bits_per_counter : nat) :
  10 ^ Z.of_nat num_digits <= Z.of_nat num_buckets ->
  (1 <= bits_per_counter)%nat ->
  1 <= num_hash_functions ->
  let B0 := init_counting_B num_buckets bits_per_counter in
  insert_key s B0 num_digits num_hash_functions bits_per_counter = Done B1 ->
  check_key_counting bits_per_counter s B1 num_digits num_hash_functions = Ok true
  /\ delete_key s B1 num_digits num_hash_functions bits_per_counter = Done B0
  /\ check_key_counting bits_per_counter s B0 num_digits num_hash_functions = Ok false.
Proof.
  intros Hn Hbits Hf B0 Hins.
  pose proof (well_formed_init num_buckets bits_per_counter) as Hwf0. fold B0 in Hwf0.
  split; [|split].
  - apply (counting_no_false_negatives [s] B0 B1 num_digits num_buckets); try assumption;
      [lia| |left; reflexivity].
    unfold insert_all. simpl. rewrite Hins. reflexivity.
  - pose proof Hins as Hins'. unfold insert_key in Hins'. unfold delete_key.
    eapply update_key_undo; [exact Hn|exact Hbits| |exact Hwf0|exact Hins']. reflexivity.
  - destruct (check_key_counting_spec s B0 num_digits num_buckets num_hash_functions
                bits_per_counter Hn Hbits Hwf0) as (found & -> & Hiff).
    f_equal. destruct found; [|reflexivity].
    destruct (proj1 Hiff eq_refl) as [_ Hpos]. specialize (Hpos 1 ltac:(lia)).
    unfold B0 in Hpos. rewrite counter_at_init in Hpos. lia.
Qed.

Lemma counting_delete_then_query_witness :
  let B0 := init_counting_B 100 3 in
  let B1 := state_of (insert_key "erin@hotmail.com" B0 2 3 3) in
  check_key_counting 3 "erin@hotmail.com" B1 2 3 = Ok true
  /\ delete_key "erin@hotmail.com" B1 2 3 3 = Done B0
  /\ check_key_counting 3 "erin@hotmail.com" B0 2 3 = Ok false.
Proof.
  intros B0 B1. apply (counting_delete_then_query "erin@hotmail.com" B1 2 100 3 3).
  - simpl. lia.
  - lia.
  - lia.
  - vm_compute. reflexivity.
Defined.

End CountingMore.

(** ** The hash family *)

Lemma append_assoc_str (a b c : string) : ((a ++ b) ++ c = a ++ (b ++ c))%string.
Proof.
  induction a as [|ch a IH]; [reflexivity|].
  change (String ch ((a ++ b) ++ c) = String ch (a ++ (b ++ c)))%string.
  f_equal. exact IH.
Qed.

Lemma repeat_add_str (s : string) (a b : nat) :
  fold_right String.append EmptyString (replicate (a + b) s)
  = (fold_right String.append EmptyString (replicate a s)
     ++ fold_right String.append EmptyString (replicate b s))%string.
Proof.
  induction a as [|a IH]; [reflexivity|].
  change (s ++ fold_right String.append EmptyString (replicate (a + b) s)
          = (s ++ fold_right String.append EmptyString (replicate a s))
            ++ fold_right String.append EmptyString (replicate b s))%string.
  rewrite IH. symmetry. apply append_assoc_str.
Qed.

Lemma str_mul_mul (s : string) (k nr : Z) :
  0 <= k -> 0 <= nr -> str_mul (str_mul s k) nr = str_mul s (k * nr).
Proof.
  intros Hk Hnr. unfold str_mul. rewrite Z2Nat.inj_mul by assumption.
  generalize (Z.to_nat k) as a. generalize (Z.to_nat nr) as b. intros b a.
  induction b as [|b IH].
  - rewrite Nat.mul_0_r. reflexivity.
  - replace (a * S b)%nat with (a + a * b)%nat by lia.
    rewrite repeat_add_str, <- IH. reflexivity.
Qed.

(** X13. The hash functions of the family are not independent across keys:
    hash function [nr] of a key repeated [k] times is hash function [k * nr]
    of the key itself (so ["abab"] under the first hash function is ["ab"]
    under the second), in the Bloom filter notebook as in the Flajolet-Martin
    one. *)
Theorem hash_of_repeated_key (s : string) (num_digits : nat) (k nr : Z) :
  0 <= k -> 0 <= nr ->
  BloomFilter.h (str_mul s k) num_digits nr = BloomFilter.h s num_digits (k * nr)
  /\ FlajoletMartin.h (str_mul s k) num_digits nr = FlajoletMartin.h s num_digits (k * nr).
Proof.
  intros Hk Hnr. unfold BloomFilter.h, FlajoletMartin.h.
  rewrite str_mul_mul by assumption. split; reflexivity.
Qed.

Lemma hash_of_repeated_key_witness :
  BloomFilter.h "abab" 2 1 = BloomFilter.h "ab" 2 2.
Proof. exact (proj1 (hash_of_repeated_key "ab" 2 2 1 ltac:(lia) ltac:(lia))). Defined.

(** ** Flajolet-Martin: trailing zeros, runs and estimates *)

Module FlajoletMartinMore.
Import Float64 FlajoletMartin FlajoletMartinSpec Float64Facts FlajoletMartinFacts.


Lemma ctz_divides (p : positive) :
  (2 ^ ctz p | Zpos p) /\ ~ (2 ^ (ctz p + 1) | Zpos p).
Proof.
  induction p as [p _|p [IHd IHn]|].
  - simpl ctz. split; [exists (Zpos p~1); lia|]. intros [z Hz]. lia.
  - simpl ctz. pose proof (ctz_nonneg p) as Hc.
    change (Zpos p~0) with (2 * Zpos p). split.
    + rewrite Z.pow_add_r, Z.pow_1_r by lia. apply Z.mul_divide_mono_l. exact IHd.
    + replace (1 + ctz p + 1) with (1 + (ctz p + 1)) by lia.
      rewrite Z.pow_add_r, Z.pow_1_r by lia. rewrite Z.mul_divide_cancel_l by lia. exact IHn.
  - simpl ctz. split; [exists 1; lia|]. intros [z Hz]. lia.
Qed.

Lemma get_r_nonzero (p : positive) :
  Zpos p < 2 ^ 64 ->
  get_r (Zpos p) = Ok (ctz p) /\ get_r (Zneg p) = Ok (ctz p).
Proof.
  intros Hp.
  assert (Z.land (Zneg p) (- Zneg p) = 2 ^ ctz p) as Hneg
    by (rewrite Z.land_comm; apply lowest_set_bit).
  pose proof (lowest_set_bit p) as Hpos.
  pose proof (ctz_nonneg p) as Hc. pose proof (pow2_ctz_le p) as Hle.
  assert (0 < 2 ^ ctz p) by (apply Z.pow_pos_nonneg; lia).
  unfold get_r. rewrite Hpos, Hneg.
  destruct (Z.eqb_spec (2 ^ ctz p) 0); [lia|].
  destruct (Z.leb_spec (2 ^ 64) (2 ^ ctz p)); [lia|].
  rewrite Z.log2_pow2 by exact Hc. split; reflexivity.
Qed.

(** X14. [get_r] counts trailing zero bits: for a non-zero integer of less
    than 64 bits it returns the [r] such that [2^r] divides [x] and
    [2^(r+1)] does not, the same for [x] and [-x]; for [x = 0] it raises
    [OverflowError]. *)
Theorem get_r_is_the_trailing_zero_count (x : Z) :
  - 2 ^ 64 < x < 2 ^ 64 ->
  (x <> 0 ->
   exists r, get_r x = Ok r /\ get_r (- x) = Ok r /\ 0 <= r < 64
             /\ (2 ^ r | x) /\ ~ (2 ^ (r + 1) | x))
  /\ (x = 0 -> get_r x = Raise OverflowError).
Proof.
  intros Hx. split; [|intros ->; reflexivity]. intros Hne.
  assert (exists p, (x = Zpos p \/ x = Zneg p) /\ Zpos p < 2 ^ 64) as (p & Hp & Hlt)
    by (destruct x as [|p|p]; [congruence|exists p; split; [auto|lia]|exists p; split; [auto|lia]]).
  destruct (get_r_nonzero p Hlt) as [Hpos Hneg].
  destruct (ctz_divides p) as [Hd Hn].
  pose proof (ctz_nonneg p) as Hc. pose proof (pow2_ctz_le p) as Hle.
  assert (ctz p < 64) as Hlt64.
  { apply (Z.pow_lt_mono_r_iff 2); lia. }
  exists (ctz p). destruct Hp as [-> | ->].
  - change (- Zpos p) with (Zneg p). repeat split; try assumption; lia.
  - change (- Zneg p) with (Zpos p). change (Zneg p) with (- Zpos p).
    rewrite !Z.divide_opp_r. change (- Zpos p) with (Zneg p).
    repeat split; try assumption; lia.
Qed.

Lemma get_r_is_the_trailing_zero_count_witness :
  exists r, get_r 40 = Ok r /\ get_r (- 40) = Ok r /\ 0 <= r < 64
            /\ (2 ^ r | 40) /\ ~ (2 ^ (r + 1) | 40).
Proof.
  destruct (get_r_is_the_trailing_zero_count 40) as [Hnz _].
  - split; reflexivity.
  - apply Hnz. discriminate.
Defined.

Lemma get_r_bound (x r : Z) :
  0 <= x < 10 ^ 8 -> get_r x = Ok r -> 0 <= r <= 26.
Proof.
  intros Hx Hr. destruct x as [|p|p]; [discriminate| |lia].
  destruct (get_r_nonzero p) as [Hpos _].
  { eapply Z.lt_trans; [apply Hx|]. reflexivity. }
  rewrite Hpos in Hr. injection Hr as <-.
  pose proof (pow2_ctz_le p) as Hle. pose proof (ctz_nonneg p) as Hnn.
  assert (2 ^ ctz p < 2 ^ 27) as Hlt.
  { eapply Z.le_lt_trans; [exact Hle|]. eapply Z.lt_trans; [apply Hx|]. reflexivity. }
  apply Z.pow_lt_mono_r_iff in Hlt; lia.
Qed.

(** X15. Range of the trackers: after any run, finished or stopped by an
    exception, over any stream, every tracker lies between 0 and 26, so no
    single estimate [2^Rs[j]] exceeds [2^26]. *)
Theorem trackers_between_0_and_26 (stream : list string) (num_hashes : nat) :
  Forall (fun r => 0 <= r <= 26) (state_of (run stream num_hashes)).
Proof.
  unfold run.
  apply (for_each_preorder
           (fun Rs Rs' => Forall (fun r => 0 <= r <= 26) Rs ->
                          Forall (fun r => 0 <= r <= 26) Rs')
           (fun _ => True)).
  - auto.
  - auto.
  - apply List.Forall_forall. auto.
  - intros ip Rs _. unfold update_Rs.
    apply (for_each_preorder
             (fun Rs Rs' => Forall (fun r => 0 <= r <= 26) Rs ->
                            Forall (fun r => 0 <= r <= 26) Rs')
             (fun _ => True)).
    + auto.
    + auto.
    + apply List.Forall_forall. auto.
    + intros i l _ Hl.
      destruct (get_r (h ip 8 (i + 1))) as [r|e] eqn:Hr; [|exact Hl].
      apply get_r_bound in Hr; [|apply h_below_pow10].
      unfold getitem, setitem. destruct (norm_index l i) as [k|]; [|exact Hl].
      destruct (l !! k) as [cur|]; [|exact Hl].
      destruct (r >? cur); [|exact Hl]. simpl. apply Forall_insert; assumption.
  - apply Forall_replicate. lia.
Qed.

Lemma run_basic_from (stream : list string) (R : Z) :
  Forall (hashable 1) stream -> 0 <= R ->
  for_each stream update_R R = Done (Z.max R (max_r stream 0)).
Proof.
  intros Hs. revert R. induction Hs as [|ip stream Hip _ IH]; intros R HR; simpl.
  - unfold max_r. simpl. f_equal. lia.
  - unfold update_R at 1.
    pose proof (get_r_hashable 1 ip 0 Hip ltac:(lia)) as Hr.
    change (Z.of_nat 0 + 1) with 1 in Hr. rewrite Hr.
    simpl. pose proof (r_of_nonneg ip 0).
    rewrite IH by (destruct (r_of ip 0 >? R); lia).
    f_equal. unfold max_r. simpl. fold (max_r stream 0).
    destruct (Z.gtb_spec (r_of ip 0) R); lia.
Qed.

(** X16. The basic algorithm keeps the running maximum: for a stream whose
    keys have non-zero hash values, the loop with one hash function finishes
    with [R] the largest trailing-zero count under the first hash function,
    and this is tracker 0 of the run with several hash functions. *)
Theorem basic_algorithm_is_first_tracker (stream : list string) (num_hashes : nat) :
  (1 <= num_hashes)%nat ->
  Forall (hashable num_hashes) stream ->
  exists R Rs,
    run_basic stream = Done R
    /\ R = max_r stream 0
    /\ run stream num_hashes = Done Rs
    /\ Rs !! 0%nat = Some R.
Proof.
  intros Hn Hs. destruct (run_trackers stream num_hashes Hs) as [Hrun Hmax].
  exists (max_r stream 0). eexists. split; [|split; [reflexivity|split; [exact Hrun|]]].
  - unfold run_basic. rewrite run_basic_from.
    + f_equal. pose proof (max_r_nonneg stream 0). lia.
    + eapply Forall_impl; [exact Hs|]. simpl. intros ip Hip j Hj. apply Hip. lia.
    + lia.
  - apply Hmax. lia.
Qed.

Lemma basic_algorithm_is_first_tracker_witness :
  exists R Rs,
    run_basic ["host1"; "host2"; "host3"] = Done R
    /\ R = max_r ["host1"; "host2"; "host3"] 0
    /\ run ["host1"; "host2"; "host3"] 3 = Done Rs
    /\ Rs !! 0%nat = Some R.
Proof.
  apply (basic_algorithm_is_first_tracker ["host1"; "host2"; "host3"] 3).
  - lia.
  - repeat constructor; intros j Hj;
      do 3 (destruct j as [|j]; [vm_compute; discriminate|]); lia.
Defined.

Lemma max_r_incl (s1 s2 : list string) (j : nat) :
  (forall ip, In ip s1 -> In ip s2) -> max_r s1 j <= max_r s2 j.
Proof.
  induction s1 as [|ip s1 IH]; intros Hincl.
  - apply max_r_nonneg.
  - change (max_r (ip :: s1) j) with (Z.max (r_of ip j) (max_r s1 j)).
    pose proof (r_of_le_max_r s2 ip j (Hincl ip (or_introl eq_refl))).
    specialize (IH (fun x Hx => Hincl x (or_intror Hx))). lia.
Qed.

(** X17. Duplicates and order do not matter: two streams with the same set
    of keys, all with non-zero hash values, leave the same trackers. *)
Theorem trackers_depend_on_the_set_of_keys (stream1 stream2 : list string)
    (num_hashes : nat) :
  Forall (hashable num_hashes) stream1 ->
  Forall (hashable num_hashes) stream2 ->
  (forall ip, In ip stream1 <-> In ip stream2) ->
  run stream1 num_hashes = run stream2 num_hashes.
Proof.
  intros H1 H2 Hsame.
  destruct (run_trackers stream1 num_hashes H1) as [-> Hmax1].
  destruct (run_trackers stream2 num_hashes H2) as [-> Hmax2].
  f_equal. apply list_eq. intros j.
  destruct (decide (j < num_hashes)%nat) as [Hj|Hj].
  - rewrite (Hmax1 j Hj), (Hmax2 j Hj). f_equal.
    pose proof (max_r_incl stream1 stream2 j (fun ip => proj1 (Hsame ip))).
    pose proof (max_r_incl stream2 stream1 j (fun ip => proj2 (Hsame ip))). lia.
  - rewrite !lookup_ge_None_2; [reflexivity| |];
      rewrite length_fold_ingest, length_replicate; lia.
Qed.

Lemma trackers_depend_on_the_set_of_keys_witness :
  run ["host1"; "host2"; "host1"; "host1"] 3 = run ["host2"; "host1"] 3.
Proof.
  apply trackers_depend_on_the_set_of_keys.
  - repeat constructor; intros j Hj;
      do 3 (destruct j as [|j]; [vm_compute; discriminate|]); lia.
  - repeat constructor; intros j Hj;
      do 3 (destruct j as [|j]; [vm_compute; discriminate|]); lia.
  - intros ip. simpl. tauto.
Defined.

(** X18. The final estimate stays within the single estimates: with
    [num_groups * num_samples_per_group] trackers between [lo >= 0] and
    [hi], and [num_groups * 2^hi] at most [2^52] (the trackers of a run are
    at most 26), whatever the shuffle draws and after the rounding of the
    mean, the final estimate is a finite float64 between [2^lo] and
    [2^hi]. *)
Theorem final_estimate_between_extreme_estimates (Rs : list Z)
    (num_groups num_samples_per_group : nat) (g : rng) (lo hi : Z) :
  (0 < num_groups)%nat -> (0 < num_samples_per_group)%nat ->
  length Rs = (num_samples_per_group * num_groups)%nat ->
  0 <= lo -> Forall (fun r => lo <= r <= hi) Rs ->
  Z.of_nat num_groups * 2 ^ hi <= 2 ^ 52 ->
  exists estimate : Q,
    final_estimate Rs num_groups g = Ok (Finite estimate)
    /\ (inject_Z (2 ^ lo) <= estimate)%Q /\ (estimate <= inject_Z (2 ^ hi))%Q.
Proof.
  intros Hg Hspg Hlen Hlo Hrange Hsize.
  destruct (final_estimate_rounds_once Rs num_groups num_samples_per_group g lo hi)
    as (buckets & ks & Hrun & _ & Hcount & _ & Hmed & Hks); try assumption.
  assert (length ks = num_groups) as Hcount'
    by (apply Forall2_length in Hmed; lia).
  destruct (sumZ_bounds ks _ _ Hks) as [Hsum1 Hsum2]. rewrite Hcount' in Hsum1, Hsum2.
  assert (lo <= hi) as Hlohi.
  { destruct Rs as [|r Rs]; [simpl in Hlen; lia|]. inversion Hrange; subst. lia. }
  assert (0 < 2 ^ hi) as Hpos by (apply Z.pow_pos_nonneg; lia).
  assert (hi <= 52) as Hhi by (apply (Z.pow_le_mono_r_iff 2); [lia|lia|nia]).
  assert (0 < inject_Z (Z.of_nat num_groups))%Q as HG
    by (change 0%Q with (inject_Z 0); rewrite <- Zlt_Qlt; lia).
  set (mean := (inject_Z (sumZ ks) / 2 / inject_Z (Z.of_nat num_groups))%Q) in *.
  assert (inject_Z (2 ^ lo) <= mean)%Q as Hmean1.
  { unfold mean. apply Qle_shift_div_l; [exact HG|].
    apply Qle_shift_div_l; [reflexivity|].
    change 2%Q with (inject_Z 2). rewrite <- !inject_Z_mult, <- Zle_Qle. lia. }
  assert (mean <= inject_Z (2 ^ hi))%Q as Hmean2.
  { unfold mean. apply Qle_shift_div_r; [exact HG|].
    apply Qle_shift_div_r; [reflexivity|].
    change 2%Q with (inject_Z 2). rewrite <- !inject_Z_mult, <- Zle_Qle. lia. }
  destruct (round64_bounds mean lo hi) as (estimate & Hround & Hlow & Hhigh);
    [lia|lia|rewrite <- pow2_Z by lia; exact Hmean1
    |rewrite <- pow2_Z by lia; exact Hmean2|].
  exists estimate. rewrite Hrun, Hround. split; [reflexivity|].
  rewrite !pow2_Z by lia. split; assumption.
Qed.

Lemma final_estimate_between_extreme_estimates_witness :
  exists estimate : Q,
    final_estimate [2; 3; 0; 1; 0; 5] 3 SamplingSpec.zero_rng = Ok (Finite estimate)
    /\ (inject_Z (2 ^ 0) <= estimate)%Q /\ (estimate <= inject_Z (2 ^ 5))%Q.
Proof.
  apply (final_estimate_between_extreme_estimates [2; 3; 0; 1; 0; 5] 3 2 SamplingSpec.zero_rng 0 5).
  - lia.
  - lia.
  - reflexivity.
  - lia.
  - repeat constructor; lia.
  - simpl. lia.
Defined.

Lemma traverse_np_power2_cases (Rs : list Z) :
  (exists estimates, traverse np_power2 Rs = Ok estimates /\ length estimates = length Rs)
  \/ traverse np_power2 Rs = Raise ValueError.
Proof.
  induction Rs as [|r Rs IH]; simpl.
  - left. exists []. split; reflexivity.
  - unfold np_power2 at 1 3. destruct (r <? 0); simpl; [right; reflexivity|].
    destruct IH as [(estimates & -> & Hlen)| ->]; simpl; [|right; reflexivity].
    left. eexists. split; [reflexivity|]. simpl. rewrite Hlen. reflexivity.
Qed.

(** X19. Uneven groups fail fast: when [num_groups] is not zero and does
    not divide the number of trackers, the aggregation raises [ValueError]
    instead of truncating, whatever the trackers and the shuffle. *)
Theorem final_estimate_rejects_uneven_groups (Rs : list Z) (num_groups : nat) (g : rng) :
  (0 < num_groups)%nat ->
  (length Rs mod num_groups <> 0)%nat ->
  final_estimate Rs num_groups g = Raise ValueError.
Proof.
  intros Hg Hmod. unfold final_estimate.
  destruct (traverse_np_power2_cases Rs) as [(estimates & -> & Hlen)| ->]; [|reflexivity].
  simpl bind_result.
  pose proof (shuffle_Permutation estimates g) as Hperm.
  destruct (shuffle estimates g) as [shuffled g']. simpl in Hperm.
  unfold np_split. destruct (Nat.eqb_spec num_groups 0); [lia|].
  rewrite Hperm, Hlen. destruct (Nat.eqb_spec (length Rs mod num_groups) 0); [lia|].
  reflexivity.
Qed.

Lemma final_estimate_rejects_uneven_groups_witness :
  final_estimate [2; 3; 0; 1; 0] 2 SamplingSpec.zero_rng = Raise ValueError.
Proof.
  apply final_estimate_rejects_uneven_groups.
  - lia.
  - simpl. lia.
Defined.

End FlajoletMartinMore.

(** ** Sampling: lines, keyed samples, random samples and the reservoir *)

Module SamplingMore.
Import Sampling SamplingSpec SamplingFacts SamplingMoreSpec.

Lemma split_nonempty (sep : ascii) (line : string) : split sep line <> [].
Proof.
  destruct line as [|c rest]; simpl; [discriminate|].
  destruct (Ascii.eqb c sep); [discriminate|]. destruct (split sep rest); discriminate.
Qed.

Lemma length_split (sep : ascii) (line : string) :
  length (split sep line) = S (count_char sep line).
Proof.
  induction line as [|c rest IH]; simpl; [reflexivity|].
  destruct (Ascii.eqb c sep); simpl; [rewrite IH; reflexivity|].
  destruct (split sep rest) as [|part parts] eqn:Hs; [simpl in IH; discriminate|].
  simpl in *. exact IH.
Qed.

Lemma split_no_sep (sep : ascii) (s : string) :
  count_char sep s = 0%nat -> split sep s = [s].
Proof.
  induction s as [|c rest IH]; simpl; [reflexivity|].
  destruct (Ascii.eqb c sep); simpl; [discriminate|]. intros H. rewrite IH by exact H.
  reflexivity.
Qed.

Lemma split_app (sep : ascii) (ip rest : string) :
  count_char sep ip = 0%nat ->
  split sep (ip ++ String sep rest)%string = ip :: split sep rest.
Proof.
  induction ip as [|c ip IH]; intros Hip.
  - change (EmptyString ++ String sep rest)%string with (String sep rest).
    simpl. rewrite Ascii.eqb_refl. reflexivity.
  - change (String c ip ++ String sep rest)%string
      with (String c (ip ++ String sep rest)).
    simpl in Hip |- *. destruct (Ascii.eqb c sep); [discriminate|].
    rewrite IH by exact Hip. reflexivity.
Qed.

(** X20. Splitting a line: [line.split(sep)] has one part more than [line]
    has separators, so a line unpacks into [ip, ts] exactly when it holds one
    comma; and the line [ip,ts] of an [ip] and a [ts] without commas splits
    back into [ip] and [ts]. *)
Theorem split_counts_separators :
  (forall (sep : ascii) (line : string),
     length (split sep line) = S (count_char sep line))
  /\ (forall line : string, well_formed_line line <-> count_char "," line = 1%nat)
  /\ (forall ip ts : string,
        count_char "," ip = 0%nat -> count_char "," ts = 0%nat ->
        split "," (ip ++ String "," ts)%string = [ip; ts]
        /\ key_of (ip ++ String "," ts)%string = ip).
Proof.
  split; [exact length_split|]. split.
  - intros line. unfold well_formed_line. pose proof (length_split "," line) as Hlen. split.
    + intros (ip & ts & Hs). rewrite Hs in Hlen. simpl in Hlen. lia.
    + intros Hc. rewrite Hc in Hlen.
      destruct (split "," line) as [|ip [|ts [|x parts]]]; simpl in Hlen; try lia. eauto.
  - intros ip ts Hip Hts. unfold key_of.
    rewrite split_app, split_no_sep by assumption. split; reflexivity.
Qed.

Lemma split_counts_separators_witness :
  split "," "apple,1" = ["apple"; "1"]%string /\ key_of "apple,1" = "apple"%string.
Proof.
  apply (proj2 (proj2 split_counts_separators) "apple" "1"); reflexivity.
Defined.

(** The loop only appends: started on [SAMPLE] it does what it does started on
    the empty list, after [SAMPLE]. *)
Lemma keyed_loop_shift (lines : list string) (a b : Z) (SAMPLE : list string) :
  for_each lines (keyed_body a b) SAMPLE
  = match for_each lines (keyed_body a b) [] with
    | Done SAMPLE' => Done (SAMPLE ++ SAMPLE')
    | Raised e SAMPLE' => Raised e (SAMPLE ++ SAMPLE')
    end.
Proof.
  revert SAMPLE. induction lines as [|line lines IH]; intros SAMPLE.
  - simpl. rewrite app_nil_r. reflexivity.
  - cbn [for_each].
    destruct (unpack2 (split "," line)) as [[ip ts]|e];
      [|simpl; rewrite app_nil_r; reflexivity].
    destruct (h ip b) as [v|e]; [|simpl; rewrite app_nil_r; reflexivity].
    destruct (v <? a); cbn [bind_outcome].
    + rewrite (IH (SAMPLE ++ [ip])), (IH ([] ++ [ip])).
      destruct (for_each lines (keyed_body a b) []); simpl; rewrite <- app_assoc; reflexivity.
    + apply IH.
Qed.

Lemma keyed_sample_pieces (lines1 lines2 : list string) (a b : Z) :
  keyed_sample (lines1 ++ lines2) a b
  = match keyed_sample lines1 a b with
    | Done SAMPLE1 =>
        match keyed_sample lines2 a b with
        | Done SAMPLE2 => Done (SAMPLE1 ++ SAMPLE2)
        | Raised e SAMPLE2 => Raised e (SAMPLE1 ++ SAMPLE2)
        end
    | Raised e SAMPLE1 => Raised e SAMPLE1
    end.
Proof.
  unfold keyed_sample. rewrite for_each_app.
  destruct (for_each lines1 _ []) as [SAMPLE1|e SAMPLE1]; [|reflexivity].
  cbn [bind_outcome]. apply keyed_loop_shift.
Qed.

(** X21. The keyed sample of a stream read in two pieces: the sample of
    [lines1 ++ lines2] is the sample of [lines1] followed by the sample of
    [lines2]; an exception in the first piece stops the loop there, and one
    in the second piece keeps what was sampled before it. *)
Theorem keyed_sample_app (lines1 lines2 : list string) (a b : Z) :
  keyed_sample (lines1 ++ lines2) a b
  = match keyed_sample lines1 a b with
    | Done SAMPLE1 =>
        match keyed_sample lines2 a b with
        | Done SAMPLE2 => Done (SAMPLE1 ++ SAMPLE2)
        | Raised e SAMPLE2 => Raised e (SAMPLE1 ++ SAMPLE2)
        end
    | Raised e SAMPLE1 => Raised e SAMPLE1
    end.
Proof. apply keyed_sample_pieces. Qed.

Lemma keyed_sample_ok (lines : list string) (a b : Z) :
  0 < b -> Forall well_formed_line lines ->
  keyed_sample lines a b = Done (filter (accepted a b) (map key_of lines)).
Proof.
  intros Hb Hlines. unfold keyed_sample. rewrite keyed_sample_from by assumption.
  reflexivity.
Qed.

Lemma filter_all {A : Type} (P : A -> Prop) `{forall x, Decision (P x)} (l : list A) :
  (forall x, P x) -> filter P l = l.
Proof.
  intros HP. induction l as [|x l IH]; [reflexivity|].
  rewrite filter_cons. destruct (decide (P x)) as [_|Hn]; [|destruct (Hn (HP x))].
  rewrite IH. reflexivity.
Qed.

Lemma filter_none {A : Type} (P : A -> Prop) `{forall x, Decision (P x)} (l : list A) :
  (forall x, ~ P x) -> filter P l = [].
Proof.
  intros HP. induction l as [|x l IH]; [reflexivity|].
  rewrite filter_cons. destruct (decide (P x)) as [Hp|_]; [destruct (HP x Hp)|exact IH].
Qed.

Lemma filter_sublist_mono {A : Type} (P Q : A -> Prop)
    `{forall x, Decision (P x)} `{forall x, Decision (Q x)} (l : list A) :
  (forall x, P x -> Q x) -> sublist (filter P l) (filter Q l).
Proof.
  intros HPQ. induction l as [|x l IH]; [constructor|].
  rewrite !filter_cons. destruct (decide (P x)) as [Hp|Hn], (decide (Q x)) as [Hq|Hnq].
  - constructor. exact IH.
  - destruct (Hnq (HPQ x Hp)).
  - constructor. exact IH.
  - exact IH.
Qed.

(** X22. Thresholds of the keyed sampler, on lines [ip,ts] with [b > 0]: the
    sample is a sublist of the keys of the stream; it grows with [a]; with
    [a >= b] every record is kept and with [a <= 0] none. *)
Theorem keyed_sample_thresholds (lines : list string) (a a' b : Z) :
  0 < b -> Forall well_formed_line lines ->
  sublist (state_of (keyed_sample lines a b)) (map key_of lines)
  /\ (a <= a' ->
      sublist (state_of (keyed_sample lines a b)) (state_of (keyed_sample lines a' b)))
  /\ (b <= a -> keyed_sample lines a b = Done (map key_of lines))
  /\ (a <= 0 -> keyed_sample lines a b = Done []).
Proof.
  intros Hb Hlines. rewrite !keyed_sample_ok by assumption. simpl.
  split; [apply sublist_filter|]. split; [|split].
  - intros Ha. apply filter_sublist_mono. intros ip Hip. lia.
  - intros Ha. f_equal. apply filter_all. intros ip.
    pose proof (Z.mod_pos_bound (SHA1.sha1_int ip) b Hb). lia.
  - intros Ha. f_equal. apply filter_none. intros ip.
    pose proof (Z.mod_pos_bound (SHA1.sha1_int ip) b Hb). lia.
Qed.

Lemma keyed_sample_thresholds_witness :
  keyed_sample ["apple,1"; "pear,2"; "apple,7"] 10 10 = Done ["apple"; "pear"; "apple"]%string.
Proof.
  destruct (keyed_sample_thresholds ["apple,1"; "pear,2"; "apple,7"] 10 10 10)
    as (_ & _ & Hall & _).
  - lia.
  - repeat constructor; eexists; eexists; reflexivity.
  - rewrite Hall by lia. reflexivity.
Defined.

Lemma unpack2_malformed (line : string) :
  ~ well_formed_line line -> unpack2 (split "," line) = Raise ValueError.
Proof.
  unfold well_formed_line. intros Hbad.
  destruct (split "," line) as [|ip [|ts [|x parts]]]; try reflexivity.
  exfalso. apply Hbad. eauto.
Qed.

(** X23. Errors of the keyed sampling loop: a line that does not hold
    exactly one comma stops the loop with [ValueError], the keys sampled
    before it staying in [SAMPLE]; with [b = 0] the first line stops the loop
    with [ZeroDivisionError] and [SAMPLE] is empty. *)
Theorem keyed_sample_errors (good rest : list string) (bad : string) (a b : Z) :
  Forall well_formed_line good ->
  (0 < b -> ~ well_formed_line bad ->
   keyed_sample (good ++ bad :: rest) a b
   = Raised ValueError (filter (accepted a b) (map key_of good)))
  /\ (b = 0 -> well_formed_line bad ->
      keyed_sample (bad :: rest) a b = Raised ZeroDivisionError []).
Proof.
  intros Hgood. split.
  - intros Hb Hbad. rewrite keyed_sample_pieces, keyed_sample_ok by assumption.
    unfold keyed_sample. cbn [for_each]. rewrite unpack2_malformed by exact Hbad.
    simpl. rewrite app_nil_r. reflexivity.
  - intros -> (ip & ts & Hline). unfold keyed_sample. cbn [for_each].
    rewrite Hline. reflexivity.
Qed.

Lemma keyed_sample_errors_witness :
  keyed_sample ["apple,1"; "no comma here"; "pear,2"] 5 10 = Raised ValueError ["apple"]%string.
Proof.
  destruct (keyed_sample_errors ["apple,1"] ["pear,2"] "no comma here" 5 10) as [Hbad _].
  - repeat constructor; eexists; eexists; reflexivity.
  - etransitivity; [apply Hbad|vm_compute; reflexivity].
    + lia.
    + intros (ip & ts & Hs). discriminate.
Defined.

(** *** Sampling with a given probability *)

Lemma rand_range (g : rng) :
  (0 <= fst (rand g))%Q /\ (fst (rand g) < 1)%Q
  /\ cursor (snd (rand g)) = S (cursor g) /\ tape (snd (rand g)) = tape g.
Proof.
  unfold rand, draw_below. cbn [fst snd cursor tape].
  assert (Z.pos (2 ^ 53)%positive = 2 ^ 53) as Hpow by reflexivity.
  pose proof (Z.mod_pos_bound (tape g (cursor g)) (2 ^ 53) ltac:(lia)) as Hk.
  unfold Qle, Qlt. cbn [Qnum Qden]. rewrite Hpow. repeat split; lia.
Qed.

Lemma random_sample_from (lines : list string) (probability : Q)
    (SAMPLE : list string) (g : rng) :
  Forall well_formed_line lines ->
  exists kept g',
    for_each lines (random_body probability) (SAMPLE, g) = Done (SAMPLE ++ kept, g')
    /\ sublist kept lines
    /\ cursor g' = (cursor g + length lines)%nat
    /\ tape g' = tape g
    /\ ((1 <= probability)%Q -> kept = lines)
    /\ ((probability < 0)%Q -> kept = []).
Proof.
  intros Hlines. revert SAMPLE g.
  induction Hlines as [|line lines (ip & ts & Hline) _ IH]; intros SAMPLE g.
  - exists [], g. simpl. rewrite app_nil_r. repeat split; try reflexivity; lia.
  - cbn [for_each]. rewrite Hline. cbn [unpack2].
    destruct (rand_range g) as (H0 & H1 & Hcur & Htape).
    destruct (rand g) as [x g1]. cbn [fst snd] in *.
    destruct (Qle_bool x probability) eqn:Hq; cbn [bind_outcome].
    + destruct (IH (SAMPLE ++ [line]) g1) as (kept & g' & Hrun & Hsub & Hc & Ht & Hall & Hnone).
      exists (line :: kept), g'. rewrite Hrun, <- app_assoc. split; [reflexivity|].
      split; [constructor; exact Hsub|]. split; [simpl; lia|]. split; [congruence|].
      split.
      * intros Hp. rewrite Hall by exact Hp. reflexivity.
      * intros Hp. apply Qle_bool_iff in Hq. exfalso.
        apply (Qlt_irrefl 0). eapply Qle_lt_trans; [exact H0|].
        eapply Qle_lt_trans; [exact Hq|exact Hp].
    + destruct (IH SAMPLE g1) as (kept & g' & Hrun & Hsub & Hc & Ht & Hall & Hnone).
      exists kept, g'. rewrite Hrun. split; [reflexivity|].
      split; [constructor; exact Hsub|]. split; [simpl; lia|]. split; [congruence|].
      split.
      * intros Hp. exfalso. assert (Qle_bool x probability = true) as Hq'; [|congruence].
        apply Qle_bool_iff. apply Qlt_le_weak. eapply Qlt_le_trans; [exact H1|exact Hp].
      * exact Hnone.
Qed.

(** X24. Sampling by position, on lines [ip,ts]: the loop finishes; the
    sample holds lines of the stream in the order of the stream; one random
    number is drawn for each line; a probability of 1 or more keeps every
    line and a negative one keeps none. *)
Theorem random_sample_is_a_sublist (lines : list string) (probability : Q) (g : rng) :
  Forall well_formed_line lines ->
  exists SAMPLE g',
    random_sample lines probability g = Done (SAMPLE, g')
    /\ sublist SAMPLE lines
    /\ cursor g' = (cursor g + length lines)%nat
    /\ ((1 <= probability)%Q -> SAMPLE = lines)
    /\ ((probability < 0)%Q -> SAMPLE = []).
Proof.
  intros Hlines.
  destruct (random_sample_from lines probability [] g Hlines)
    as (kept & g' & Hrun & Hsub & Hc & _ & Hall & Hnone).
  exists kept, g'. unfold random_sample. rewrite Hrun. repeat split; assumption.
Qed.

Lemma random_sample_is_a_sublist_witness :
  exists SAMPLE g',
    random_sample ["apple,1"; "pear,2"] 1 zero_rng = Done (SAMPLE, g')
    /\ sublist SAMPLE ["apple,1"; "pear,2"]%string
    /\ cursor g' = (cursor zero_rng + 2)%nat
    /\ ((1 <= 1)%Q -> SAMPLE = ["apple,1"; "pear,2"]%string)
    /\ ((1 < 0)%Q -> SAMPLE = []).
Proof.
  apply (random_sample_is_a_sublist ["apple,1"; "pear,2"] 1 zero_rng).
  repeat constructor; eexists; eexists; reflexivity.
Defined.

(** X25. A probability of 0 does not give an empty sample: the draw is
    compared with [<=], and a line whose draw is exactly [0.0] is kept. *)
Theorem random_sample_keeps_a_zero_draw (lines : list string) (g : rng) :
  Forall well_formed_line lines ->
  (forall n, tape g n mod 2 ^ 53 = 0) ->
  state_of (random_sample lines 0 g)
  = (lines, {| tape := tape g; cursor := cursor g + length lines |}).
Proof.
  intros Hlines Hzero. unfold random_sample.
  assert (forall SAMPLE c,
            for_each lines (random_body 0) (SAMPLE, {| tape := tape g; cursor := c |})
            = Done (SAMPLE ++ lines, {| tape := tape g; cursor := c + length lines |}))
    as Hloop.
  { induction Hlines as [|line lines (ip & ts & Hline) _ IH]; intros SAMPLE c.
    - simpl. rewrite app_nil_r, Nat.add_0_r. reflexivity.
    - cbn [for_each]. rewrite Hline. cbn [unpack2].
      assert (rand {| tape := tape g; cursor := c |}
              = (0 # 2 ^ 53, {| tape := tape g; cursor := S c |})) as ->
        by (unfold rand, draw_below; cbn [tape cursor]; rewrite Hzero; reflexivity).
      change (Qle_bool (0 # 2 ^ 53) 0) with true. cbn [bind_outcome].
      rewrite IH, <- app_assoc. simpl. do 3 f_equal. lia. }
  destruct g as [tp c]. cbn [tape cursor] in *. rewrite Hloop. reflexivity.
Qed.

Lemma random_sample_keeps_a_zero_draw_witness :
  state_of (random_sample ["apple,1"; "pear,2"] 0 zero_rng)
  = (["apple,1"; "pear,2"]%string, {| tape := tape zero_rng; cursor := 2 |}).
Proof.
  apply (random_sample_keeps_a_zero_draw ["apple,1"; "pear,2"] zero_rng).
  - repeat constructor; eexists; eexists; reflexivity.
  - intros n. reflexivity.
Defined.

(** *** The example stream *)

Lemma chr_ok (i : Z) : 0 <= i < 0x110000 -> chr i = Ok i.
Proof.
  intros Hi. unfold chr.
  destruct (Z.leb_spec 0 i); [|lia]. destruct (Z.ltb_spec i 0x110000); [|lia]. reflexivity.
Qed.

Lemma letters_loop (counts : list Z) (k : nat) (stream : list Z) :
  Z.of_nat k + Z.of_nat (length counts) + 65 <= 0x110000 ->
  for_each (zip (range (Z.of_nat k) (length counts)) counts)
    (fun '(idx, cnt) stream =>
       match chr (idx + 65) with
       | Ok letter => Done (stream ++ replicate (Z.to_nat cnt) letter)
       | Raise e => Raised e stream
       end)
    stream
  = Done (stream
          ++ concat (imap (fun i cnt => replicate (Z.to_nat cnt) (Z.of_nat (k + i) + 65))
                       counts)).
Proof.
  revert k stream. induction counts as [|cnt counts IH]; intros k stream Hk.
  - simpl. rewrite app_nil_r. reflexivity.
  - cbn [length]. rewrite range_cons. cbn [zip zip_with for_each].
    cbn [length] in Hk. rewrite chr_ok by lia. cbn [bind_outcome].
    replace (Z.of_nat k + 1) with (Z.of_nat (S k)) by lia.
    rewrite IH by lia. f_equal. rewrite <- app_assoc. f_equal.
    cbn [imap concat]. rewrite Nat.add_0_r. f_equal. f_equal.
    apply imap_ext. intros i c _. simpl. do 2 f_equal. lia.
Qed.

Lemma count_occ_replicate (n : nat) (x y : Z) :
  count_occ Z.eq_dec (replicate n x) y = if decide (x = y) then n else 0%nat.
Proof.
  induction n as [|n IH]; simpl.
  - destruct (decide (x = y)); reflexivity.
  - rewrite IH. destruct (Z.eq_dec x y), (decide (x = y)); congruence.
Qed.

Lemma count_letters (counts : list Z) (k j : nat) :
  count_occ Z.eq_dec
    (concat (imap (fun i cnt => replicate (Z.to_nat cnt) (Z.of_nat (k + i) + 65)) counts))
    (Z.of_nat j + 65)
  = if decide (j < k)%nat then 0%nat else Z.to_nat (default 0 (counts !! (j - k)%nat)).
Proof.
  revert k. induction counts as [|cnt counts IH]; intros k.
  - simpl. destruct (decide (j < k)%nat); reflexivity.
  - cbn [imap concat]. rewrite count_occ_app, count_occ_replicate.
    rewrite (imap_ext _ (fun i cnt => replicate (Z.to_nat cnt) (Z.of_nat (S k + i) + 65)))
      by (intros i c _; simpl; do 2 f_equal; lia).
    rewrite IH.
    destruct (decide (Z.of_nat (k + 0) + 65 = Z.of_nat j + 65)) as [Heq|Hne].
    + assert (j = k) as -> by lia. rewrite Nat.sub_diag.
      destruct (decide (k < S k)%nat); [|lia]. destruct (decide (k < k)%nat); [lia|].
      simpl. lia.
    + destruct (decide (j < S k)%nat), (decide (j < k)%nat); try lia; try reflexivity.
      replace (j - k)%nat with (S (j - S k)) by lia. reflexivity.
Qed.

Lemma length_letters (counts : list Z) (k : nat) :
  length (concat (imap (fun i cnt => replicate (Z.to_nat cnt) (Z.of_nat (k + i) + 65)) counts))
  = sum_list (map Z.to_nat counts).
Proof.
  revert k. induction counts as [|cnt counts IH]; intros k; [reflexivity|].
  cbn [imap concat map sum_list sum_list_with]. rewrite length_app, length_replicate.
  rewrite (imap_ext _ (fun i cnt => replicate (Z.to_nat cnt) (Z.of_nat (S k + i) + 65)))
    by (intros i c _; simpl; do 2 f_equal; lia).
  rewrite IH. reflexivity.
Qed.

(** X26. The example stream: for a list of counts short enough for every
    index to have a letter ([chr] accepts code points below [0x110000]),
    [generate_stream] returns a shuffle of the letters in index order; the
    letter of index [idx] occurs [counts[idx]] times (not at all for a
    negative count), no other letter occurs, and the stream has as many items
    as the counts add up to. *)
Theorem generate_stream_counts (counts : list Z) (g : rng) :
  Z.of_nat (length counts) + 65 <= 0x110000 ->
  exists stream g',
    generate_stream counts g = (Ok stream, g')
    /\ Permutation stream (letters counts)
    /\ (forall idx : nat,
          count_occ Z.eq_dec stream (Z.of_nat idx + 65)
          = Z.to_nat (default 0 (counts !! idx)))
    /\ (forall letter, In letter stream ->
          exists idx cnt, counts !! idx = Some cnt /\ letter = Z.of_nat idx + 65 /\ 0 < cnt)
    /\ length stream = sum_list (map Z.to_nat counts).
Proof.
  intros Hlen. unfold generate_stream, enumerate.
  pose proof (letters_loop counts 0 [] ltac:(simpl; lia)) as Hloop.
  change (Z.of_nat 0) with 0 in Hloop. rewrite Hloop. cbn [app].
  change (concat (imap (fun i cnt => replicate (Z.to_nat cnt) (Z.of_nat (0 + i) + 65)) counts))
    with (letters counts).
  pose proof (FlajoletMartinFacts.shuffle_Permutation (letters counts) g) as Hperm.
  destruct (shuffle (letters counts) g) as [stream g']. cbn [fst] in Hperm.
  exists stream, g'. split; [reflexivity|]. split; [exact Hperm|]. split; [|split].
  - intros idx. rewrite (Permutation_count_occ Z.eq_dec) in Hperm. rewrite Hperm.
    unfold letters.
    pose proof (count_letters counts 0 idx) as Hc. simpl in Hc.
    rewrite Nat.sub_0_r in Hc. exact Hc.
  - intros letter Hin. apply (Permutation_in _ Hperm) in Hin.
    unfold letters in Hin. apply in_concat in Hin. destruct Hin as (chunk & Hchunk & Hin).
    apply list_elem_of_In, list_elem_of_lookup in Hchunk. destruct Hchunk as (idx & Hidx).
    rewrite list_lookup_imap in Hidx.
    destruct (counts !! idx) as [cnt|] eqn:Hcnt; [|discriminate].
    simpl in Hidx. injection Hidx as <-.
    apply list_elem_of_In, elem_of_replicate in Hin. destruct Hin as [-> Hn].
    exists idx, cnt. split; [exact Hcnt|]. split; [reflexivity|lia].
  - rewrite (Permutation_length Hperm). apply (length_letters counts 0).
Qed.

Lemma generate_stream_counts_witness :
  exists stream g',
    generate_stream [2; 0; 1] zero_rng = (Ok stream, g')
    /\ Permutation stream (letters [2; 0; 1])
    /\ (forall idx : nat,
          count_occ Z.eq_dec stream (Z.of_nat idx + 65)
          = Z.to_nat (default 0 ([2; 0; 1] !! idx)))
    /\ (forall letter, In letter stream ->
          exists idx cnt,
            [2; 0; 1] !! idx = Some cnt /\ letter = Z.of_nat idx + 65 /\ 0 < cnt)
    /\ length stream = sum_list (map Z.to_nat [2; 0; 1]).
Proof. apply (generate_stream_counts [2; 0; 1] zero_rng). simpl. lia. Defined.

(** *** The reservoir while it fills *)

Lemma fill_loop (B : Z) (pre items : list string) (g : rng) :
  (length pre + length items <= Z.to_nat B)%nat ->
  resume B (length pre) items
    (pre ++ replicate (Z.to_nat B - length pre) "_"%string, g)
  = Done (pre ++ items
          ++ replicate (Z.to_nat B - length pre - length items) "_"%string, g).
Proof.
  unfold resume. revert pre. induction items as [|item items IH]; intros pre Hlen.
  - simpl. rewrite Nat.sub_0_r. reflexivity.
  - cbn [length] in *. rewrite range_cons. cbn [zip zip_with for_each].
    unfold handle_new_item at 1.
    destruct (Z.ltb_spec (Z.of_nat (length pre)) B); [|lia].
    rewrite setitem_in_range by (rewrite length_app, length_replicate; lia).
    rewrite Nat2Z.id. cbn [bind_outcome].
    replace (Z.to_nat B - length pre)%nat with (S (Z.to_nat B - length pre - 1)) by lia.
    cbn [replicate]. rewrite insert_app_r_alt by lia. rewrite Nat.sub_diag. cbn [insert list_insert].
    replace (pre ++ item :: replicate (Z.to_nat B - length pre - 1) "_"%string)
      with ((pre ++ [item]) ++ replicate (Z.to_nat B - length (pre ++ [item])) "_"%string)
      by (rewrite <- app_assoc, length_app; simpl; do 3 f_equal; lia).
    replace (Z.of_nat (length pre) + 1) with (Z.of_nat (length (pre ++ [item])))
      by (rewrite length_app; simpl; lia).
    rewrite IH by (rewrite length_app; simpl; lia).
    rewrite <- app_assoc, length_app. simpl.
    match goal with
    | |- Done (_ ++ _ :: _ ++ replicate ?n _, _) = Done (_ ++ _ :: _ ++ replicate ?m _, _) =>
        replace n with m by lia
    end.
    reflexivity.
Qed.

Lemma zip_range_app {A : Type} (lo : Z) (l1 l2 : list A) :
  zip (range lo (length (l1 ++ l2))) (l1 ++ l2)
  = zip (range lo (length l1)) l1 ++ zip (range (lo + Z.of_nat (length l1)) (length l2)) l2.
Proof.
  revert lo. induction l1 as [|x l1 IH]; intros lo.
  - simpl. rewrite Z.add_0_r. reflexivity.
  - cbn [length app]. rewrite !range_cons. cbn [zip zip_with app]. f_equal.
    rewrite IH. do 3 f_equal. lia.
Qed.

Lemma enumerate_app {A : Type} (l1 l2 : list A) :
  enumerate (l1 ++ l2) = enumerate l1 ++ zip (range (Z.of_nat (length l1)) (length l2)) l2.
Proof. unfold enumerate. apply (zip_range_app 0). Qed.

(** X27. The reservoir while it fills: on a stream of at most [B] items the
    reservoir ends as the stream in its order, followed by the placeholders
    of the free slots, and the random generator is not used; a longer stream
    is then handled from the reservoir of its first [B] items. *)
Theorem reservoir_fill_phase (B : Z) (stream rest : list string) (g : rng) :
  Z.of_nat (length stream) <= B ->
  sample B stream g
  = Done (stream ++ replicate (Z.to_nat B - length stream) "_"%string, g)
  /\ (Z.of_nat (length stream) = B ->
      sample B (stream ++ rest) g = resume B (length stream) rest (stream, g)).
Proof.
  intros Hlen.
  assert (sample B stream g
          = Done (stream ++ replicate (Z.to_nat B - length stream) "_"%string, g)) as Hfill.
  { pose proof (fill_loop B [] stream g ltac:(simpl; lia)) as Hloop.
    simpl in Hloop. rewrite Nat.sub_0_r in Hloop. exact Hloop. }
  split; [exact Hfill|]. intros HB.
  unfold sample in *. rewrite enumerate_app, for_each_app, Hfill. cbn [bind_outcome].
  replace (Z.to_nat B - length stream)%nat with 0%nat by lia.
  simpl. rewrite app_nil_r. reflexivity.
Qed.

Lemma reservoir_fill_phase_witness :
  sample 3 ["A"; "B"] zero_rng = Done (["A"; "B"; "_"]%string, zero_rng).
Proof.
  destruct (reservoir_fill_phase 3 ["A"; "B"] [] zero_rng) as [Hfill _].
  - simpl. lia.
  - exact Hfill.
Defined.

(** X28. A reservoir without slots: for [B <= 0] the reservoir is the empty
    list, and the first item of the stream stops the loop with the
    [ValueError] of [np.random.randint(0, 0)]. *)
Theorem reservoir_without_slots (B : Z) (item : string) (stream : list string) (g : rng) :
  B <= 0 -> sample B (item :: stream) g = Raised ValueError ([], g).
Proof.
  intros HB. unfold sample, enumerate. cbn [length]. rewrite range_cons.
  cbn [zip zip_with for_each]. unfold handle_new_item, init_RESERVOIR.
  destruct (Z.ltb_spec 0 B); [lia|].
  replace (Z.to_nat B) with 0%nat by lia. reflexivity.
Qed.

Lemma reservoir_without_slots_witness :
  sample 0 ["A"; "B"] zero_rng = Raised ValueError ([], zero_rng).
Proof. apply (reservoir_without_slots 0 "A" ["B"] zero_rng). lia. Defined.

End SamplingMore.
